(** * The line renderer of [vs/editor/common/viewLayout/viewLineRenderer.ts]

    A shallow embedding of [renderLine] / [renderLineActual] and the
    properties of the rendered markup and of the offset table.

    Conventions of the embedding:
    - a JavaScript string is the list of its UTF-16 code units ([jsstring]);
    - [out.push(x)] appends at the end of a list;
    - [number[]] is a list of slots, [None] being a hole, with the store
      [a[i] = v] growing the array as JavaScript does;
    - the inputs that are numbers are integers ([Z]).

    The scan is embedded twice.  The first embedding computes in integers,
    [%] being [Z.rem] (the sign of the dividend).  That is what JavaScript
    computes unless the tab size is [0]: [x % 0] is NaN there, where
    [Z.rem x 0] is [x].  The second embedding, the module [WithNaN], computes
    in numbers that are an integer or NaN, and is the code for every tab
    size.  The two return the same for a tab size other than [0]
    ([renderLine_numbers]), and for every tab size the same fragments, the
    same part index and tables of the same length ([renderLine_fragments]):
    with the tab size [0] a tab pushes no fragment in either.  The module
    [Heap] is the scan of [WithNaN] against a store of objects.

    The bookkeeping of [ExtHostDocumentSaveParticipant] (which listeners are
    held to be bad, and what becomes of their edits) is embedded in the
    module [SaveParticipant]. *)

From Stdlib Require Import ZArith Lia Ascii String.
From stdpp Require Import base option list gmap.

Local Open Scope Z_scope.

(** ** Strings *)

Definition jsstring := list Z.

(** A literal of the source, as code units. *)
Definition str (s : string) : jsstring :=
  (fun a => Z.of_N (N_of_ascii a)) <$> list_ascii_of_string s.

Definition dquote : Z := 34.

(** [s.charCodeAt(i)]: NaN ([None]) outside the string. *)
Definition charCodeAt (s : jsstring) (i : Z) : option Z :=
  if i <? 0 then None else s !! Z.to_nat i.

(** [s.charAt(i)]: the empty string outside the string. *)
Definition charAt (s : jsstring) (i : Z) : jsstring :=
  match charCodeAt s i with
  | Some c => [c]
  | None => []
  end.

(** ** Arrays of numbers *)

(** [arr[i] = v] *)
Definition array_set (arr : list (option Z)) (i v : Z) : list (option Z) :=
  if i <? 0 then arr
  else
    let n := Z.to_nat i in
    if (n <? length arr)%nat then <[n := Some v]> arr
    else arr ++ replicate (n - length arr) None ++ [Some v].

(** [arr[arr.length - 1]++] (on an empty array the index is [-1], which is
    no element of the array). *)
Definition array_incr_last (arr : list (option Z)) : list (option Z) :=
  match arr with
  | [] => []
  | _ => alter (fmap (fun x => x + 1)) (length arr - 1)%nat arr
  end.

(** ** Data *)

Record LineToken := mkLineToken {
  startIndex : Z;
  type : jsstring
}.

Record RenderLineInput := mkRenderLineInput {
  lineContent : jsstring;
  tabSize : Z;
  stopRenderingLineAfter : Z;
  renderWhitespace : bool;
  parts : list LineToken
}.

Record IRenderLineOutput := mkOutput {
  charOffsetInPart : list (option Z);
  lastRenderedPartIndex : Z;
  output : list jsstring
}.

(** [renderLine] returns or throws. *)
Inductive Result :=
  | Ok (o : IRenderLineOutput)
  | Throw (message : string).

Definition _space : Z := 32.
Definition _tab : Z := 9.
Definition _lowerThan : Z := 60.
Definition _greaterThan : Z := 62.
Definition _ampersand : Z := 38.
Definition _carriageReturn : Z := 13.
Definition _lineSeparator : Z := 8232.
Definition _bom : Z := 65279.

(** ** [isWhitespace]: the test of [/\bwhitespace\b/] *)

Definition isWordChar (c : Z) : bool :=
  ((48 <=? c) && (c <=? 57)) || ((65 <=? c) && (c <=? 90))
  || ((97 <=? c) && (c <=? 122)) || (c =? 95).

Fixpoint startsWith (p s : jsstring) : option jsstring :=
  match p, s with
  | [], _ => Some s
  | a :: p', b :: s' => if a =? b then startsWith p' s' else None
  | _ :: _, [] => None
  end.

(** The word is matched at the head of [s]; it ends at a word boundary. *)
Definition wordHere (s : jsstring) : bool :=
  match startsWith (str "whitespace") s with
  | Some [] => true
  | Some (c :: _) => negb (isWordChar c)
  | None => false
  end.

(** [prevWord]: the character before [s] is a word character. *)
Fixpoint whitespaceFrom (prevWord : bool) (s : jsstring) : bool :=
  match s with
  | [] => false
  | c :: s' => (negb prevWord && wordHere s) || whitespaceFrom (isWordChar c) s'
  end.

Definition isWhitespace (type : jsstring) : bool := whitespaceFrom false type.

(** ** The local variables of [renderLineActual] *)

Module Locals.
Record t := mk {
  charIndex : Z;
  out : list jsstring;
  charOffsetInPartArr : list (option Z);
  charOffsetInPart : Z;
  tabsCharDelta : Z
}.

Definition push (x : jsstring) (s : t) : t :=
  mk (charIndex s) (out s ++ [x]) (charOffsetInPartArr s)
     (charOffsetInPart s) (tabsCharDelta s).
End Locals.

(** How a loop is left: by falling through, or by the [return] inside it. *)
Inductive Flow :=
  | Continue (s : Locals.t)
  | Return (o : IRenderLineOutput).

(** The literals of the markup: ['&nbsp;'], ['&hellip;</span></span>'],
    ['<span class="token '], ['">'] and ['<span><span>&nbsp;</span></span>']. *)
Definition nbsp : jsstring := str "&nbsp;".
Definition ellipsis : jsstring := str "&hellip;</span></span>".
Definition tokenOpen : jsstring := str "<span class=" ++ [dquote] ++ str "token ".
Definition tokenClose : jsstring := [dquote; 62].
Definition placeholder : jsstring := str "<span><span>&nbsp;</span></span>".

(** [while (insertSpacesCount > 0) { out.push('&nbsp;'); insertSpacesCount--; }] *)
Fixpoint pushSpaces (fuel : nat) (insertSpacesCount : Z) (out : list jsstring)
  : list jsstring :=
  match fuel with
  | O => out
  | S fuel' =>
      if 0 <? insertSpacesCount
      then pushSpaces fuel' (insertSpacesCount - 1) (out ++ [nbsp])
      else out
  end.

Section RenderLineActual.

Variable lineText : jsstring.
Variable lineTextLength : Z.
Variable tabSize : Z.
Variable actualLineParts : list LineToken.
Variable renderWhitespace : bool.
Variable charBreakIndex : Z.

(** [case _tab:] *)
Definition renderTab (partRendersWhitespace : bool) (s : Locals.t) : Locals.t :=
  let insertSpacesCount :=
    tabSize - Z.rem (Locals.charIndex s + Locals.tabsCharDelta s) tabSize in
  let tabsCharDelta := Locals.tabsCharDelta s + (insertSpacesCount - 1) in
  let charOffsetInPart := Locals.charOffsetInPart s + (insertSpacesCount - 1) in
  let out1 :=
    if 0 <? insertSpacesCount
    then Locals.out s ++ [if partRendersWhitespace then str "&rarr;" else nbsp]
    else Locals.out s in
  let insertSpacesCount1 :=
    if 0 <? insertSpacesCount then insertSpacesCount - 1 else insertSpacesCount in
  Locals.mk (Locals.charIndex s)
    (pushSpaces (Z.to_nat insertSpacesCount1) insertSpacesCount1 out1)
    (Locals.charOffsetInPartArr s) charOffsetInPart tabsCharDelta.

(** [switch (charCode) { ... }] *)
Definition renderCharCode (partRendersWhitespace : bool) (charCode : option Z)
    (s : Locals.t) : Locals.t :=
  match charCode with
  | Some c =>
      if c =? _tab then renderTab partRendersWhitespace s
      else if c =? _space then
        Locals.push (if partRendersWhitespace then str "&middot;" else nbsp) s
      else if c =? _lowerThan then Locals.push (str "&lt;") s
      else if c =? _greaterThan then Locals.push (str "&gt;") s
      else if c =? _ampersand then Locals.push (str "&amp;") s
      else if c =? 0 then Locals.push (str "&#00;") s
      else if (c =? _bom) || (c =? _lineSeparator) then Locals.push [65533] s
      else if c =? _carriageReturn then Locals.push (str "&#8203") s
      else Locals.push (charAt lineText (Locals.charIndex s)) s
  | None => Locals.push (charAt lineText (Locals.charIndex s)) s
  end.

(** The body of the inner loop up to [charOffsetInPart ++]. *)
Definition renderChar (partRendersWhitespace : bool) (s : Locals.t) : Locals.t :=
  let s1 :=
    Locals.mk (Locals.charIndex s) (Locals.out s)
      (array_set (Locals.charOffsetInPartArr s) (Locals.charIndex s)
         (Locals.charOffsetInPart s))
      (Locals.charOffsetInPart s) (Locals.tabsCharDelta s) in
  let s2 :=
    renderCharCode partRendersWhitespace
      (charCodeAt lineText (Locals.charIndex s)) s1 in
  Locals.mk (Locals.charIndex s2) (Locals.out s2) (Locals.charOffsetInPartArr s2)
    (Locals.charOffsetInPart s2 + 1) (Locals.tabsCharDelta s2).

(** The [return] of the truncation branch. *)
Definition truncated (partIndex : Z) (s : Locals.t) : IRenderLineOutput :=
  mkOutput (array_incr_last (Locals.charOffsetInPartArr s)) partIndex
    (Locals.out s ++ [ellipsis]).

(** [for (; charIndex < toCharIndex; charIndex++) { ... }]; [fuel] bounds the
    number of iterations. *)
Fixpoint charLoop (fuel : nat) (partRendersWhitespace : bool)
    (toCharIndex partIndex : Z) (s : Locals.t) : Flow :=
  match fuel with
  | O => Continue s
  | S fuel' =>
      if Locals.charIndex s <? toCharIndex then
        let s1 := renderChar partRendersWhitespace s in
        if charBreakIndex <=? Locals.charIndex s1 then
          Return (truncated partIndex s1)
        else
          charLoop fuel' partRendersWhitespace toCharIndex partIndex
            (Locals.mk (Locals.charIndex s1 + 1) (Locals.out s1)
               (Locals.charOffsetInPartArr s1) (Locals.charOffsetInPart s1)
               (Locals.tabsCharDelta s1))
      else Continue s
  end.

(** One iteration of the loop over the parts: [part] is
    [actualLineParts[partIndex]] and [rest] are the parts after it. *)
Definition renderPart (partIndex : Z) (part : LineToken) (rest : list LineToken)
    (s : Locals.t) : Flow :=
  let s1 :=
    Locals.push tokenClose (Locals.push (type part) (Locals.push tokenOpen s)) in
  let partRendersWhitespace :=
    if renderWhitespace then isWhitespace (type part) else false in
  let toCharIndex :=
    match rest with
    | nextPart :: _ => Z.min lineTextLength (startIndex nextPart)
    | [] => lineTextLength
    end in
  let s2 :=
    Locals.mk (Locals.charIndex s1) (Locals.out s1)
      (Locals.charOffsetInPartArr s1) 0 (Locals.tabsCharDelta s1) in
  match
    charLoop (Z.to_nat (toCharIndex - Locals.charIndex s2))
      partRendersWhitespace toCharIndex partIndex s2
  with
  | Continue s3 => Continue (Locals.push (str "</span>") s3)
  | Return o => Return o
  end.

(** [for (let partIndex = 0; partIndex < partIndexLen; partIndex++)], by
    recursion on the parts from [partIndex] onwards. *)
Fixpoint partLoop (partIndex : Z) (remaining : list LineToken) (s : Locals.t)
    : Flow :=
  match remaining with
  | [] => Continue s
  | part :: rest =>
      match renderPart partIndex part rest s with
      | Continue s' => partLoop (partIndex + 1) rest s'
      | Return o => Return o
      end
  end.

Definition initial : Locals.t := Locals.mk 0 [str "<span>"] [] 0 0.

Definition renderLineActual : IRenderLineOutput :=
  match partLoop 0 actualLineParts initial with
  | Return o => o
  | Continue s =>
      mkOutput
        (Locals.charOffsetInPartArr s ++ [Some (Locals.charOffsetInPart s)])
        (Z.of_nat (length actualLineParts) - 1)
        (Locals.out s ++ [str "</span>"])
  end.

End RenderLineActual.

Definition renderLine (input : RenderLineInput) : Result :=
  let lineText := lineContent input in
  let lineTextLength := Z.of_nat (length lineText) in
  let actualLineParts := parts input in
  let charBreakIndex :=
    if stopRenderingLineAfter input =? -1 then lineTextLength
    else stopRenderingLineAfter input - 1 in
  if lineTextLength =? 0 then
    Ok (mkOutput [] 0 [placeholder])
  else if (length actualLineParts =? 0)%nat then
    Throw "Cannot render non empty line without line parts!"
  else
    Ok (renderLineActual lineText lineTextLength (tabSize input) actualLineParts
          (renderWhitespace input) charBreakIndex).

(** * [renderLine] with the numbers of JavaScript

    On integers every operation of the scan gives an integer, but for
    [x % 0], which is NaN, and a NaN stays in what is computed from it.  The
    embedding of this module keeps the NaN: the two counters of the scan and
    the entries of the table are numbers that are an integer or NaN.  The
    index of the scan, the lengths and the limit are integers in every
    call.  (The two zeros of JavaScript are not told apart.) *)
Module WithNaN.

Inductive number :=
  | Int (z : Z)
  | NaN.

(** [x + y] *)
Definition add (x y : number) : number :=
  match x, y with
  | Int a, Int b => Int (a + b)
  | _, _ => NaN
  end.

(** [x - y] *)
Definition sub (x y : number) : number :=
  match x, y with
  | Int a, Int b => Int (a - b)
  | _, _ => NaN
  end.

(** [x % y]: the sign of the dividend, and NaN for the divisor 0. *)
Definition rem (x y : number) : number :=
  match x, y with
  | Int a, Int b => if b =? 0 then NaN else Int (Z.rem a b)
  | _, _ => NaN
  end.

(** [x > 0]: [false] for NaN. *)
Definition positive (x : number) : bool :=
  match x with
  | Int a => 0 <? a
  | NaN => false
  end.

(** [arr[i] = v] *)
Definition array_set (arr : list (option number)) (i : Z) (v : number)
    : list (option number) :=
  if i <? 0 then arr
  else
    let n := Z.to_nat i in
    if (n <? length arr)%nat then <[n := Some v]> arr
    else arr ++ replicate (n - length arr) None ++ [Some v].

(** [arr[arr.length - 1]++] *)
Definition array_incr_last (arr : list (option number)) : list (option number) :=
  match arr with
  | [] => []
  | _ => alter (fmap (fun x => add x (Int 1))) (length arr - 1)%nat arr
  end.

Record IRenderLineOutput := mkOutput {
  charOffsetInPart : list (option number);
  lastRenderedPartIndex : Z;
  output : list jsstring
}.

Inductive Result :=
  | Ok (o : IRenderLineOutput)
  | Throw (message : string).

Module Locals.
Record t := mk {
  charIndex : Z;
  out : list jsstring;
  charOffsetInPartArr : list (option number);
  charOffsetInPart : number;
  tabsCharDelta : number
}.

Definition push (x : jsstring) (s : t) : t :=
  mk (charIndex s) (out s ++ [x]) (charOffsetInPartArr s)
     (charOffsetInPart s) (tabsCharDelta s).
End Locals.

Inductive Flow :=
  | Continue (s : Locals.t)
  | Return (o : IRenderLineOutput).

(** [while (insertSpacesCount > 0) { out.push('&nbsp;'); insertSpacesCount--; }] *)
Fixpoint pushSpaces (fuel : nat) (insertSpacesCount : number)
    (out : list jsstring) : list jsstring :=
  match fuel with
  | O => out
  | S fuel' =>
      if positive insertSpacesCount
      then pushSpaces fuel' (sub insertSpacesCount (Int 1)) (out ++ [nbsp])
      else out
  end.

(** The number of iterations of the loop from [insertSpacesCount]. *)
Definition iterations (insertSpacesCount : number) : nat :=
  match insertSpacesCount with
  | Int z => Z.to_nat z
  | NaN => 0
  end.

Section RenderLineActual.

Variable lineText : jsstring.
Variable lineTextLength : Z.
Variable tabSize : Z.
Variable actualLineParts : list LineToken.
Variable renderWhitespace : bool.
Variable charBreakIndex : Z.

(** [case _tab:] *)
Definition renderTab (partRendersWhitespace : bool) (s : Locals.t) : Locals.t :=
  let insertSpacesCount :=
    sub (Int tabSize)
      (rem (add (Int (Locals.charIndex s)) (Locals.tabsCharDelta s))
         (Int tabSize)) in
  let tabsCharDelta :=
    add (Locals.tabsCharDelta s) (sub insertSpacesCount (Int 1)) in
  let charOffsetInPart :=
    add (Locals.charOffsetInPart s) (sub insertSpacesCount (Int 1)) in
  let out1 :=
    if positive insertSpacesCount
    then Locals.out s ++ [if partRendersWhitespace then str "&rarr;" else nbsp]
    else Locals.out s in
  let insertSpacesCount1 :=
    if positive insertSpacesCount then sub insertSpacesCount (Int 1)
    else insertSpacesCount in
  Locals.mk (Locals.charIndex s)
    (pushSpaces (iterations insertSpacesCount1) insertSpacesCount1 out1)
    (Locals.charOffsetInPartArr s) charOffsetInPart tabsCharDelta.

(** [switch (charCode) { ... }] *)
Definition renderCharCode (partRendersWhitespace : bool) (charCode : option Z)
    (s : Locals.t) : Locals.t :=
  match charCode with
  | Some c =>
      if c =? _tab then renderTab partRendersWhitespace s
      else if c =? _space then
        Locals.push (if partRendersWhitespace then str "&middot;" else nbsp) s
      else if c =? _lowerThan then Locals.push (str "&lt;") s
      else if c =? _greaterThan then Locals.push (str "&gt;") s
      else if c =? _ampersand then Locals.push (str "&amp;") s
      else if c =? 0 then Locals.push (str "&#00;") s
      else if (c =? _bom) || (c =? _lineSeparator) then Locals.push [65533] s
      else if c =? _carriageReturn then Locals.push (str "&#8203") s
      else Locals.push (charAt lineText (Locals.charIndex s)) s
  | None => Locals.push (charAt lineText (Locals.charIndex s)) s
  end.

(** The body of the inner loop up to [charOffsetInPart ++]. *)
Definition renderChar (partRendersWhitespace : bool) (s : Locals.t) : Locals.t :=
  let s1 :=
    Locals.mk (Locals.charIndex s) (Locals.out s)
      (array_set (Locals.charOffsetInPartArr s) (Locals.charIndex s)
         (Locals.charOffsetInPart s))
      (Locals.charOffsetInPart s) (Locals.tabsCharDelta s) in
  let s2 :=
    renderCharCode partRendersWhitespace
      (charCodeAt lineText (Locals.charIndex s)) s1 in
  Locals.mk (Locals.charIndex s2) (Locals.out s2) (Locals.charOffsetInPartArr s2)
    (add (Locals.charOffsetInPart s2) (Int 1)) (Locals.tabsCharDelta s2).

(** The [return] of the truncation branch. *)
Definition truncated (partIndex : Z) (s : Locals.t) : IRenderLineOutput :=
  mkOutput (array_incr_last (Locals.charOffsetInPartArr s)) partIndex
    (Locals.out s ++ [ellipsis]).

(** [for (; charIndex < toCharIndex; charIndex++) { ... }] *)
Fixpoint charLoop (fuel : nat) (partRendersWhitespace : bool)
    (toCharIndex partIndex : Z) (s : Locals.t) : Flow :=
  match fuel with
  | O => Continue s
  | S fuel' =>
      if Locals.charIndex s <? toCharIndex then
        let s1 := renderChar partRendersWhitespace s in
        if charBreakIndex <=? Locals.charIndex s1 then
          Return (truncated partIndex s1)
        else
          charLoop fuel' partRendersWhitespace toCharIndex partIndex
            (Locals.mk (Locals.charIndex s1 + 1) (Locals.out s1)
               (Locals.charOffsetInPartArr s1) (Locals.charOffsetInPart s1)
               (Locals.tabsCharDelta s1))
      else Continue s
  end.

(** One iteration of the loop over the parts. *)
Definition renderPart (partIndex : Z) (part : LineToken) (rest : list LineToken)
    (s : Locals.t) : Flow :=
  let s1 :=
    Locals.push tokenClose (Locals.push (type part) (Locals.push tokenOpen s)) in
  let partRendersWhitespace :=
    if renderWhitespace then isWhitespace (type part) else false in
  let toCharIndex :=
    match rest with
    | nextPart :: _ => Z.min lineTextLength (startIndex nextPart)
    | [] => lineTextLength
    end in
  let s2 :=
    Locals.mk (Locals.charIndex s1) (Locals.out s1)
      (Locals.charOffsetInPartArr s1) (Int 0) (Locals.tabsCharDelta s1) in
  match
    charLoop (Z.to_nat (toCharIndex - Locals.charIndex s2))
      partRendersWhitespace toCharIndex partIndex s2
  with
  | Continue s3 => Continue (Locals.push (str "</span>") s3)
  | Return o => Return o
  end.

(** [for (let partIndex = 0; partIndex < partIndexLen; partIndex++)] *)
Fixpoint partLoop (partIndex : Z) (remaining : list LineToken) (s : Locals.t)
    : Flow :=
  match remaining with
  | [] => Continue s
  | part :: rest =>
      match renderPart partIndex part rest s with
      | Continue s' => partLoop (partIndex + 1) rest s'
      | Return o => Return o
      end
  end.

Definition initial : Locals.t :=
  Locals.mk 0 [str "<span>"] [] (Int 0) (Int 0).

Definition renderLineActual : IRenderLineOutput :=
  match partLoop 0 actualLineParts initial with
  | Return o => o
  | Continue s =>
      mkOutput
        (Locals.charOffsetInPartArr s ++ [Some (Locals.charOffsetInPart s)])
        (Z.of_nat (length actualLineParts) - 1)
        (Locals.out s ++ [str "</span>"])
  end.

End RenderLineActual.

Definition renderLine (input : RenderLineInput) : Result :=
  let lineText := lineContent input in
  let lineTextLength := Z.of_nat (length lineText) in
  let actualLineParts := parts input in
  let charBreakIndex :=
    if stopRenderingLineAfter input =? -1 then lineTextLength
    else stopRenderingLineAfter input - 1 in
  if lineTextLength =? 0 then
    Ok (mkOutput [] 0 [placeholder])
  else if (length actualLineParts =? 0)%nat then
    Throw "Cannot render non empty line without line parts!"
  else
    Ok (renderLineActual lineText lineTextLength (tabSize input) actualLineParts
          (renderWhitespace input) charBreakIndex).

End WithNaN.

(** * [renderLine] against a store

    The parts are an array object that refers to token objects; the two
    local arrays [out] and [charOffsetInPartArr] are array objects that the
    call allocates, writes to and returns in the output object.  The numbers
    are those of [WithNaN].  A computation is a function of the store that
    returns a value and the store after it, or [None] when it reads an object
    that is not of the kind it expects. *)
Module Heap.

Definition loc := nat.

Inductive object :=
  | TokenObj (token : LineToken)
  | ArrayObj (elements : list loc)
  | StringsObj (items : list jsstring)
  | NumbersObj (items : list (option WithNaN.number)).

Record RenderLineInput := mk {
  lineContent : jsstring;
  tabSize : Z;
  stopRenderingLineAfter : Z;
  renderWhitespace : bool;
  parts : loc
}.

(** The output object refers to the two arrays. *)
Record IRenderLineOutput := mkOutput {
  charOffsetInPart : loc;
  lastRenderedPartIndex : Z;
  output : loc
}.

Inductive Result :=
  | Ok (o : IRenderLineOutput)
  | Throw (message : string).

Definition M (A : Type) : Type :=
  gmap loc object -> option (A * gmap loc object).

Definition ret {A : Type} (a : A) : M A := fun h => Some (a, h).

Definition bind {A B : Type} (m : M A) (f : A -> M B) : M B :=
  fun h =>
    match m h with
    | Some (a, h') => f a h'
    | None => None
    end.

Notation "'let*' x ':=' m 'in' f" := (bind m (fun x => f))
  (at level 10, x name, m at level 100, f at level 200).

(** [[]], [[x]], [array.slice(0)]: a new object at a location that is not in
    use. *)
Definition alloc (o : object) : M loc :=
  fun h => let l := fresh (dom h) in Some (l, <[l := o]> h).

(** [a.push(x)] on an array of strings. *)
Definition pushString (a : loc) (x : jsstring) : M unit :=
  fun h =>
    match h !! a with
    | Some (StringsObj items) => Some (tt, <[a := StringsObj (items ++ [x])]> h)
    | _ => None
    end.

(** [a[i] = v], [a.push(v)] and [a[a.length - 1]++] on an array of
    numbers. *)
Definition setNumber (a : loc) (i : Z) (v : WithNaN.number) : M unit :=
  fun h =>
    match h !! a with
    | Some (NumbersObj items) =>
        Some (tt, <[a := NumbersObj (WithNaN.array_set items i v)]> h)
    | _ => None
    end.

Definition pushNumber (a : loc) (v : WithNaN.number) : M unit :=
  fun h =>
    match h !! a with
    | Some (NumbersObj items) => Some (tt, <[a := NumbersObj (items ++ [Some v])]> h)
    | _ => None
    end.

Definition incrLast (a : loc) : M unit :=
  fun h =>
    match h !! a with
    | Some (NumbersObj items) =>
        Some (tt, <[a := NumbersObj (WithNaN.array_incr_last items)]> h)
    | _ => None
    end.

(** [a.length] and [a[i]] on an array of tokens; of the token that [a[i]]
    refers to, its [startIndex] and its [type]. *)
Definition getLength (a : loc) : M nat :=
  fun h =>
    match h !! a with
    | Some (ArrayObj elements) => Some (length elements, h)
    | _ => None
    end.

Definition getPart (a : loc) (i : nat) : M LineToken :=
  fun h =>
    match h !! a with
    | Some (ArrayObj elements) =>
        match elements !! i with
        | Some e =>
            match h !! e with
            | Some (TokenObj token) => Some (token, h)
            | _ => None
            end
        | None => None
        end
    | _ => None
    end.

(** [array.slice(0)]: a new array object with the same elements. *)
Definition slice0 (a : loc) : M loc :=
  fun h =>
    match h !! a with
    | Some (ArrayObj elements) => alloc (ArrayObj elements) h
    | _ => None
    end.

(** The tokens that the elements of an array refer to. *)
Fixpoint readTokens (h : gmap loc object) (elements : list loc)
    : option (list LineToken) :=
  match elements with
  | [] => Some []
  | e :: elements' =>
      match h !! e, readTokens h elements' with
      | Some (TokenObj token), Some tokens => Some (token :: tokens)
      | _, _ => None
      end
  end.

Definition tokensAt (h : gmap loc object) (l : loc) : option (list LineToken) :=
  match h !! l with
  | Some (ArrayObj elements) => readTokens h elements
  | _ => None
  end.

(** The local variables that are numbers. *)
Module Vars.
Record t := mk {
  charIndex : Z;
  charOffsetInPart : WithNaN.number;
  tabsCharDelta : WithNaN.number
}.
End Vars.

Inductive Flow :=
  | Continue (v : Vars.t)
  | Return (o : IRenderLineOutput).

Section RenderLineActual.

Variable lineText : jsstring.
Variable lineTextLength : Z.
Variable tabSize : Z.
Variable actualLineParts : loc.
Variable renderWhitespace : bool.
Variable charBreakIndex : Z.

(** The arrays [out] and [charOffsetInPartArr]. *)
Variable out : loc.
Variable charOffsetInPartArr : loc.

(** [out.push(x)], the numbers being as they are. *)
Definition push (x : jsstring) (v : Vars.t) : M Vars.t :=
  let* _ := pushString out x in ret v.

Fixpoint pushSpaces (fuel : nat) (insertSpacesCount : WithNaN.number)
    : M unit :=
  match fuel with
  | O => ret tt
  | S fuel' =>
      if WithNaN.positive insertSpacesCount
      then let* _ := pushString out nbsp in
           pushSpaces fuel' (WithNaN.sub insertSpacesCount (WithNaN.Int 1))
      else ret tt
  end.

(** [case _tab:] *)
Definition renderTab (partRendersWhitespace : bool) (v : Vars.t) : M Vars.t :=
  let insertSpacesCount :=
    WithNaN.sub (WithNaN.Int tabSize)
      (WithNaN.rem
         (WithNaN.add (WithNaN.Int (Vars.charIndex v)) (Vars.tabsCharDelta v))
         (WithNaN.Int tabSize)) in
  let tabsCharDelta :=
    WithNaN.add (Vars.tabsCharDelta v)
      (WithNaN.sub insertSpacesCount (WithNaN.Int 1)) in
  let charOffsetInPart :=
    WithNaN.add (Vars.charOffsetInPart v)
      (WithNaN.sub insertSpacesCount (WithNaN.Int 1)) in
  let* _ :=
    if WithNaN.positive insertSpacesCount
    then pushString out (if partRendersWhitespace then str "&rarr;" else nbsp)
    else ret tt in
  let insertSpacesCount1 :=
    if WithNaN.positive insertSpacesCount
    then WithNaN.sub insertSpacesCount (WithNaN.Int 1)
    else insertSpacesCount in
  let* _ :=
    pushSpaces (WithNaN.iterations insertSpacesCount1) insertSpacesCount1 in
  ret (Vars.mk (Vars.charIndex v) charOffsetInPart tabsCharDelta).

(** [switch (charCode) { ... }] *)
Definition renderCharCode (partRendersWhitespace : bool) (charCode : option Z)
    (v : Vars.t) : M Vars.t :=
  match charCode with
  | Some c =>
      if c =? _tab then renderTab partRendersWhitespace v
      else if c =? _space then
        push (if partRendersWhitespace then str "&middot;" else nbsp) v
      else if c =? _lowerThan then push (str "&lt;") v
      else if c =? _greaterThan then push (str "&gt;") v
      else if c =? _ampersand then push (str "&amp;") v
      else if c =? 0 then push (str "&#00;") v
      else if (c =? _bom) || (c =? _lineSeparator) then push [65533] v
      else if c =? _carriageReturn then push (str "&#8203") v
      else push (charAt lineText (Vars.charIndex v)) v
  | None => push (charAt lineText (Vars.charIndex v)) v
  end.

(** The body of the inner loop up to [charOffsetInPart ++]. *)
Definition renderChar (partRendersWhitespace : bool) (v : Vars.t) : M Vars.t :=
  let* _ :=
    setNumber charOffsetInPartArr (Vars.charIndex v) (Vars.charOffsetInPart v) in
  let* v2 :=
    renderCharCode partRendersWhitespace (charCodeAt lineText (Vars.charIndex v))
      v in
  ret (Vars.mk (Vars.charIndex v2)
         (WithNaN.add (Vars.charOffsetInPart v2) (WithNaN.Int 1))
         (Vars.tabsCharDelta v2)).

(** The [return] of the truncation branch. *)
Definition truncated (partIndex : Z) : M IRenderLineOutput :=
  let* _ := pushString out ellipsis in
  let* _ := incrLast charOffsetInPartArr in
  ret (mkOutput charOffsetInPartArr partIndex out).

Fixpoint charLoop (fuel : nat) (partRendersWhitespace : bool)
    (toCharIndex partIndex : Z) (v : Vars.t) : M Flow :=
  match fuel with
  | O => ret (Continue v)
  | S fuel' =>
      if Vars.charIndex v <? toCharIndex then
        let* v1 := renderChar partRendersWhitespace v in
        if charBreakIndex <=? Vars.charIndex v1 then
          let* o := truncated partIndex in ret (Return o)
        else
          charLoop fuel' partRendersWhitespace toCharIndex partIndex
            (Vars.mk (Vars.charIndex v1 + 1) (Vars.charOffsetInPart v1)
               (Vars.tabsCharDelta v1))
      else ret (Continue v)
  end.

(** One iteration of the loop over the parts. *)
Definition renderPart (partIndex partIndexLen : nat) (v : Vars.t) : M Flow :=
  let* part := getPart actualLineParts partIndex in
  let* v1 := push tokenOpen v in
  let* v1 := push (type part) v1 in
  let* v1 := push tokenClose v1 in
  let partRendersWhitespace :=
    if renderWhitespace then isWhitespace (type part) else false in
  let* toCharIndex :=
    if (partIndex + 1 <? partIndexLen)%nat then
      let* nextPart := getPart actualLineParts (partIndex + 1) in
      ret (Z.min lineTextLength (startIndex nextPart))
    else ret lineTextLength in
  let v2 :=
    Vars.mk (Vars.charIndex v1) (WithNaN.Int 0) (Vars.tabsCharDelta v1) in
  let* flow :=
    charLoop (Z.to_nat (toCharIndex - Vars.charIndex v2)) partRendersWhitespace
      toCharIndex (Z.of_nat partIndex) v2 in
  match flow with
  | Continue v3 => let* _ := pushString out (str "</span>") in ret (Continue v3)
  | Return o => ret (Return o)
  end.

(** [for (let partIndex = 0, partIndexLen = actualLineParts.length;
    partIndex < partIndexLen; partIndex++)]; [fuel] bounds the number of
    iterations. *)
Fixpoint partLoop (fuel : nat) (partIndex partIndexLen : nat) (v : Vars.t)
    : M Flow :=
  match fuel with
  | O => ret (Continue v)
  | S fuel' =>
      if (partIndex <? partIndexLen)%nat then
        let* flow := renderPart partIndex partIndexLen v in
        match flow with
        | Continue v' => partLoop fuel' (S partIndex) partIndexLen v'
        | Return o => ret (Return o)
        end
      else ret (Continue v)
  end.

End RenderLineActual.

Definition renderLineActual (lineText : jsstring) (lineTextLength tabSize : Z)
    (actualLineParts : loc) (renderWhitespace : bool) (charBreakIndex : Z)
    : M IRenderLineOutput :=
  let* out := alloc (StringsObj []) in
  let* charOffsetInPartArr := alloc (NumbersObj []) in
  let* _ := pushString out (str "<span>") in
  let* partIndexLen := getLength actualLineParts in
  let* flow :=
    partLoop lineText lineTextLength tabSize actualLineParts renderWhitespace
      charBreakIndex out charOffsetInPartArr partIndexLen 0 partIndexLen
      (Vars.mk 0 (WithNaN.Int 0) (WithNaN.Int 0)) in
  match flow with
  | Return o => ret o
  | Continue v =>
      let* _ := pushString out (str "</span>") in
      let* _ := pushNumber charOffsetInPartArr (Vars.charOffsetInPart v) in
      ret (mkOutput charOffsetInPartArr (Z.of_nat partIndexLen - 1) out)
  end.

Definition renderLine (input : RenderLineInput) : M Result :=
  let lineText := lineContent input in
  let lineTextLength := Z.of_nat (length lineText) in
  let actualLineParts := parts input in
  let charBreakIndex :=
    if stopRenderingLineAfter input =? -1 then lineTextLength
    else stopRenderingLineAfter input - 1 in
  if lineTextLength =? 0 then
    let* charOffsetInPart := alloc (NumbersObj []) in
    let* output := alloc (StringsObj [placeholder]) in
    ret (Ok (mkOutput charOffsetInPart 0 output))
  else
    let* partIndexLen := getLength actualLineParts in
    if (partIndexLen =? 0)%nat then
      ret (Throw "Cannot render non empty line without line parts!")
    else
      let* copy := slice0 actualLineParts in
      let* o :=
        renderLineActual lineText lineTextLength (tabSize input) copy
          (renderWhitespace input) charBreakIndex in
      ret (Ok o).

End Heap.

(** ** The store of a scan *)

(** The store [hb] with the arrays [out] and [charOffsetInPartArr] of a scan
    at the locations [outL] and [arrL]. *)
Definition storeOf (hb : gmap Heap.loc Heap.object) (outL arrL : Heap.loc)
    (out : list jsstring) (arr : list (option WithNaN.number))
    : gmap Heap.loc Heap.object :=
  <[outL := Heap.StringsObj out]> (<[arrL := Heap.NumbersObj arr]> hb).

(** The numbers of a state of the scan. *)
Definition varsOf (s : WithNaN.Locals.t) : Heap.Vars.t :=
  Heap.Vars.mk (WithNaN.Locals.charIndex s) (WithNaN.Locals.charOffsetInPart s)
    (WithNaN.Locals.tabsCharDelta s).

(** How a loop is left in the store: the numbers or the output object, and
    the store with the arrays. *)
Definition flowOf (hb : gmap Heap.loc Heap.object) (outL arrL : Heap.loc)
    (f : WithNaN.Flow) : Heap.Flow * gmap Heap.loc Heap.object :=
  match f with
  | WithNaN.Continue s =>
      (Heap.Continue (varsOf s),
       storeOf hb outL arrL (WithNaN.Locals.out s)
         (WithNaN.Locals.charOffsetInPartArr s))
  | WithNaN.Return o =>
      (Heap.Return (Heap.mkOutput arrL (WithNaN.lastRenderedPartIndex o) outL),
       storeOf hb outL arrL (WithNaN.output o) (WithNaN.charOffsetInPart o))
  end.

(** The input with the tokens that its array of parts refers to. *)
Definition inputOf (input : Heap.RenderLineInput) (tokens : list LineToken)
    : RenderLineInput :=
  mkRenderLineInput (Heap.lineContent input) (Heap.tabSize input)
    (Heap.stopRenderingLineAfter input) (Heap.renderWhitespace input) tokens.

(** The result [r] in the store [h] is the result [r']: the same error, or an
    output object whose two arrays, at different locations, hold the table
    and the fragments of [r'], with the same part index. *)
Definition represents (h : gmap Heap.loc Heap.object) (r : Heap.Result)
    (r' : WithNaN.Result) : Prop :=
  match r, r' with
  | Heap.Ok o, WithNaN.Ok o' =>
      h !! Heap.output o = Some (Heap.StringsObj (WithNaN.output o')) /\
      h !! Heap.charOffsetInPart o =
        Some (Heap.NumbersObj (WithNaN.charOffsetInPart o')) /\
      Heap.lastRenderedPartIndex o = WithNaN.lastRenderedPartIndex o' /\
      Heap.output o <> Heap.charOffsetInPart o
  | Heap.Throw message, WithNaN.Throw message' => message = message'
  | _, _ => False
  end.

(** ** Integers among the numbers *)

(** A slot of a table in integers, as a slot in numbers. *)
Definition numberOf (slot : option Z) : option WithNaN.number :=
  WithNaN.Int <$> slot.

(** An output in integers, as an output in numbers. *)
Definition numbersOf (o : IRenderLineOutput) : WithNaN.IRenderLineOutput :=
  WithNaN.mkOutput (numberOf <$> charOffsetInPart o)
    (lastRenderedPartIndex o) (output o).

Definition numbersOfResult (r : Result) : WithNaN.Result :=
  match r with
  | Ok o => WithNaN.Ok (numbersOf o)
  | Throw message => WithNaN.Throw message
  end.

Definition numbersOfLocals (s : Locals.t) : WithNaN.Locals.t :=
  WithNaN.Locals.mk (Locals.charIndex s) (Locals.out s)
    (numberOf <$> Locals.charOffsetInPartArr s)
    (WithNaN.Int (Locals.charOffsetInPart s))
    (WithNaN.Int (Locals.tabsCharDelta s)).

Definition numbersOfFlow (f : Flow) : WithNaN.Flow :=
  match f with
  | Continue s => WithNaN.Continue (numbersOfLocals s)
  | Return o => WithNaN.Return (numbersOf o)
  end.

(** A slot of a table that holds an integer. *)
Definition isInteger (slot : option WithNaN.number) : Prop :=
  exists z : Z, slot = Some (WithNaN.Int z).

(** Two states of the scan, in integers and in numbers, at the same index
    with the same fragments and tables of the same length. *)
Definition sameFragments (s : Locals.t) (n : WithNaN.Locals.t) : Prop :=
  Locals.charIndex s = WithNaN.Locals.charIndex n /\
  Locals.out s = WithNaN.Locals.out n /\
  length (Locals.charOffsetInPartArr s) =
    length (WithNaN.Locals.charOffsetInPartArr n).

(** The same for how a loop is left; where it falls through, the column in
    integers is not negative. *)
Definition sameFragmentsFlow (f : Flow) (f' : WithNaN.Flow) : Prop :=
  match f, f' with
  | Continue s, WithNaN.Continue n =>
      sameFragments s n /\
      0 <= Locals.charIndex s + Locals.tabsCharDelta s
  | Return o, WithNaN.Return o' =>
      WithNaN.output o' = output o /\
      WithNaN.lastRenderedPartIndex o' = lastRenderedPartIndex o /\
      length (WithNaN.charOffsetInPart o') = length (charOffsetInPart o)
  | _, _ => False
  end.

(** An output in numbers without its table: the part index and the
    fragments, and a table of as many holes. *)
Definition fragmentsOf (o : WithNaN.IRenderLineOutput) : IRenderLineOutput :=
  mkOutput (replicate (length (WithNaN.charOffsetInPart o)) None)
    (WithNaN.lastRenderedPartIndex o) (WithNaN.output o).

(** * The save participant: [ExtHostDocumentSaveParticipant]

    The callbacks of the class are embedded as functions of what they are
    called with.  What the environment decides (whether the listener throws,
    how the join on its promises ends, the version of the document at that
    time, how the main thread answers) is an input, a [Behaviour].  A
    delivery is taken from the call to the settling of its promise with no
    other delivery in between, as [sequence] runs them. *)

Module SaveParticipant.

(** A listener function, by its identity: the key of the [WeakMap]. *)
Abbreviation Listener := nat (only parsing).

(** What the rejection handler looks at in what was thrown:
    [err instanceof Error] and [err.message]. *)
Record Thrown := mkThrown {
  instanceofError : bool;
  message : jsstring
}.

(** [new Error(message)] *)
Definition Error (message : jsstring) : Thrown := mkThrown true message.

Record Thresholds := mkThresholds {
  timeout : Z;
  errors : Z
}.

(** The default of the constructor. *)
Definition defaultThresholds : Thresholds := mkThresholds 1500 3.

(** [_badListeners]: [get] of a listener that was never [set] is
    [undefined], here [None]. *)
Abbreviation BadListeners := (gmap nat Z) (only parsing).

(** [errors > this._thresholds.errors]; [undefined > n] is [false]. *)
Definition exceeds (count : option Z) (thresholds : Thresholds) : bool :=
  match count with
  | Some n => errors thresholds <? n
  | None => false
  end.

(** [!errors ? 1 : errors + 1] *)
Definition nextCount (count : option Z) : Z :=
  match count with
  | Some n => if n =? 0 then 1 else n + 1
  | None => 1
  end.

(** [!(err instanceof Error) || err.message !== 'concurrent_edits'] *)
Definition counts (err : Thrown) : bool :=
  negb (instanceofError err) ||
  negb (bool_decide (message err = str "concurrent_edits")).

(** The rejection handler of [_deliverEventAsyncAndBlameBadListeners]: the
    map after it and what it returns. *)
Definition onRejected (bad : BadListeners) (listener : Listener) (err : Thrown)
    : BadListeners * bool :=
  (if counts err then <[listener := nextCount (bad !! listener)]> bad else bad,
   false).

Section Edits.

(** The ranges and line ends of the extension host and of the main thread,
    and the converters [fromRange] and [EndOfLine.from] between them. *)
Variables Range IRange EndOfLine EndOfLineSequence : Type.
Variable fromRange : Range -> IRange.
Variable EndOfLine_from : option EndOfLine -> EndOfLineSequence.

Record TextEdit := mkTextEdit {
  range : option Range;
  newText : jsstring;
  newEol : option EndOfLine
}.

Record ResourceEdit := mkResourceEdit {
  edit_range : option IRange;
  edit_newText : jsstring;
  edit_newEol : EndOfLineSequence
}.

(** The message of the [TypeError] that the engine throws where a loop takes
    the properties of [undefined]. *)
Variable typeErrorMessage : jsstring.

(** An element of an array: a hole of the array, a [TextEdit], or a value
    that is no [TextEdit]. *)
Inductive Element :=
  | Hole
  | Edit (e : TextEdit)
  | Other.

(** What a promise of [waitUntil] resolves to: something that is no array,
    or an array. *)
Inductive Value :=
  | NotArray
  | ArrayOf (elements : list Element).

(** [value.every(e => e instanceof TextEdit)]; [every] does not call the
    test for a hole. *)
Definition everyTextEdit (elements : list Element) : bool :=
  forallb (fun e => match e with Other => false | _ => true end) elements.

(** [{ range: range && fromRange(range), newText, newEol: EndOfLine.from(newEol) }] *)
Definition toResourceEdit (e : TextEdit) : ResourceEdit :=
  mkResourceEdit (fromRange <$> range e) (newText e) (EndOfLine_from (newEol e)).

(** [for (const { newText, newEol, range } of value) { edits.push(...) }]:
    the iteration goes through a hole as [undefined], of which no property
    can be taken.  (The loop is behind the test of [every], so that it does
    not come to an element that is no [TextEdit].) *)
Fixpoint pushAll (edits : list ResourceEdit) (elements : list Element)
    : Thrown + list ResourceEdit :=
  match elements with
  | [] => inr edits
  | Edit e :: elements' => pushAll (edits ++ [toResourceEdit e]) elements'
  | _ :: _ => inl (Error typeErrorMessage)
  end.

(** The body of [for (const value of values)]. *)
Definition pushEdits (edits : list ResourceEdit) (value : Value)
    : Thrown + list ResourceEdit :=
  match value with
  | ArrayOf elements =>
      if everyTextEdit elements then pushAll edits elements else inr edits
  | NotArray => inr edits
  end.

(** [for (const value of values) { ... }], from the edits so far. *)
Fixpoint collectFrom (edits : list ResourceEdit) (values : list Value)
    : Thrown + list ResourceEdit :=
  match values with
  | [] => inr edits
  | value :: values' =>
      match pushEdits edits value with
      | inl err => inl err
      | inr edits' => collectFrom edits' values'
      end
  end.

(** [workspaceResourceEdit.edits] after the loop, or what the loop
    throws. *)
Definition collectEdits (values : list Value) : Thrown + list ResourceEdit :=
  collectFrom [] values.

(** What the continuation of the join returns or throws; what it throws
    rejects the promise. *)
Inductive Continuation :=
  | Undefined
  | TryApplyWorkspaceEdit (edits : list ResourceEdit)
  | Reject (err : Thrown).

(** [.then(values => { ... })], with the version at the delivery and the
    version of the document at the join. *)
Definition onJoined (version documentVersion : Z) (values : list Value)
    : Continuation :=
  match collectEdits values with
  | inl err => Reject err
  | inr edits =>
      if (length edits =? 0)%nat then Undefined
      else if version =? documentVersion then TryApplyWorkspaceEdit edits
      else Reject (Error (str "concurrent_edits"))
  end.

(** How a promise is settled. *)
Inductive Settled :=
  | Fulfilled
  | Rejected (err : Thrown).

(** How the join on the promises of the listener ends: all of them are
    fulfilled, one of them is rejected, or the timer fires first. *)
Inductive Joined :=
  | JoinedValues (values : list Value)
  | JoinedRejected (err : Thrown)
  | JoinedTimeout.

(** What the environment decides in a delivery: what [listener.apply]
    throws, how the join ends, [document.version] at that time, and how the
    promise of [$tryApplyWorkspaceEdit] is settled. *)
Record Behaviour := mkBehaviour {
  throws : option Thrown;
  joined : Joined;
  documentVersion : Z;
  applied : Settled
}.

(** [_deliverEventAsync]: how the promise it returns is settled. *)
Definition deliverEventAsync (version : Z) (b : Behaviour) : Settled :=
  match throws b with
  | Some err => Rejected err
  | None =>
      match joined b with
      | JoinedTimeout => Rejected (Error (str "timeout"))
      | JoinedRejected err => Rejected err
      | JoinedValues values =>
          match onJoined version (documentVersion b) values with
          | Undefined => Fulfilled
          | TryApplyWorkspaceEdit _ => applied b
          | Reject err => Rejected err
          end
      end
  end.

(** [_deliverEventAsyncAndBlameBadListeners]: the map after the promise it
    returns is settled, and the value of that promise. *)
Definition deliverEventAsyncAndBlameBadListeners (thresholds : Thresholds)
    (bad : BadListeners) (listener : Listener) (version : Z) (b : Behaviour)
    : BadListeners * bool :=
  if exceeds (bad !! listener) thresholds then (bad, false)
  else
    match deliverEventAsync version b with
    | Fulfilled => (bad, true)
    | Rejected err => onRejected bad listener err
    end.

(** A delivery: the listener, the version of the document at the call and
    what the environment decides. *)
Record Delivery := mkDelivery {
  to : Listener;
  version : Z;
  behaviour : Behaviour
}.

(** Deliveries one after the other: the map after the last and the values of
    the promises. *)
Fixpoint deliveries (thresholds : Thresholds) (bad : BadListeners)
    (ds : list Delivery) : BadListeners * list bool :=
  match ds with
  | [] => (bad, [])
  | d :: ds' =>
      let r :=
        deliverEventAsyncAndBlameBadListeners thresholds bad (to d) (version d)
          (behaviour d) in
      let rs := deliveries thresholds (fst r) ds' in
      (fst rs, snd r :: snd rs)
  end.

(** A delivery that is rejected with something that counts. *)
Definition fails (d : Delivery) : Prop :=
  exists err,
    deliverEventAsync (version d) (behaviour d) = Rejected err /\
    counts err = true.

End Edits.

Arguments mkTextEdit {Range EndOfLine} range newText newEol.
Arguments mkResourceEdit {IRange EndOfLineSequence} edit_range edit_newText
  edit_newEol.
Arguments Undefined {IRange EndOfLineSequence}.
Arguments TryApplyWorkspaceEdit {IRange EndOfLineSequence} edits.
Arguments Reject {IRange EndOfLineSequence} err.
Arguments Hole {Range EndOfLine}.
Arguments Edit {Range EndOfLine} e.
Arguments Other {Range EndOfLine}.
Arguments NotArray {Range EndOfLine}.
Arguments ArrayOf {Range EndOfLine} elements.
Arguments JoinedValues {Range EndOfLine} values.
Arguments JoinedRejected {Range EndOfLine} err.
Arguments JoinedTimeout {Range EndOfLine}.
Arguments mkBehaviour {Range EndOfLine} throws joined documentVersion applied.
Arguments throws {Range EndOfLine} b.
Arguments joined {Range EndOfLine} b.
Arguments documentVersion {Range EndOfLine} b.
Arguments applied {Range EndOfLine} b.
Arguments mkDelivery {Range EndOfLine} to version behaviour.
Arguments to {Range EndOfLine} d.
Arguments version {Range EndOfLine} d.
Arguments behaviour {Range EndOfLine} d.
Arguments everyTextEdit {Range EndOfLine} elements.
Arguments toResourceEdit {Range IRange EndOfLine EndOfLineSequence} fromRange
  EndOfLine_from e.
Arguments pushAll {Range IRange EndOfLine EndOfLineSequence} fromRange
  EndOfLine_from typeErrorMessage edits elements.
Arguments pushEdits {Range IRange EndOfLine EndOfLineSequence} fromRange
  EndOfLine_from typeErrorMessage edits value.
Arguments collectFrom {Range IRange EndOfLine EndOfLineSequence} fromRange
  EndOfLine_from typeErrorMessage edits values.
Arguments collectEdits {Range IRange EndOfLine EndOfLineSequence} fromRange
  EndOfLine_from typeErrorMessage values.
Arguments onJoined {Range IRange EndOfLine EndOfLineSequence} fromRange
  EndOfLine_from typeErrorMessage version documentVersion values.
Arguments deliverEventAsync {Range IRange EndOfLine EndOfLineSequence} fromRange
  EndOfLine_from typeErrorMessage version b.
Arguments deliverEventAsyncAndBlameBadListeners
  {Range IRange EndOfLine EndOfLineSequence} fromRange EndOfLine_from
  typeErrorMessage thresholds bad listener version b.
Arguments deliveries {Range IRange EndOfLine EndOfLineSequence} fromRange
  EndOfLine_from typeErrorMessage thresholds bad ds.
Arguments fails {Range IRange EndOfLine EndOfLineSequence} fromRange
  EndOfLine_from typeErrorMessage d.

End SaveParticipant.

(** * Notions for the statements *)

(** ** The fragments of the output *)

(** The entities and placeholders that stand for a character. *)
Definition entities : list jsstring :=
  [nbsp; str "&rarr;"; str "&middot;"; str "&lt;"; str "&gt;"; str "&amp;";
   str "&#00;"; [65533]; str "&#8203"].

(** What a character of the line is rendered as: an entity, or itself when it
    is none of [<], [>], [&] (or nothing, for an index outside the line). *)
Inductive Content : jsstring -> Prop :=
  | content_entity (e : jsstring) : e ∈ entities -> Content e
  | content_char (c : Z) :
      c <> _lowerThan -> c <> _greaterThan -> c <> _ampersand -> Content [c]
  | content_none : Content [].

(** The markup around the characters. *)
Definition structural : list jsstring :=
  [str "<span>"; tokenOpen; tokenClose; str "</span>"].

(** A fragment of the scan: markup, the type of a part, or the rendering of a
    character. *)
Definition Emitted (types : list jsstring) (f : jsstring) : Prop :=
  f ∈ structural \/ f ∈ types \/ Content f.

(** What a fragment of an output can be. *)
Definition Fragment (types : list jsstring) (f : jsstring) : Prop :=
  Emitted types f \/ f = ellipsis \/ f = placeholder.

(** ** States of the scan *)

(** Where the scan has recorded one slot per index below [charIndex]. *)
Definition inv (s : Locals.t) : Prop :=
  0 <= Locals.charIndex s /\
  length (Locals.charOffsetInPartArr s) = Z.to_nat (Locals.charIndex s) /\
  Forall is_Some (Locals.charOffsetInPartArr s).

(** Where the column [charIndex + tabsCharDelta] is not negative. *)
Definition tabs_inv (s : Locals.t) : Prop :=
  0 <= Locals.charIndex s /\ 0 <= Locals.tabsCharDelta s.

(** [s'] has the output of [s] followed by fragments that satisfy [P], and
    the offsets of [s] followed by further slots. *)
Definition extends (P : jsstring -> Prop) (s s' : Locals.t) : Prop :=
  (exists frags, Locals.out s' = Locals.out s ++ frags /\ Forall P frags) /\
  Locals.charOffsetInPartArr s `prefix_of` Locals.charOffsetInPartArr s'.

(** What [renderLineActual] returns when the scan falls through. *)
Definition completed (parts : list LineToken) (s : Locals.t) : IRenderLineOutput :=
  mkOutput (Locals.charOffsetInPartArr s ++ [Some (Locals.charOffsetInPart s)])
    (Z.of_nat (length parts) - 1) (Locals.out s ++ [str "</span>"]).

(** ** Inputs and parts *)

(** The input with no truncation limit. *)
Definition untruncated (input : RenderLineInput) : RenderLineInput :=
  mkRenderLineInput (lineContent input) (tabSize input) (-1)
    (renderWhitespace input) (parts input).

(** The number of fragments of [l] that are [f]. *)
Fixpoint occurrences (f : jsstring) (l : list jsstring) : nat :=
  match l with
  | [] => 0
  | x :: l' => ((if decide (x = f) then 1 else 0) + occurrences f l')%nat
  end.

(** The start indices increase strictly along the parts. *)
Definition strictlyIncreasing (parts : list LineToken) : Prop :=
  forall (i j : nat) (p q : LineToken),
    (i < j)%nat -> parts !! i = Some p -> parts !! j = Some q ->
    startIndex p < startIndex q.

(** The range of the part [k] is from its start index to the start index of
    the next part, or to the end of the line for the last part; [x] is in it. *)
Definition tokenContains (lineLength : Z) (parts : list LineToken) (k : nat)
    (x : Z) : Prop :=
  exists part,
    parts !! k = Some part /\ startIndex part <= x /\
    x < match parts !! S k with
        | Some nextPart => startIndex nextPart
        | None => lineLength
        end.

(** The parts of a valid input: the first starts at [0] and the start indices
    increase strictly. *)
Definition validTokens (parts : list LineToken) : Prop :=
  (exists p rest, parts = p :: rest /\ startIndex p = 0) /\
  strictlyIncreasing parts.

(** What the scan reads of the start indices: those of the parts after the
    first, clamped to the length of the line. *)
Definition clampedStarts (lineTextLength : Z) (parts : list LineToken) : list Z :=
  (fun p => Z.min lineTextLength (startIndex p)) <$> tail parts.

(** Where the range of [part] ends, [rest] being the parts after it. *)
Definition rangeEnd (lineTextLength : Z) (rest : list LineToken) : Z :=
  match rest with
  | nextPart :: _ => Z.min lineTextLength (startIndex nextPart)
  | [] => lineTextLength
  end.

(** ** Examples *)

(** The example of the specification: [a<tab>b] in one part. *)
Definition c1_input : RenderLineInput :=
  mkRenderLineInput (str ("a" ++ String (ascii_of_nat 9) "b")) 4 (-1) false
    [mkLineToken 0 (str "text")].

(** The state of that scan at the tab. *)
Definition c1_at_tab : Locals.t :=
  Locals.mk 1 [str "<span>"; tokenOpen; str "text"; tokenClose; str "a"]
    [Some 0] 1 0.

(** The line [abcdef] in three parts of two characters, cut after the third
    character, the first of the second part. *)
Definition c2_input : RenderLineInput :=
  mkRenderLineInput (str "abcdef") 4 3 false
    [mkLineToken 0 (str "x"); mkLineToken 2 (str "y"); mkLineToken 4 (str "z")].

Definition c2_output : IRenderLineOutput :=
  mkOutput [Some 0; Some 1; Some 1] 1
    [str "<span>"; tokenOpen; str "x"; tokenClose; str "a"; str "b";
     str "</span>"; tokenOpen; str "y"; tokenClose; str "c"; ellipsis].

(** A store with the token of the first example at [0] and the array of the
    parts at [1]. *)
Definition c8_heap : gmap Heap.loc Heap.object :=
  <[1%nat := Heap.ArrayObj [0%nat]]>
    (<[0%nat := Heap.TokenObj (mkLineToken 0 (str "text"))]> ∅).

Definition c8_input : Heap.RenderLineInput :=
  Heap.mk (str ("a" ++ String (ascii_of_nat 9) "b")) 4 (-1) false 1%nat.

(** The line [abc] in two parts, [ab] and [c]. *)
Definition c10_line : jsstring := str "abc".
Definition c10_first : LineToken := mkLineToken 0 (str "x").
Definition c10_second : LineToken := mkLineToken 2 (str "y").

(** A listener whose promises are not settled in time, one that answers with
    an edit while the document moves on to the version [2], and deliveries of
    the version [1] to the listener [7]; ranges and line ends are left
    out. *)
Definition sp_late : SaveParticipant.Behaviour unit unit :=
  SaveParticipant.mkBehaviour None SaveParticipant.JoinedTimeout 1
    SaveParticipant.Fulfilled.

Definition sp_edit : SaveParticipant.Behaviour unit unit :=
  SaveParticipant.mkBehaviour None
    (SaveParticipant.JoinedValues
       [SaveParticipant.ArrayOf
          [SaveParticipant.Edit (SaveParticipant.mkTextEdit None (str "x") None)]])
    2 SaveParticipant.Fulfilled.

Definition sp_holed : SaveParticipant.Behaviour unit unit :=
  SaveParticipant.mkBehaviour None
    (SaveParticipant.JoinedValues
       [SaveParticipant.ArrayOf
          [SaveParticipant.Edit (SaveParticipant.mkTextEdit None (str "x") None);
           SaveParticipant.Hole]])
    1 SaveParticipant.Fulfilled.

Definition sp_deliver (b : SaveParticipant.Behaviour unit unit)
    : SaveParticipant.Delivery unit unit :=
  SaveParticipant.mkDelivery 7%nat 1 b.

Definition sp_fromRange (r : unit) : unit := r.
Definition sp_fromEol (e : option unit) : unit := tt.
Definition sp_message : jsstring :=
  str "Cannot read property 'newText' of undefined".

(** ** Further notions *)

(** What a result shows of positions: the table, the part index and the
    number of fragments, or the message of the error. *)
Definition shape (r : Result) : (list (option Z) * Z * nat) + string :=
  match r with
  | Ok o => inl (charOffsetInPart o, lastRenderedPartIndex o, length (output o))
  | Throw message => inr message
  end.

(** Two states of the scan that differ at most in which fragments they hold. *)
Definition alike (s s' : Locals.t) : Prop :=
  Locals.charIndex s = Locals.charIndex s' /\
  Locals.charOffsetInPartArr s = Locals.charOffsetInPartArr s' /\
  Locals.charOffsetInPart s = Locals.charOffsetInPart s' /\
  Locals.tabsCharDelta s = Locals.tabsCharDelta s' /\
  length (Locals.out s) = length (Locals.out s').

(** The same for how a loop is left. *)
Definition alikeFlow (f f' : Flow) : Prop :=
  match f, f' with
  | Continue s, Continue s' => alike s s'
  | Return o, Return o' => shape (Ok o) = shape (Ok o')
  | _, _ => False
  end.

(** ** Columns *)

(** The width of the character [c] at column [col]: a tab reaches the next
    tab stop, any other character takes one column. *)
Definition charWidth (tabSize col c : Z) : Z :=
  if c =? _tab then tabSize - col mod tabSize else 1.

(** The column after the characters [cs], from the column [col]. *)
Fixpoint columnAfter (tabSize col : Z) (cs : list Z) : Z :=
  match cs with
  | [] => col
  | c :: cs' => columnAfter tabSize (col + charWidth tabSize col c) cs'
  end.

(** The column of the character at index [i] of the line. *)
Definition column (tabSize : Z) (lineText : jsstring) (i : nat) : Z :=
  columnAfter tabSize 0 (take i lineText).

(** What the switch pushes for the character [c] at the column [col]. *)
Definition charFragments (tabSize : Z) (prw : bool) (col c : Z) : list jsstring :=
  Locals.out (renderCharCode [c] tabSize prw (Some c) (Locals.mk 0 [] [] 0 col)).

(** The fragments of the [n] characters from the index [from], each at its
    column. *)
Definition rangeFragments (tabSize : Z) (prw : bool) (lineText : jsstring)
    (from n : nat) : list jsstring :=
  concat
    ((fun i =>
        match lineText !! i with
        | Some c => charFragments tabSize prw (column tabSize lineText i) c
        | None => []
        end) <$> seq from n).

(** The offsets of the [n] characters from the index [from] in a part that
    begins at the index [start]: the columns since the start of the part. *)
Definition rangeOffsets (tabSize : Z) (lineText : jsstring) (start from n : nat)
    : list (option Z) :=
  (fun i => Some (column tabSize lineText i - column tabSize lineText start))
    <$> seq from n.

(** The number of characters of a part that is entered at the index [from],
    [rest] being the parts after it. *)
Definition rangeLength (lineText : jsstring) (from : nat) (rest : list LineToken)
    : nat :=
  Z.to_nat (rangeEnd (Z.of_nat (length lineText)) rest - Z.of_nat from).

(** The fragments of the parts, the first of them entered at the index
    [from]: for each part its opening, its characters and its closing. *)
Fixpoint partSpans (tabSize : Z) (flag : bool) (lineText : jsstring) (from : nat)
    (parts : list LineToken) : list jsstring :=
  match parts with
  | [] => []
  | part :: rest =>
      let n := rangeLength lineText from rest in
      [tokenOpen; type part; tokenClose] ++
      rangeFragments tabSize (if flag then isWhitespace (type part) else false)
        lineText from n ++
      [str "</span>"] ++ partSpans tabSize flag lineText (from + n) rest
  end.

(** The offsets of the characters of the parts. *)
Fixpoint partOffsets (tabSize : Z) (lineText : jsstring) (from : nat)
    (parts : list LineToken) : list (option Z) :=
  match parts with
  | [] => []
  | part :: rest =>
      let n := rangeLength lineText from rest in
      rangeOffsets tabSize lineText from from n ++
      partOffsets tabSize lineText (from + n) rest
  end.

(** The width of the last part. *)
Fixpoint finalOffset (tabSize : Z) (lineText : jsstring) (from : nat)
    (parts : list LineToken) : Z :=
  match parts with
  | [] => 0
  | part :: rest =>
      let n := rangeLength lineText from rest in
      match rest with
      | [] => column tabSize lineText (from + n) - column tabSize lineText from
      | _ :: _ => finalOffset tabSize lineText (from + n) rest
      end
  end.

(** The fragments of a scan that is left after the character before the
    index [upto]: those of the parts, the first of them entered at the index
    [from], up to that character. *)
Fixpoint cutSpans (tabSize : Z) (flag : bool) (lineText : jsstring)
    (upto from : nat) (parts : list LineToken) : list jsstring :=
  match parts with
  | [] => []
  | part :: rest =>
      let n := rangeLength lineText from rest in
      let prw := if flag then isWhitespace (type part) else false in
      [tokenOpen; type part; tokenClose] ++
      if (upto <=? from + n)%nat
      then rangeFragments tabSize prw lineText from (upto - from)
      else rangeFragments tabSize prw lineText from n ++
           [str "</span>"] ++ cutSpans tabSize flag lineText upto (from + n) rest
  end.

(** The number of parts that are closed before the character before the index
    [upto]. *)
Fixpoint cutIndex (lineText : jsstring) (upto from : nat) (parts : list LineToken)
    : nat :=
  match parts with
  | [] => 0
  | part :: rest =>
      let n := rangeLength lineText from rest in
      if (upto <=? from + n)%nat then 0%nat
      else S (cutIndex lineText upto (from + n) rest)
  end.

(** ** Marks of whitespace *)

(** A fragment [g] of a rendering that shows whitespace, beside the fragment
    [f] of the rendering that does not: the same, or a mark where [f] is a
    non-breaking space. *)
Definition marked (f g : jsstring) : Prop :=
  g = f \/ (f = nbsp /\ (g = str "&rarr;" \/ g = str "&middot;")).

(** Two states of the scan with the same counters and table, and fragments
    that are the same up to marks. *)
Definition marks (s s' : Locals.t) : Prop :=
  Locals.charIndex s = Locals.charIndex s' /\
  Locals.charOffsetInPartArr s = Locals.charOffsetInPartArr s' /\
  Locals.charOffsetInPart s = Locals.charOffsetInPart s' /\
  Locals.tabsCharDelta s = Locals.tabsCharDelta s' /\
  Forall2 marked (Locals.out s) (Locals.out s').

(** The same for two outputs, and for how a loop is left. *)
Definition marksOutput (o o' : IRenderLineOutput) : Prop :=
  charOffsetInPart o = charOffsetInPart o' /\
  lastRenderedPartIndex o = lastRenderedPartIndex o' /\
  Forall2 marked (output o) (output o').

Definition marksFlow (f f' : Flow) : Prop :=
  match f, f' with
  | Continue s, Continue s' => marks s s'
  | Return o, Return o' => marksOutput o o'
  | _, _ => False
  end.

(** ** The layout of the output *)

(** The rendering of a character by the table of the specification: the
    fragments [g] that stand for the character [c] in a part that renders
    whitespace ([prw]) or not.  A tab is a tab glyph (or a non-breaking
    space) followed by non-breaking spaces, or nothing when the distance to
    the stop is not positive; the other characters are one fragment. *)
Definition Rendered (prw : bool) (c : Z) (g : list jsstring) : Prop :=
  if c =? _tab then
    g = [] \/
    exists n : nat, g = (if prw then str "&rarr;" else nbsp) :: replicate n nbsp
  else if c =? _space then g = [if prw then str "&middot;" else nbsp]
  else if c =? _lowerThan then g = [str "&lt;"]
  else if c =? _greaterThan then g = [str "&gt;"]
  else if c =? _ampersand then g = [str "&amp;"]
  else if c =? 0 then g = [str "&#00;"]
  else if (c =? _bom) || (c =? _lineSeparator) then g = [[65533]]
  else if c =? _carriageReturn then g = [str "&#8203"]
  else g = [[c]].

(** The ranges of the parts in a line of [lineLength] characters, the first
    part being entered at the index [from]: a part is entered where the part
    before it ended, and it ends at the start index of the next part, clamped
    to the length of the line (at the length of the line for the last part),
    unless it is entered beyond that index and has no character. *)
Fixpoint ranges (lineLength : nat) (from : nat) (parts : list LineToken)
    : list (nat * nat) :=
  match parts with
  | [] => []
  | part :: rest =>
      let to := Nat.max from (Z.to_nat (rangeEnd (Z.of_nat lineLength) rest)) in
      (from, to) :: ranges lineLength to rest
  end.

(** The span of [part] over the characters of a range: its opening, its type,
    the end of the opening, the renderings of the characters from [range.1]
    to [range.2 - 1] one after the other, and its closing when it is
    [closed]. *)
Definition Span (flag : bool) (lineText : jsstring) (closed : bool)
    (part : LineToken) (range : nat * nat) (frags : list jsstring) : Prop :=
  exists groups : list (list jsstring),
    Forall2 (Rendered (if flag then isWhitespace (type part) else false))
      (take (range.2 - range.1) (drop range.1 lineText)) groups /\
    frags =
      [tokenOpen; type part; tokenClose] ++ concat groups ++
      (if closed then [str "</span>"] else []).

(** The closed spans of parts over ranges, one after the other. *)
Fixpoint Spans (flag : bool) (lineText : jsstring) (parts : list LineToken)
    (rs : list (nat * nat)) (frags : list jsstring) : Prop :=
  match parts, rs with
  | [], [] => frags = []
  | part :: parts', range :: rs' =>
      exists span rest,
        Span flag lineText true part range span /\
        Spans flag lineText parts' rs' rest /\
        frags = span ++ rest
  | _, _ => False
  end.

(** The layout of the output of a scan under the break index [cb]: when the
    break index is not inside the line, the opening of the line, the closed
    spans of the parts over their ranges and the closing of the line, with
    the index of the last part; when it is, the opening of the line, the
    closed spans of the parts before the part [k] whose range holds the
    index [upto - 1] of the last character that is scanned, the open span of
    that part up to that character, and the ellipsis marker, with the index
    [k]. *)
Definition Layout (lineText : jsstring) (parts : list LineToken) (flag : bool)
    (cb : Z) (o : IRenderLineOutput) : Prop :=
  let len := length lineText in
  let rs := ranges len 0 parts in
  if Z.of_nat len <=? cb then
    lastRenderedPartIndex o = Z.of_nat (length parts) - 1 /\
    exists frags,
      Spans flag lineText parts rs frags /\
      output o = str "<span>" :: frags ++ [str "</span>"]
  else
    let upto := S (Z.to_nat cb) in
    exists (k : nat) (part : LineToken) (a b : nat) (closedFrags openFrags : list jsstring),
      parts !! k = Some part /\ rs !! k = Some (a, b) /\
      (a < upto)%nat /\ (upto <= b)%nat /\
      lastRenderedPartIndex o = Z.of_nat k /\
      Spans flag lineText (take k parts) (take k rs) closedFrags /\
      Span flag lineText false part (a, upto) openFrags /\
      output o = str "<span>" :: closedFrags ++ openFrags ++ [ellipsis].

(** The break index that [renderLine] passes to the scan. *)
Definition breakIndex (input : RenderLineInput) : Z :=
  if stopRenderingLineAfter input =? -1
  then Z.of_nat (length (lineContent input))
  else stopRenderingLineAfter input - 1.

(** The number of the characters that a scan under the break index [cb] goes
    through: all of them, or those up to the break index (the first one when
    the break index is negative). *)
Definition scanned (lineText : jsstring) (cb : Z) : nat :=
  if Z.of_nat (length lineText) <=? cb then length lineText else S (Z.to_nat cb).

(** An output that is well formed for an input: the fixed output for the
    empty line; otherwise the layout of the specification, a part index that
    is the index of a part, and a table with one entry for each character
    that is scanned (and one more when the scan is not cut), whose entries
    are numbers.  The last is stated for a tab size other than [0]: [x % 0]
    is NaN in JavaScript, which the integers here do not have. *)
Definition WellFormed (input : RenderLineInput)
    (o : WithNaN.IRenderLineOutput) : Prop :=
  match lineContent input with
  | [] => o = WithNaN.mkOutput [] 0 [placeholder]
  | _ :: _ =>
      Layout (lineContent input) (parts input) (renderWhitespace input)
        (breakIndex input) (fragmentsOf o) /\
      0 <= WithNaN.lastRenderedPartIndex o < Z.of_nat (length (parts input)) /\
      length (WithNaN.charOffsetInPart o) =
        (if Z.of_nat (length (lineContent input)) <=? breakIndex input
         then S (length (lineContent input))
         else scanned (lineContent input) (breakIndex input)) /\
      (tabSize input <> 0 -> Forall isInteger (WithNaN.charOffsetInPart o))
  end.

(** The line of [a], a tab and [b] in one part, with the tab size [0]. *)
Definition c4_zero_input : RenderLineInput :=
  mkRenderLineInput [97; 9; 98] 0 (-1) false [mkLineToken 0 (str "text")].

(** The line [ab] in one part whose type is the ellipsis marker, cut after
    the first character. *)
Definition c2_marker_input : RenderLineInput :=
  mkRenderLineInput (str "ab") 4 1 false [mkLineToken 0 ellipsis].

(** The characters that the switch has a case for. *)
Definition special : list Z :=
  [_tab; _space; _lowerThan; _greaterThan; _ampersand; 0; _bom; _lineSeparator;
   _carriageReturn].

(** Membership in a list that is written out. *)
Ltac solve_elem := solve [repeat constructor].

(** * Properties *)

(** ** Arrays and the tab loop *)

Lemma array_set_push (arr : list (option Z)) (i v : Z) :
  0 <= i -> length arr = Z.to_nat i -> array_set arr i v = arr ++ [Some v].
Proof.
  intros Hi Hlen. unfold array_set.
  destruct (Z.ltb_spec i 0) as [?|_]; [lia|].
  destruct (Nat.ltb_spec (Z.to_nat i) (length arr)) as [?|_]; [lia|].
  rewrite Hlen, Nat.sub_diag. reflexivity.
Qed.

Lemma array_incr_last_snoc (arr : list (option Z)) (v : Z) :
  array_incr_last (arr ++ [Some v]) = arr ++ [Some (v + 1)].
Proof.
  unfold array_incr_last.
  destruct (arr ++ [Some v]) eqn:E.
  - destruct arr; discriminate.
  - rewrite <- E, length_app. simpl.
    replace (length arr + 1 - 1)%nat with (length arr + 0)%nat by lia.
    rewrite alter_app_r. reflexivity.
Qed.

Lemma array_incr_last_length (arr : list (option Z)) :
  length (array_incr_last arr) = length arr.
Proof.
  unfold array_incr_last. destruct arr; [reflexivity|].
  apply length_alter.
Qed.

Lemma pushSpaces_replicate (n : nat) (out : list jsstring) :
  pushSpaces n (Z.of_nat n) out = out ++ replicate n nbsp.
Proof.
  revert out. induction n as [|n IH]; intros out.
  - simpl. rewrite app_nil_r. reflexivity.
  - cbn [pushSpaces]. destruct (Z.ltb_spec 0 (Z.of_nat (S n))) as [_|?]; [|lia].
    replace (Z.of_nat (S n) - 1) with (Z.of_nat n) by lia.
    rewrite IH, <- app_assoc. reflexivity.
Qed.

(** Fuel beyond the count changes nothing: the loop is left by its test. *)
Lemma pushSpaces_fuel (fuel : nat) (n : Z) (out : list jsstring) :
  (Z.to_nat n <= fuel)%nat ->
  pushSpaces fuel n out = pushSpaces (Z.to_nat n) n out.
Proof.
  revert n out. induction fuel as [|fuel IH]; intros n out Hfuel.
  - by replace (Z.to_nat n) with 0%nat by lia.
  - cbn [pushSpaces]. destruct (Z.ltb_spec 0 n) as [Hn|Hn].
    + rewrite IH by lia.
      replace (Z.to_nat n) with (S (Z.to_nat (n - 1))) by lia.
      cbn [pushSpaces]. destruct (Z.ltb_spec 0 n); [done|lia].
    + replace (Z.to_nat n) with 0%nat by lia. done.
Qed.

Lemma pushSpaces_nonpos (fuel : nat) (n : Z) (out : list jsstring) :
  n <= 0 -> pushSpaces fuel n out = out.
Proof.
  intros Hn. destruct fuel; simpl; [reflexivity|].
  destruct (Z.ltb_spec 0 n); [lia|reflexivity].
Qed.

(** ** One character *)

Section Step.

Variable lineText : jsstring.
Variable tabSize : Z.

Lemma renderTab_out (prw : bool) (s : Locals.t) :
  let isc := tabSize - Z.rem (Locals.charIndex s + Locals.tabsCharDelta s) tabSize in
  Locals.out (renderTab tabSize prw s) =
  Locals.out s ++
    (if 0 <? isc
     then (if prw then str "&rarr;" else nbsp) :: replicate (Z.to_nat (isc - 1)) nbsp
     else []).
Proof.
  intros isc. unfold renderTab. fold isc. cbn [Locals.out].
  destruct (Z.ltb_spec 0 isc) as [Hpos|Hneg].
  - rewrite <- (Z2Nat.id (isc - 1)) at 2 by lia.
    rewrite pushSpaces_replicate, <- app_assoc. reflexivity.
  - rewrite pushSpaces_nonpos by lia. rewrite app_nil_r. reflexivity.
Qed.

Lemma renderCharCode_frame (prw : bool) (cc : option Z) (s : Locals.t) :
  Locals.charIndex (renderCharCode lineText tabSize prw cc s) = Locals.charIndex s /\
  Locals.charOffsetInPartArr (renderCharCode lineText tabSize prw cc s)
    = Locals.charOffsetInPartArr s.
Proof.
  unfold renderCharCode.
  destruct cc as [c|]; [|split; reflexivity].
  repeat match goal with
         | |- context [if ?b then _ else _] => destruct b
         end; split; reflexivity.
Qed.

Lemma renderCharCode_out (prw : bool) (cc : option Z) (s : Locals.t) :
  cc = charCodeAt lineText (Locals.charIndex s) ->
  exists frags,
    Locals.out (renderCharCode lineText tabSize prw cc s) = Locals.out s ++ frags /\
    Forall Content frags.
Proof.
  intros Hcc. unfold renderCharCode.
  assert (Hent : forall e, e ∈ entities ->
            exists frags, Locals.out (Locals.push e s) = Locals.out s ++ frags /\
                          Forall Content frags).
  { intros e He. exists [e]. split; [reflexivity|].
    constructor; [by apply content_entity | constructor]. }
  destruct cc as [c|].
  - destruct (Z.eqb_spec c _tab) as [_|Htab].
    { eexists. split; [apply renderTab_out|].
      destruct (0 <? _); [|constructor].
      constructor.
      - apply content_entity. destruct prw; solve_elem.
      - apply Forall_replicate. apply content_entity. solve_elem. }
    destruct (Z.eqb_spec c _space) as [_|Hsp].
    { apply Hent. destruct prw; solve_elem. }
    destruct (Z.eqb_spec c _lowerThan) as [_|Hlt]; [apply Hent; solve_elem|].
    destruct (Z.eqb_spec c _greaterThan) as [_|Hgt]; [apply Hent; solve_elem|].
    destruct (Z.eqb_spec c _ampersand) as [_|Hamp]; [apply Hent; solve_elem|].
    destruct (Z.eqb_spec c 0) as [_|Hnul]; [apply Hent; solve_elem|].
    destruct ((c =? _bom) || (c =? _lineSeparator)); [apply Hent; solve_elem|].
    destruct (Z.eqb_spec c _carriageReturn) as [_|Hcr]; [apply Hent; solve_elem|].
    exists [[c]]. split.
    + unfold charAt. rewrite <- Hcc. reflexivity.
    + constructor; [by apply content_char | constructor].
  - exists [[]]. split.
    + unfold charAt. rewrite <- Hcc. reflexivity.
    + constructor; [apply content_none | constructor].
Qed.

Lemma renderChar_charIndex (prw : bool) (s : Locals.t) :
  Locals.charIndex (renderChar lineText tabSize prw s) = Locals.charIndex s.
Proof.
  unfold renderChar. cbn [Locals.charIndex].
  rewrite (proj1 (renderCharCode_frame prw _ _)). reflexivity.
Qed.

Lemma renderChar_arr (prw : bool) (s : Locals.t) :
  inv s ->
  Locals.charOffsetInPartArr (renderChar lineText tabSize prw s) =
  Locals.charOffsetInPartArr s ++ [Some (Locals.charOffsetInPart s)].
Proof.
  intros (Hi & Hlen & _). unfold renderChar. cbn [Locals.charOffsetInPartArr].
  rewrite (proj2 (renderCharCode_frame prw _ _)). cbn [Locals.charOffsetInPartArr].
  by apply array_set_push.
Qed.

Lemma renderChar_out (prw : bool) (s : Locals.t) :
  exists frags,
    Locals.out (renderChar lineText tabSize prw s) = Locals.out s ++ frags /\
    Forall Content frags.
Proof.
  unfold renderChar. cbn [Locals.out].
  apply (renderCharCode_out prw _ (Locals.mk _ _ _ _ _)). reflexivity.
Qed.

End Step.

(** ** How the scan grows its buffers *)

Lemma extends_refl (P : jsstring -> Prop) (s : Locals.t) : extends P s s.
Proof.
  split; [exists []; split; [by rewrite app_nil_r | constructor] | reflexivity].
Qed.

Lemma extends_trans (P : jsstring -> Prop) (s1 s2 s3 : Locals.t) :
  extends P s1 s2 -> extends P s2 s3 -> extends P s1 s3.
Proof.
  intros [(f1 & E1 & F1) A1] [(f2 & E2 & F2) A2]. split.
  - exists (f1 ++ f2). split; [by rewrite E2, E1, app_assoc | by apply Forall_app].
  - by etrans.
Qed.

Lemma extends_mono (P Q : jsstring -> Prop) (s s' : Locals.t) :
  (forall f, P f -> Q f) -> extends P s s' -> extends Q s s'.
Proof.
  intros HPQ [(f & E & F) A]. split; [|done].
  exists f. split; [done|]. eapply Forall_impl; eauto.
Qed.

Lemma extends_push (P : jsstring -> Prop) (x : jsstring) (s : Locals.t) :
  P x -> extends P s (Locals.push x s).
Proof.
  intros Hx. split; [|reflexivity].
  exists [x]. split; [reflexivity | by constructor].
Qed.

(** The same buffers, whatever the counters. *)
Lemma extends_same (P : jsstring -> Prop) (s s' : Locals.t) :
  Locals.out s' = Locals.out s ->
  Locals.charOffsetInPartArr s' = Locals.charOffsetInPartArr s ->
  extends P s s'.
Proof.
  intros Ho Ha. split; [|by rewrite Ha].
  exists []. split; [by rewrite app_nil_r | constructor].
Qed.

(** ** The loop over the characters of a part *)

Section CharLoop.

Variable lineText : jsstring.
Variable tabSize : Z.

Local Abbreviation ci := Locals.charIndex.
Local Abbreviation arr := Locals.charOffsetInPartArr.

(** The state in which the next iteration starts. *)
Local Abbreviation next s1 :=
  (Locals.mk (ci s1 + 1) (Locals.out s1) (arr s1)
     (Locals.charOffsetInPart s1) (Locals.tabsCharDelta s1)).

Lemma renderChar_next_inv (prw : bool) (s : Locals.t) :
  inv s -> inv (next (renderChar lineText tabSize prw s)).
Proof.
  intros Hinv. pose proof Hinv as (Hi & Hlen & Hsome).
  unfold inv. cbn [Locals.charIndex Locals.charOffsetInPartArr].
  rewrite renderChar_charIndex, renderChar_arr by done.
  split; [lia|]. split.
  - rewrite length_app. simpl. lia.
  - apply Forall_app. split; [done|]. constructor; [by eexists | constructor].
Qed.

Lemma renderChar_extends (prw : bool) (s : Locals.t) :
  inv s -> extends Content s (renderChar lineText tabSize prw s).
Proof.
  intros Hinv. split; [apply renderChar_out|].
  rewrite renderChar_arr by done. by apply prefix_app_r.
Qed.

(** Fuel beyond the distance to the end of the part changes nothing: the
    loop is left by its test or by its [return]. *)
Lemma charLoop_fuel (cb : Z) (prw : bool) (to pi : Z) (fuel fuel' : nat)
    (s : Locals.t) :
  (Z.to_nat (to - ci s) <= fuel)%nat -> (Z.to_nat (to - ci s) <= fuel')%nat ->
  charLoop lineText tabSize cb fuel prw to pi s =
  charLoop lineText tabSize cb fuel' prw to pi s.
Proof.
  revert fuel' s. induction fuel as [|fuel IH]; intros fuel' s Hfuel Hfuel'.
  - destruct fuel' as [|fuel']; cbn [charLoop]; [done|].
    destruct (Z.ltb_spec (ci s) to); [lia|done].
  - cbn [charLoop]. destruct (Z.ltb_spec (ci s) to) as [Hlt|Hge].
    + destruct fuel' as [|fuel']; [lia|]. cbn [charLoop].
      destruct (Z.ltb_spec (ci s) to); [|lia].
      destruct (cb <=? _); [done|].
      apply IH; cbn [Locals.charIndex]; rewrite renderChar_charIndex; lia.
    + destruct fuel' as [|fuel']; cbn [charLoop]; [done|].
      destruct (Z.ltb_spec (ci s) to); [lia|done].
Qed.

(** The loop under the break index [cb], against the same loop under a break
    index [cbF] that the part cannot reach.  The latter falls through, with
    [charIndex] at the end of the part: the fuel never cuts the loop short. *)
Lemma charLoop_spec (cb cbF : Z) (prw : bool) (to pi : Z) (fuel : nat)
    (s : Locals.t) :
  inv s -> (Z.to_nat (to - ci s) <= fuel)%nat -> to <= cbF ->
  exists sF,
    charLoop lineText tabSize cbF fuel prw to pi s = Continue sF /\
    inv sF /\ extends Content s sF /\ ci sF = Z.max (ci s) to /\
    match charLoop lineText tabSize cb fuel prw to pi s with
    | Continue s' => s' = sF /\ (ci s < to -> to <= cb)
    | Return o =>
        exists s1,
          o = truncated pi s1 /\ ci s1 = Z.max (ci s) cb /\ ci s1 < to /\
          length (arr s1) = Z.to_nat (ci s1 + 1) /\ Forall is_Some (arr s1) /\
          extends Content s s1 /\ extends Content s1 sF
    end.
Proof.
  revert s. induction fuel as [|fuel IH]; intros s Hinv Hfuel HcbF.
  - exists s. cbn [charLoop].
    split; [done|]. split; [done|]. split; [apply extends_refl|].
    split; [lia|]. split; [done|lia].
  - cbn [charLoop]. destruct (Z.ltb_spec (ci s) to) as [Hlt|Hge].
    2:{ exists s. split; [done|]. split; [done|]. split; [apply extends_refl|].
        split; [lia|]. split; [done|lia]. }
    set (s1 := renderChar lineText tabSize prw s).
    assert (Hci1 : ci s1 = ci s) by apply renderChar_charIndex.
    pose proof (renderChar_next_inv prw s Hinv) as Hinv1. fold s1 in Hinv1.
    pose proof (renderChar_extends prw s Hinv) as Hext1. fold s1 in Hext1.
    assert (Hextn : extends Content s (next s1)).
    { eapply extends_trans; [exact Hext1|]. by apply extends_same. }
    destruct (Z.leb_spec cbF (ci s1)) as [?|_]; [lia|].
    destruct (IH (next s1) Hinv1) as (sF & HF & HinvF & HextF & HciF & Hcb);
      [cbn [Locals.charIndex]; lia | done |].
    cbn [Locals.charIndex] in HciF.
    exists sF. split; [done|]. split; [done|].
    split; [by eapply extends_trans|]. split; [lia|].
    destruct (Z.leb_spec cb (ci s1)) as [Hbreak|Hgo].
    + exists s1. split; [done|]. split; [lia|]. split; [lia|].
      destruct Hinv1 as (_ & Hlen1 & Hsome1).
      cbn [Locals.charIndex Locals.charOffsetInPartArr] in Hlen1, Hsome1.
      split; [done|]. split; [done|]. split; [done|].
      eapply extends_trans; [|exact HextF]. by apply extends_same.
    + destruct (charLoop lineText tabSize cb fuel prw to pi (next s1)) as [s'|o].
      * destruct Hcb as [-> Hto]. split; [done|].
        cbn [Locals.charIndex] in Hto. lia.
      * destruct Hcb as (s1' & -> & Hc & Hlt' & Hlen' & Hsome' & He & HeF).
        cbn [Locals.charIndex] in Hc.
        exists s1'. split; [done|]. split; [lia|]. split; [done|].
        split; [done|]. split; [done|]. split; [|done].
        by eapply extends_trans.
Qed.

End CharLoop.

(** ** The loop over the parts *)

Section PartLoop.

Variable lineText : jsstring.
Variable lineTextLength : Z.
Variable tabSize : Z.
Variable renderWhitespace : bool.
Variable types : list jsstring.

Hypothesis lineTextLength_nonneg : 0 <= lineTextLength.

Local Abbreviation ci := Locals.charIndex.
Local Abbreviation arr := Locals.charOffsetInPartArr.
Local Abbreviation loop cb := (partLoop lineText lineTextLength tabSize renderWhitespace cb).

(** The state in which the characters of a part are scanned. *)
Local Abbreviation entered part s :=
  (Locals.mk (ci s) (Locals.out s ++ [tokenOpen] ++ [type part] ++ [tokenClose])
     (arr s) 0 (Locals.tabsCharDelta s)).

Lemma entered_extends (part : LineToken) (s : Locals.t) :
  type part ∈ types -> extends (Emitted types) s (entered part s).
Proof.
  intros Hty. split; [|reflexivity].
  eexists. split; [reflexivity|].
  constructor; [left; solve_elem|].
  constructor; [by right; left|].
  constructor; [left; solve_elem|]. constructor.
Qed.

(** The loop under the break index [cb], against the same loop under a break
    index [cbF] beyond the line, which falls through with every character
    scanned.  Under [cb] the loop either does the same, or returns from the
    part [j] of the remaining ones, in a state [s1] that the other run goes
    through. *)
Lemma partLoop_spec (cbF : Z) (rem : list LineToken) :
  lineTextLength <= cbF ->
  Forall (fun p => type p ∈ types) rem ->
  forall (cb pi : Z) (s : Locals.t),
  inv s -> ci s <= Z.max 0 cb -> ci s <= lineTextLength ->
  exists sF,
    loop cbF pi rem s = Continue sF /\
    inv sF /\ extends (Emitted types) s sF /\ ci sF <= lineTextLength /\
    (rem <> [] -> ci sF = lineTextLength) /\
    match loop cb pi rem s with
    | Continue s' => s' = sF /\ ci s' <= Z.max 0 cb
    | Return o =>
        exists s1 j part,
          o = truncated (pi + Z.of_nat j) s1 /\ rem !! j = Some part /\
          ci s1 = Z.max 0 cb /\ ci s1 < lineTextLength /\
          length (arr s1) = Z.to_nat (ci s1 + 1) /\ Forall is_Some (arr s1) /\
          extends (Emitted types) s s1 /\ extends (Emitted types) s1 sF /\
          (forall nextPart, rem !! S j = Some nextPart ->
             ci s1 < startIndex nextPart) /\
          ((forall p, head rem = Some p ->
              Z.min lineTextLength (startIndex p) <= ci s) ->
           startIndex part <= ci s1)
    end.
Proof.
  intros HcbF Htypes. induction Htypes as [|part rest Hty Hrest IH];
    intros cb pi s Hinv Hcb Hlen.
  - exists s. cbn [partLoop].
    split; [done|]. split; [done|]. split; [apply extends_refl|].
    split; [done|]. split; [done|]. done.
  - cbn [partLoop]. unfold renderPart. cbn [Locals.push Locals.charIndex
      Locals.out Locals.charOffsetInPartArr Locals.tabsCharDelta].
    rewrite <- !app_assoc.
    set (prw := if renderWhitespace then isWhitespace (type part) else false).
    set (to := match rest with
               | nextPart :: _ => Z.min lineTextLength (startIndex nextPart)
               | [] => lineTextLength
               end).
    fold tokenOpen tokenClose.
    set (s2 := entered part s).
    assert (Hto : to <= lineTextLength) by (subst to; destruct rest; lia).
    assert (Hinv2 : inv s2) by exact Hinv.
    pose proof Hinv as (Hci0 & _).
    pose proof (entered_extends part s Hty) as Hext2. fold s2 in Hext2.
    assert (Hclose : forall s3, extends (Emitted types) s3 (Locals.push (str "</span>") s3)).
    { intros s3. apply extends_push. left. solve_elem. }
    assert (Hcont : forall f, Content f -> Emitted types f) by (intros f ?; by right; right).
    (* the run that is never cut *)
    assert (HF : forall pi' s', inv s' -> ci s' <= lineTextLength ->
      exists sF, loop cbF pi' rest s' = Continue sF /\ inv sF /\
                 extends (Emitted types) s' sF /\ ci sF <= lineTextLength /\
                 (rest <> [] -> ci sF = lineTextLength)).
    { intros pi' s' Hinv' Hlen'.
      destruct (IH cbF pi' s' Hinv' ltac:(lia) Hlen')
        as (sF & H1 & H2 & H3 & H4 & H5 & _).
      exists sF. done. }
    destruct (charLoop_spec lineText tabSize cb cbF prw to pi
                (Z.to_nat (to - ci s)) s2 Hinv2 ltac:(cbn; lia) ltac:(lia))
      as (sF1 & HF1 & HinvF1 & HextF1 & HciF1 & Hrun).
    rewrite HF1.
    set (s3 := Locals.push (str "</span>") sF1).
    assert (Hinv3 : inv s3) by exact HinvF1.
    assert (Hci3 : ci s3 = Z.max (ci s) to) by exact HciF1.
    assert (Hext3 : extends (Emitted types) s s3).
    { eapply extends_trans; [exact Hext2|].
      eapply extends_trans; [eapply extends_mono; [exact Hcont|exact HextF1]|].
      apply Hclose. }
    destruct (charLoop lineText tabSize cb (Z.to_nat (to - ci s)) prw to pi s2)
      as [s'|o] eqn:Hrun_cb.
    + (* this part is not cut *)
      destruct Hrun as [-> Hnocut]. fold s3.
      assert (Hcb3 : ci s3 <= Z.max 0 cb) by (change (ci s2) with (ci s) in Hnocut; lia).
      destruct (IH cb (pi + 1) s3 Hinv3 Hcb3 ltac:(lia))
        as (sF & HsF & HinvF & HextF & HciF & Hall & Hrest_cb).
      exists sF. split; [done|]. split; [done|].
      split; [by eapply extends_trans|]. split; [done|].
      split.
      { intros _. destruct rest as [|nextPart rest'].
        - cbn [partLoop] in HsF. injection HsF as <-. subst to. lia.
        - apply Hall. done. }
      destruct (loop cb (pi + 1) rest s3) as [s'|o].
      * done.
      * destruct Hrest_cb as (s1 & j & part' & -> & Hj & Hc1 & Hlt1 & Hlen1 &
                              Hsome1 & He1 & HeF & Hnext & Hlow).
        exists s1, (S j), part'.
        split; [f_equal; lia|]. split; [done|]. split; [done|]. split; [done|].
        split; [done|]. split; [done|]. split; [by eapply extends_trans|].
        split; [done|]. split; [done|].
        intros _. apply Hlow. intros p Hp.
        destruct rest as [|nextPart rest']; [done|].
        injection Hp as <-. subst to. lia.
    + (* the cut is in this part *)
      destruct Hrun as (s1 & -> & Hc1 & Hlt1 & Hlen1 & Hsome1 & He1 & HeF1).
      change (ci s2) with (ci s) in Hc1.
      destruct (HF (pi + 1) s3 Hinv3 ltac:(lia))
        as (sF & HsF & HinvF & HextF & HciF & Hall).
      exists sF. split; [done|]. split; [done|].
      split; [by eapply extends_trans|]. split; [done|].
      split.
      { intros _. destruct rest as [|nextPart rest'].
        - cbn [partLoop] in HsF. injection HsF as <-. subst to. lia.
        - apply Hall. done. }
      exists s1, 0%nat, part.
      split; [f_equal; lia|]. split; [done|]. split; [lia|]. split; [lia|].
      split; [done|]. split; [done|].
      split.
      { eapply extends_trans; [exact Hext2|]. by eapply extends_mono. }
      split.
      { eapply extends_trans; [eapply extends_mono; [exact Hcont|exact HeF1]|].
        eapply extends_trans; [apply Hclose|]. exact HextF. }
      split.
      { intros nextPart Hn. destruct rest as [|np rest']; [done|].
        injection Hn as <-. subst to. lia. }
      intros Hlow. specialize (Hlow part eq_refl). lia.
Qed.

End PartLoop.

(** ** The whole scan *)

Lemma inv_initial : inv initial.
Proof. split; [done|]. split; [done|]. constructor. Qed.

Lemma Emitted_not_ellipsis (types : list jsstring) (f : jsstring) :
  Forall (fun t => t <> ellipsis) types -> Emitted types f -> f <> ellipsis.
Proof.
  intros Hty [Hs|[Ht|Hc]].
  - intros ->. repeat (apply elem_of_cons in Hs as [Hs|Hs]; [discriminate Hs|]).
    by apply elem_of_nil in Hs.
  - rewrite Forall_forall in Hty. by apply Hty.
  - intros ->. inversion Hc as [e He| |].
    repeat (apply elem_of_cons in He as [He|He]; [discriminate He|]).
    by apply elem_of_nil in He.
Qed.

Section Scan.

Variable lineText : jsstring.
Variable lineTextLength : Z.
Variable tabSize : Z.
Variable renderWhitespace : bool.
Variable actualLineParts : list LineToken.

Hypothesis lineTextLength_pos : 0 < lineTextLength.
Hypothesis parts_nonempty : actualLineParts <> [].

Local Abbreviation ci := Locals.charIndex.
Local Abbreviation arr := Locals.charOffsetInPartArr.
Local Abbreviation types := (type <$> actualLineParts).
Local Abbreviation scan cb :=
  (partLoop lineText lineTextLength tabSize renderWhitespace cb 0 actualLineParts
     initial).
Local Abbreviation render cb :=
  (renderLineActual lineText lineTextLength tabSize actualLineParts
     renderWhitespace cb).

(** With a break index at or beyond the end of the line, every character is
    scanned and the scan falls through. *)
Lemma scan_complete (cb : Z) :
  lineTextLength <= cb ->
  exists s,
    scan cb = Continue s /\ render cb = completed actualLineParts s /\
    ci s = lineTextLength /\ length (arr s) = Z.to_nat lineTextLength /\
    Forall is_Some (arr s) /\ extends (Emitted types) initial s.
Proof.
  intros Hcb.
  destruct (partLoop_spec lineText lineTextLength tabSize renderWhitespace types
              ltac:(lia) cb actualLineParts Hcb
              ltac:(apply Forall_forall; intros p Hp; by apply list_elem_of_fmap_2)
              cb 0 initial inv_initial ltac:(cbn; lia) ltac:(cbn; lia))
    as (s & Hs & (_ & Hlen & Hsome) & Hext & _ & Hci & _).
  exists s. unfold renderLineActual. rewrite Hs.
  specialize (Hci parts_nonempty). rewrite Hci in Hlen. done.
Qed.

(** With a break index inside the line, the scan returns after the character
    at [Z.max 0 cb], from a state that the complete scan goes through. *)
Lemma scan_truncated (cb cbF : Z) :
  cb < lineTextLength -> lineTextLength <= cbF ->
  exists sF s1 j part,
    scan cbF = Continue sF /\
    render cb = truncated (Z.of_nat j) s1 /\
    actualLineParts !! j = Some part /\
    ci s1 = Z.max 0 cb /\
    length (arr s1) = Z.to_nat (ci s1 + 1) /\ Forall is_Some (arr s1) /\
    extends (Emitted types) initial s1 /\ extends (Emitted types) s1 sF /\
    (forall nextPart, actualLineParts !! S j = Some nextPart ->
       ci s1 < startIndex nextPart) /\
    ((forall p, head actualLineParts = Some p -> startIndex p <= 0) ->
     startIndex part <= ci s1).
Proof.
  intros Hcb HcbF.
  destruct (partLoop_spec lineText lineTextLength tabSize renderWhitespace types
              ltac:(lia) cbF actualLineParts HcbF
              ltac:(apply Forall_forall; intros p Hp; by apply list_elem_of_fmap_2)
              cb 0 initial inv_initial ltac:(cbn; lia) ltac:(cbn; lia))
    as (sF & HsF & _ & _ & _ & Hci & Hrun).
  specialize (Hci parts_nonempty).
  unfold renderLineActual.
  destruct (scan cb) as [s'|o].
  - destruct Hrun as [-> Hle]. lia.
  - destruct Hrun as (s1 & j & part & -> & Hj & Hc1 & _ & Hlen1 & Hsome1 & He1 &
                      HeF & Hnext & Hlow).
    exists sF, s1, j, part. rewrite Z.add_0_l.
    repeat (split; [done|]).
    intros H0. apply Hlow. intros p Hp. specialize (H0 p Hp). cbn. lia.
Qed.

End Scan.

(** ** What is behind the cut *)

(** Two lines that agree up to the index [m] of the last character that is
    scanned under the break index [cb], both longer than [m]: the scans go in
    step. *)
Section Cut.

Variable lineText lineText' : jsstring.
Variable lineTextLength lineTextLength' : Z.
Variable tabSize : Z.
Variable renderWhitespace : bool.
Variable cb : Z.

Local Abbreviation ci := Locals.charIndex.
Local Abbreviation m := (Z.max 0 cb).

Hypothesis same_chars :
  forall i, 0 <= i <= m -> charCodeAt lineText i = charCodeAt lineText' i.
Hypothesis cut_inside : m < lineTextLength.
Hypothesis cut_inside' : m < lineTextLength'.

Lemma renderChar_same_char (prw : bool) (s : Locals.t) :
  0 <= ci s <= m ->
  renderChar lineText tabSize prw s = renderChar lineText' tabSize prw s.
Proof.
  intros Hi. unfold renderChar, renderCharCode, charAt.
  cbn [Locals.charIndex]. by rewrite (same_chars _ Hi).
Qed.

Lemma charLoop_cut (prw : bool) (to to' pi : Z) (fuel fuel' : nat)
    (s : Locals.t) :
  0 <= ci s <= m ->
  Z.min to (m + 1) = Z.min to' (m + 1) ->
  (Z.to_nat (to - ci s) <= fuel)%nat -> (Z.to_nat (to' - ci s) <= fuel')%nat ->
  charLoop lineText tabSize cb fuel prw to pi s =
  charLoop lineText' tabSize cb fuel' prw to' pi s.
Proof.
  revert fuel' s. induction fuel as [|fuel IH]; intros fuel' s Hi Hto Hf Hf'.
  - destruct fuel' as [|fuel']; cbn [charLoop]; [done|].
    destruct (Z.ltb_spec (ci s) to'); [lia|done].
  - cbn [charLoop]. destruct (Z.ltb_spec (ci s) to) as [Hlt|Hge].
    + destruct fuel' as [|fuel']; [lia|]. cbn [charLoop].
      destruct (Z.ltb_spec (ci s) to'); [|lia].
      rewrite <- renderChar_same_char by done.
      rewrite renderChar_charIndex.
      destruct (Z.leb_spec cb (ci s)); [done|].
      apply IH; cbn [Locals.charIndex]; rewrite ?renderChar_charIndex; lia.
    + destruct fuel' as [|fuel']; cbn [charLoop]; [done|].
      destruct (Z.ltb_spec (ci s) to'); [lia|done].
Qed.

Lemma partLoop_cut (rem : list LineToken) (pi : Z) (s : Locals.t) :
  inv s -> ci s <= m ->
  partLoop lineText lineTextLength tabSize renderWhitespace cb pi rem s =
  partLoop lineText' lineTextLength' tabSize renderWhitespace cb pi rem s.
Proof.
  revert pi s. induction rem as [|part rest IH]; intros pi s Hinv Hm; [done|].
  cbn [partLoop]. unfold renderPart.
  fold (rangeEnd lineTextLength rest) (rangeEnd lineTextLength' rest).
  set (to := rangeEnd lineTextLength rest).
  set (to' := rangeEnd lineTextLength' rest).
  cbn [Locals.push Locals.charIndex Locals.out Locals.charOffsetInPartArr
       Locals.tabsCharDelta].
  set (prw := if renderWhitespace then isWhitespace (type part) else false).
  set (s2 := Locals.mk _ _ _ _ _).
  pose proof Hinv as (Hi0 & _).
  assert (Hto : Z.min to (m + 1) = Z.min to' (m + 1)).
  { subst to to'. unfold rangeEnd. destruct rest; lia. }
  rewrite <- (charLoop_cut prw to to' pi (Z.to_nat (to - ci s))
                (Z.to_nat (to' - ci s)) s2) by (cbn; lia || done).
  destruct (charLoop_spec lineText tabSize cb to prw to pi
              (Z.to_nat (to - ci s)) s2 Hinv ltac:(cbn; lia) ltac:(lia))
    as (sF & _ & HinvF & _ & HciF & Hrun).
  destruct (charLoop lineText tabSize cb (Z.to_nat (to - ci s)) prw to pi s2)
    as [s3|o]; [|done].
  destruct Hrun as [-> Hnocut]. change (ci s2) with (ci s) in *.
  apply IH; [exact HinvF|].
  cbn [Locals.push Locals.charIndex]. lia.
Qed.

End Cut.

(** ** [renderLine] *)

Lemma tokenContains_unique (lineLength : Z) (parts : list LineToken)
    (k k' : nat) (x : Z) :
  strictlyIncreasing parts ->
  tokenContains lineLength parts k x -> tokenContains lineLength parts k' x ->
  k = k'.
Proof.
  intros Hinc (p & Hp & Hlo & Hhi) (p' & Hp' & Hlo' & Hhi').
  assert (Hone : forall a b pa pb,
    (a < b)%nat -> parts !! a = Some pa -> parts !! b = Some pb ->
    startIndex pb <= x ->
    x < match parts !! S a with
        | Some nextPart => startIndex nextPart
        | None => lineLength
        end -> False).
  { intros a b pa pb Hab Ha Hb Hbx Hax.
    destruct (parts !! S a) as [n|] eqn:Hn.
    - destruct (decide (S a = b)) as [<-|Hne].
      + rewrite Hn in Hb. injection Hb as ->. lia.
      + pose proof (Hinc (S a) b n pb ltac:(lia) Hn Hb). lia.
    - apply lookup_ge_None in Hn. apply lookup_lt_Some in Hb. lia. }
  destruct (Nat.lt_trichotomy k k') as [Hlt|[Heq|Hgt]]; [|done|].
  - exfalso. by eapply (Hone k k').
  - exfalso. by eapply (Hone k' k).
Qed.

Lemma occurrences_app (f : jsstring) (l1 l2 : list jsstring) :
  occurrences f (l1 ++ l2) = (occurrences f l1 + occurrences f l2)%nat.
Proof. induction l1 as [|x l1 IH]; simpl; [done|]. rewrite IH. lia. Qed.

Lemma occurrences_none (f : jsstring) (l : list jsstring) :
  Forall (fun x => x <> f) l -> occurrences f l = 0%nat.
Proof.
  induction 1 as [|x l Hx _ IH]; simpl; [done|].
  rewrite IH. by destruct (decide (x = f)).
Qed.

Lemma renderLine_nonempty (input : RenderLineInput) :
  lineContent input <> [] -> parts input <> [] ->
  renderLine input =
  Ok (renderLineActual (lineContent input)
        (Z.of_nat (length (lineContent input))) (tabSize input) (parts input)
        (renderWhitespace input)
        (if stopRenderingLineAfter input =? -1
         then Z.of_nat (length (lineContent input))
         else stopRenderingLineAfter input - 1)).
Proof.
  intros Hline Hparts. unfold renderLine.
  destruct (Z.eqb_spec (Z.of_nat (length (lineContent input))) 0) as [H0|_].
  { destruct (lineContent input); [done|]. simpl in H0. lia. }
  destruct (Nat.eqb_spec (length (parts input)) 0) as [H0|_]; [|done].
  destruct (parts input); [done|]. simpl in H0. lia.
Qed.

Lemma length_pos_nonempty {A : Type} (l : list A) :
  l <> [] -> 0 < Z.of_nat (length l).
Proof. destruct l; [done|]. simpl. lia. Qed.

(** C3.  The offset table of a returned output.  An empty line is not scanned
    and has an empty table.  When the break index is not reached, the scan
    falls through in a state [s] whose recorded offsets are one defined slot
    per character of the line, and the table is these followed by one more
    entry, the final per-part offset [Locals.charOffsetInPart s].  When the
    break index [cb] is inside the line, the characters at indices [0] to
    [Z.max 0 cb] are scanned and the table has one entry for each and no
    more: they are the entries that the scan without a limit records for these
    characters, the last of them incremented by one. *)
Theorem offset_table_entries (input : RenderLineInput) (o : IRenderLineOutput) :
  renderLine input = Ok o ->
  let len := Z.of_nat (length (lineContent input)) in
  let cb := if stopRenderingLineAfter input =? -1 then len
            else stopRenderingLineAfter input - 1 in
  (lineContent input = [] -> charOffsetInPart o = []) /\
  (lineContent input <> [] -> len <= cb ->
   exists s,
     partLoop (lineContent input) len (tabSize input) (renderWhitespace input)
       cb 0 (parts input) initial = Continue s /\
     length (Locals.charOffsetInPartArr s) = length (lineContent input) /\
     Forall is_Some (Locals.charOffsetInPartArr s) /\
     charOffsetInPart o =
       Locals.charOffsetInPartArr s ++ [Some (Locals.charOffsetInPart s)]) /\
  (lineContent input <> [] -> cb < len ->
   exists full v,
     renderLine (untruncated input) = Ok full /\
     let n := Z.to_nat (Z.max 0 cb) in
     length (charOffsetInPart o) = S n /\
     take n (charOffsetInPart o) = take n (charOffsetInPart full) /\
     charOffsetInPart full !! n = Some (Some v) /\
     charOffsetInPart o !! n = Some (Some (v + 1))).
Proof.
  intros Hok len cb.
  split.
  { intros Hnil. unfold renderLine in Hok. rewrite Hnil in Hok.
    simpl in Hok. by injection Hok as <-. }
  assert (Hparts : lineContent input <> [] -> parts input <> []).
  { intros Hline Hnil. unfold renderLine in Hok.
    destruct (Z.eqb_spec (Z.of_nat (length (lineContent input))) 0) as [H0|_].
    - apply length_pos_nonempty in Hline. lia.
    - rewrite Hnil in Hok. discriminate Hok. }
  split.
  - intros Hline Hcb. specialize (Hparts Hline).
    rewrite renderLine_nonempty in Hok by done. injection Hok as <-.
    destruct (scan_complete (lineContent input) len (tabSize input)
                (renderWhitespace input) (parts input)
                (length_pos_nonempty _ Hline) Hparts cb Hcb)
      as (s & Hs & Hr & _ & Hlen & Hsome & _).
    exists s. fold len cb. rewrite Hr. split; [done|].
    split; [unfold len in Hlen; lia|]. done.
  - intros Hline Hcb. specialize (Hparts Hline).
    rewrite renderLine_nonempty in Hok by done. injection Hok as <-.
    destruct (scan_truncated (lineContent input) len (tabSize input)
                (renderWhitespace input) (parts input)
                (length_pos_nonempty _ Hline) Hparts cb len Hcb ltac:(lia))
      as (sF & s1 & j & part & HsF & Hr & _ & Hc1 & Hlen1 & Hsome1 & _ &
          [_ HeF] & _).
    exists (completed (parts input) sF).
    fold len cb. rewrite Hr. cbn [truncated charOffsetInPart].
    rewrite Hc1 in Hlen1.
    destruct (Locals.charOffsetInPartArr s1) as [|x l _] using rev_ind.
    { simpl in Hlen1. lia. }
    apply Forall_app in Hsome1 as [_ Hx]. apply Forall_singleton in Hx as [v ->].
    rewrite length_app in Hlen1. simpl in Hlen1.
    assert (Hl : length l = Z.to_nat (Z.max 0 cb)) by lia.
    exists v. split.
    { rewrite (renderLine_nonempty (untruncated input)) by done.
      cbn [untruncated lineContent tabSize renderWhitespace parts
           stopRenderingLineAfter]. simpl (-1 =? -1). cbv iota.
      fold len. unfold renderLineActual. by rewrite HsF. }
    cbv zeta. rewrite array_incr_last_snoc. cbn [completed charOffsetInPart].
    destruct HeF as [k Hk]. rewrite Hk, <- !app_assoc.
    split; [rewrite length_app; simpl; lia|].
    split; [by rewrite !take_app_length'|].
    split.
    + rewrite lookup_app_r by lia. rewrite Hl, Nat.sub_diag. done.
    + rewrite lookup_app_r by lia. rewrite Hl, Nat.sub_diag. done.
Qed.

(** ** The example of the specification *)

(** C1, as stated, fails: the table of the example is not [0; 1; 1; 4]. *)
Lemma example_table_is_not_0_1_1_4 :
  renderLine c1_input =
    Ok (mkOutput [Some 0; Some 1; Some 4; Some 5] 0
          [str "<span>"; tokenOpen; str "text"; tokenClose;
           str "a"; nbsp; nbsp; nbsp; str "b"; str "</span>"; str "</span>"]) /\
  [Some 0; Some 1; Some 4; Some 5] <> [Some 0; Some 1; Some 1; Some 4].
Proof. split; [vm_compute; reflexivity | discriminate]. Qed.

(** C1, amended.  The line [a<tab>b] with tab size 4, the one part
    [{startIndex: 0, type: "text"}], no limit and the whitespace flag off: [a]
    is rendered as it is, the tab as three non-breaking spaces, [b] as it is,
    and the table is [0; 1; 4; 5]: the tab is recorded at offset 1 and takes
    the counter to 4, where [b] is recorded, and 5 is the entry pushed after
    the scan. *)
Theorem example_rendering :
  renderLine c1_input =
    Ok (mkOutput [Some 0; Some 1; Some 4; Some 5] 0
          [str "<span>"; tokenOpen; str "text"; tokenClose;
           str "a"; nbsp; nbsp; nbsp; str "b"; str "</span>"; str "</span>"]).
Proof. vm_compute. reflexivity. Qed.

(** ** The empty line *)

(** C6.  An empty line gives the one placeholder fragment, part index [0] and
    an empty table, whatever the other fields of the input are. *)
Theorem empty_line (tabSize stopRenderingLineAfter : Z) (renderWhitespace : bool)
    (parts : list LineToken) :
  renderLine
    (mkRenderLineInput [] tabSize stopRenderingLineAfter renderWhitespace parts)
  = Ok (mkOutput [] 0 [placeholder]).
Proof. reflexivity. Qed.

(** ** Errors *)

Lemma array_incr_last_is_Some (arr : list (option Z)) :
  Forall is_Some arr -> Forall is_Some (array_incr_last arr).
Proof.
  intros H. unfold array_incr_last. destruct arr as [|x arr']; [done|].
  apply Forall_alter; [done|].
  intros y _ [v ->]. by eexists.
Qed.

(** Every output of [renderLineActual] has a table without holes, a part
    index that is not negative and some fragments. *)
Lemma renderLineActual_wellformed (lineText : jsstring) (tabSize : Z)
    (renderWhitespace : bool) (cb : Z) (actualLineParts : list LineToken) :
  lineText <> [] -> actualLineParts <> [] ->
  let o := renderLineActual lineText (Z.of_nat (length lineText)) tabSize
             actualLineParts renderWhitespace cb in
  Forall is_Some (charOffsetInPart o) /\ 0 <= lastRenderedPartIndex o /\
  output o <> [].
Proof.
  intros Hline Hparts o. subst o.
  pose proof (length_pos_nonempty _ Hline) as Hlen.
  destruct (Z.le_gt_cases (Z.of_nat (length lineText)) cb) as [Hcb|Hcb].
  - destruct (scan_complete lineText _ tabSize renderWhitespace actualLineParts
                Hlen Hparts cb Hcb) as (s & _ & -> & _ & _ & Hsome & _).
    cbn [completed charOffsetInPart lastRenderedPartIndex output].
    split; [apply Forall_app; split; [done|]; constructor; [by eexists|constructor]|].
    split; [apply length_pos_nonempty in Hparts; lia|].
    by destruct (Locals.out s).
  - destruct (scan_truncated lineText _ tabSize renderWhitespace actualLineParts
                Hlen Hparts cb _ Hcb (Z.le_refl _))
      as (_ & s1 & j & _ & _ & -> & _ & _ & _ & Hsome & _).
    cbn [truncated charOffsetInPart lastRenderedPartIndex output].
    split; [by apply array_incr_last_is_Some|]. split; [lia|].
    by destruct (Locals.out s1).
Qed.

(** ** Tabs *)

Section Tabs.

Variable lineText : jsstring.
Variable tabSize : Z.

Local Abbreviation ci := Locals.charIndex.
Local Abbreviation tcd := Locals.tabsCharDelta.
Local Abbreviation coip := Locals.charOffsetInPart.
Local Abbreviation next s1 :=
  (Locals.mk (ci s1 + 1) (Locals.out s1) (Locals.charOffsetInPartArr s1)
     (coip s1) (tcd s1)).

Lemma renderCharCode_counters (prw : bool) (cc : option Z) (s : Locals.t) :
  let isc := tabSize - Z.rem (ci s + tcd s) tabSize in
  let s' := renderCharCode lineText tabSize prw cc s in
  (cc = Some _tab -> tcd s' = tcd s + (isc - 1) /\ coip s' = coip s + (isc - 1)) /\
  (cc <> Some _tab -> tcd s' = tcd s /\ coip s' = coip s).
Proof.
  intros isc s'. subst s'. unfold renderCharCode. split.
  - intros ->. rewrite Z.eqb_refl. done.
  - intros Hne. destruct cc as [c|]; [|done].
    destruct (Z.eqb_spec c _tab) as [->|_]; [done|].
    repeat match goal with
           | |- context [if ?b then _ else _] => destruct b
           end; done.
Qed.

Lemma insertSpacesCount_bounds (col : Z) :
  0 < tabSize -> 0 <= col ->
  Z.rem col tabSize = col mod tabSize /\
  1 <= tabSize - Z.rem col tabSize <= tabSize.
Proof.
  intros Hts Hcol. rewrite Z.rem_mod_nonneg by lia.
  pose proof (Z.mod_pos_bound col tabSize Hts). lia.
Qed.

(** The fragments of a tab. *)
Lemma renderCharCode_tab_out (prw : bool) (s : Locals.t) :
  0 < tabSize -> 0 <= ci s + tcd s ->
  let isc := tabSize - (ci s + tcd s) mod tabSize in
  let glyphs :=
    (if prw then str "&rarr;" else nbsp) :: replicate (Z.to_nat (isc - 1)) nbsp in
  Locals.out (renderCharCode lineText tabSize prw (Some _tab) s)
    = Locals.out s ++ glyphs /\
  Z.of_nat (length glyphs) = isc.
Proof.
  intros Hts Hcol isc glyphs.
  destruct (insertSpacesCount_bounds (ci s + tcd s) Hts Hcol) as [Hrem Hb].
  rewrite Hrem in Hb. fold isc in Hb.
  pose proof (renderTab_out tabSize prw s) as Hout. cbv zeta in Hout.
  rewrite Hrem in Hout. fold isc in Hout.
  destruct (Z.ltb_spec 0 isc) as [_|?]; [|lia].
  split; [exact Hout|].
  subst glyphs. cbn [length]. rewrite length_replicate. lia.
Qed.

(** C5.  At a tab, with the column [charIndex + tabsCharDelta] not negative
    and a positive tab size, the [case _tab] of the switch moves
    [tabsCharDelta] and the per-part offset by [insertSpacesCount - 1] each
    and pushes [insertSpacesCount] fragments: [&rarr;] when the part renders
    whitespace and [&nbsp;] otherwise, then [insertSpacesCount - 1] times
    [&nbsp;].  The whole iteration for a tab records the offset, does the
    above, and adds one to the offset. *)
Theorem tab_expansion (prw : bool) (s : Locals.t) :
  0 < tabSize -> 0 <= ci s + tcd s ->
  let insertSpacesCount := tabSize - (ci s + tcd s) mod tabSize in
  let glyphs :=
    (if prw then str "&rarr;" else nbsp)
      :: replicate (Z.to_nat (insertSpacesCount - 1)) nbsp in
  let s' := renderCharCode lineText tabSize prw (Some _tab) s in
  tcd s' = tcd s + (insertSpacesCount - 1) /\
  coip s' = coip s + (insertSpacesCount - 1) /\
  Locals.out s' = Locals.out s ++ glyphs /\
  Z.of_nat (length glyphs) = insertSpacesCount /\
  (charCodeAt lineText (ci s) = Some _tab ->
   let s'' := renderChar lineText tabSize prw s in
   tcd s'' = tcd s + (insertSpacesCount - 1) /\
   coip s'' = coip s + (insertSpacesCount - 1) + 1 /\
   Locals.out s'' = Locals.out s ++ glyphs).
Proof.
  intros Hts Hcol isc glyphs s'.
  destruct (insertSpacesCount_bounds (ci s + tcd s) Hts Hcol) as [Hrem Hb].
  rewrite Hrem in Hb. fold isc in Hb.
  destruct (renderCharCode_tab_out prw s Hts Hcol) as [Hout Hlen].
  pose proof (renderCharCode_counters prw (Some _tab) s) as [Hc _].
  cbv zeta in Hc. rewrite Hrem in Hc. fold isc in Hc.
  specialize (Hc eq_refl). fold s' in Hc. destruct Hc as [Htcd Hcoip].
  split; [done|]. split; [done|]. split; [exact Hout|]. split; [exact Hlen|].
  intros Htab s''. subst s''. unfold renderChar.
  cbn [Locals.charIndex Locals.charOffsetInPart Locals.tabsCharDelta Locals.out].
  rewrite Htab.
  set (s0 := Locals.mk _ _ _ _ _).
  pose proof (renderCharCode_counters prw (Some _tab) s0) as [Hc0 _].
  pose proof (renderTab_out tabSize prw s0) as Hout0.
  cbv zeta in Hc0, Hout0. subst s0.
  cbn [Locals.charIndex Locals.charOffsetInPart Locals.tabsCharDelta Locals.out]
    in Hc0, Hout0.
  rewrite Hrem in Hc0, Hout0. fold isc in Hc0, Hout0.
  destruct (Z.ltb_spec 0 isc) as [_|?]; [|lia].
  destruct (Hc0 eq_refl) as [-> ->]. done.
Qed.

End Tabs.

(** ** The counters along the scan *)

Section Counters.

Variable lineText : jsstring.
Variable lineTextLength : Z.
Variable tabSize : Z.
Variable renderWhitespace : bool.

Hypothesis tabSize_pos : 0 < tabSize.

Local Abbreviation ci := Locals.charIndex.
Local Abbreviation tcd := Locals.tabsCharDelta.
Local Abbreviation coip := Locals.charOffsetInPart.

Lemma renderChar_counters (prw : bool) (s : Locals.t) :
  tabs_inv s ->
  let s' := renderChar lineText tabSize prw s in
  ci s' = ci s /\ tcd s <= tcd s' /\ coip s < coip s'.
Proof.
  intros [Hci Htcd] s'. subst s'.
  split; [apply renderChar_charIndex|].
  unfold renderChar. cbn [Locals.tabsCharDelta Locals.charOffsetInPart].
  set (s0 := Locals.mk _ _ _ _ _).
  pose proof (renderCharCode_counters lineText tabSize prw
                (charCodeAt lineText (ci s)) s0) as [Htab Hother].
  cbv zeta in Htab, Hother.
  destruct (insertSpacesCount_bounds tabSize (ci s0 + tcd s0) tabSize_pos
              ltac:(subst s0; cbn; lia)) as [_ Hb].
  destruct (decide (charCodeAt lineText (ci s) = Some _tab)) as [E|E].
  - destruct (Htab E) as [-> ->]. subst s0. cbn in *. lia.
  - destruct (Hother E) as [-> ->]. subst s0. cbn. lia.
Qed.

Lemma charLoop_counters (cb : Z) (prw : bool) (to pi : Z) (fuel : nat)
    (s s' : Locals.t) :
  tabs_inv s ->
  charLoop lineText tabSize cb fuel prw to pi s = Continue s' ->
  tabs_inv s' /\ tcd s <= tcd s' /\ coip s <= coip s'.
Proof.
  revert s. induction fuel as [|fuel IH]; intros s Hinv; cbn [charLoop].
  - intros [= <-]. split; [done|lia].
  - destruct (ci s <? to); [|intros [= <-]; split; [done|lia]].
    destruct (renderChar_counters prw s Hinv) as (Hci & Htcd & Hcoip).
    destruct (cb <=? _); [discriminate|].
    intros Hrun. apply IH in Hrun.
    + cbn [Locals.tabsCharDelta Locals.charOffsetInPart] in Hrun.
      destruct Hrun as (? & ? & ?). split; [done|lia].
    + destruct Hinv. split; cbn [Locals.charIndex Locals.tabsCharDelta]; lia.
Qed.

Lemma partLoop_counters (cb pi : Z) (rem : list LineToken) (s s' : Locals.t) :
  tabs_inv s ->
  partLoop lineText lineTextLength tabSize renderWhitespace cb pi rem s
    = Continue s' ->
  tabs_inv s' /\ tcd s <= tcd s'.
Proof.
  revert pi s. induction rem as [|part rest IH]; intros pi s Hinv; cbn [partLoop].
  - intros [= <-]. split; [done|lia].
  - unfold renderPart.
    match goal with
    | |- context [charLoop ?a ?b ?c ?f ?p ?t ?i ?s0] =>
        destruct (charLoop a b c f p t i s0) as [s3|o] eqn:Hrun; [|discriminate];
        apply charLoop_counters in Hrun; [|exact Hinv]
    end.
    cbn [Locals.push Locals.tabsCharDelta] in Hrun.
    destruct Hrun as (Hinv3 & Htcd & _).
    intros Hrest. apply IH in Hrest; [|exact Hinv3].
    cbn [Locals.push Locals.tabsCharDelta] in Hrest.
    destruct Hrest. split; [done|lia].
Qed.

End Counters.

(** C10, as stated, fails: the per-part offset counter decreases during a
    call.  It is 2 when the first part has been scanned, and 1 when the second
    has been; in the table the characters at 1 and 2 are recorded with the
    counter at 1 and at 0. *)
Lemma counter_decreases_between_parts :
  (exists s1 s2,
     renderPart c10_line 3 4 false 3 0 c10_first [c10_second] initial
       = Continue s1 /\
     Locals.charOffsetInPart s1 = 2 /\
     renderPart c10_line 3 4 false 3 1 c10_second [] s1 = Continue s2 /\
     Locals.charOffsetInPart s2 = 1) /\
  renderLine (mkRenderLineInput c10_line 4 (-1) false [c10_first; c10_second])
    = Ok (mkOutput [Some 0; Some 1; Some 0; Some 1] 1
            [str "<span>"; tokenOpen; str "x"; tokenClose; str "a"; str "b";
             str "</span>"; tokenOpen; str "y"; tokenClose; str "c";
             str "</span>"; str "</span>"]).
Proof.
  split; [|vm_compute; reflexivity].
  eexists _, _. split; [vm_compute; reflexivity|].
  split; [reflexivity|]. split; [vm_compute; reflexivity|]. reflexivity.
Qed.

(** C10, amended.  With a positive tab size, in a state of the scan (index
    and tab delta not negative): [insertSpacesCount] is between [1] and the tab
    size and a tab pushes that many fragments; an iteration for any character
    does not decrease [tabsCharDelta] and increases the per-part offset;
    over the characters of one part neither counter decreases; over the parts
    [tabsCharDelta] does not decrease.  (The per-part offset is set to [0]
    where a part is entered.) *)
Theorem tab_counters (lineText : jsstring) (lineTextLength tabSize : Z)
    (renderWhitespace : bool) :
  1 <= tabSize ->
  (forall prw s,
     tabs_inv s ->
     let insertSpacesCount :=
       tabSize - Z.rem (Locals.charIndex s + Locals.tabsCharDelta s) tabSize in
     1 <= insertSpacesCount <= tabSize /\
     exists glyphs,
       Locals.out (renderCharCode lineText tabSize prw (Some _tab) s)
         = Locals.out s ++ glyphs /\
       Z.of_nat (length glyphs) = insertSpacesCount) /\
  (forall prw s,
     tabs_inv s ->
     tabs_inv (renderChar lineText tabSize prw s) /\
     Locals.tabsCharDelta s
       <= Locals.tabsCharDelta (renderChar lineText tabSize prw s) /\
     Locals.charOffsetInPart s
       < Locals.charOffsetInPart (renderChar lineText tabSize prw s)) /\
  (forall cb prw to pi fuel s s',
     tabs_inv s ->
     charLoop lineText tabSize cb fuel prw to pi s = Continue s' ->
     tabs_inv s' /\
     Locals.tabsCharDelta s <= Locals.tabsCharDelta s' /\
     Locals.charOffsetInPart s <= Locals.charOffsetInPart s') /\
  (forall cb pi rem s s',
     tabs_inv s ->
     partLoop lineText lineTextLength tabSize renderWhitespace cb pi rem s
       = Continue s' ->
     tabs_inv s' /\ Locals.tabsCharDelta s <= Locals.tabsCharDelta s') /\
  tabs_inv initial.
Proof.
  intros Hts. assert (Hpos : 0 < tabSize) by lia.
  split.
  { intros prw s [Hci Htcd] isc.
    destruct (insertSpacesCount_bounds tabSize
                (Locals.charIndex s + Locals.tabsCharDelta s) Hpos ltac:(lia))
      as [Hrem Hb].
    split; [exact Hb|].
    destruct (renderCharCode_tab_out lineText tabSize prw s Hpos ltac:(lia))
      as [Hout Hlen].
    eexists. split; [exact Hout|]. subst isc. rewrite Hrem. exact Hlen. }
  split.
  { intros prw s Hinv.
    destruct (renderChar_counters lineText tabSize Hpos prw s Hinv)
      as (Hci & Htcd & Hcoip).
    split; [|done]. destruct Hinv. split; lia. }
  split.
  { intros cb prw to pi fuel s s'. by apply charLoop_counters. }
  split.
  { intros cb pi rem s s'. by apply partLoop_counters. }
  split; done.
Qed.

(** ** Escaping *)

Lemma Content_escaped (f : jsstring) :
  Content f ->
  (_lowerThan ∉ f) /\ (_greaterThan ∉ f) /\ (_ampersand ∈ f -> f ∈ entities).
Proof.
  assert (Hin : forall (x : Z) (l : list Z), x ∈ l -> In x l).
  { intros x l. apply list_elem_of_In. }
  intros [e He|c Hlt Hgt Hamp|].
  - split; [|split; [|done]].
    + intros H%Hin.
      repeat (apply elem_of_cons in He as [->|He];
              [vm_compute in H; repeat destruct H as [H|H]; discriminate H || done|]).
      by apply elem_of_nil in He.
    + intros H%Hin.
      repeat (apply elem_of_cons in He as [->|He];
              [vm_compute in H; repeat destruct H as [H|H]; discriminate H || done|]).
      by apply elem_of_nil in He.
  - split; [|split].
    + intros H%list_elem_of_singleton. done.
    + intros H%list_elem_of_singleton. done.
    + intros H%list_elem_of_singleton. done.
  - split; [|split]; intros H; by apply elem_of_nil in H.
Qed.

Lemma renderLineActual_fragments (lineText : jsstring) (tabSize : Z)
    (renderWhitespace : bool) (cb : Z) (actualLineParts : list LineToken) :
  lineText <> [] -> actualLineParts <> [] ->
  Forall (Fragment (type <$> actualLineParts))
    (output (renderLineActual lineText (Z.of_nat (length lineText)) tabSize
               actualLineParts renderWhitespace cb)).
Proof.
  intros Hline Hparts.
  pose proof (length_pos_nonempty _ Hline) as Hlen.
  assert (Hinit : Forall (Fragment (type <$> actualLineParts)) (Locals.out initial)).
  { constructor; [|constructor]. left. left. solve_elem. }
  assert (Hext : forall s, extends (Emitted (type <$> actualLineParts)) initial s ->
                           Forall (Fragment (type <$> actualLineParts)) (Locals.out s)).
  { intros s [(frags & -> & Hfrags) _]. apply Forall_app. split; [done|].
    eapply Forall_impl; [exact Hfrags|]. intros f ?. by left. }
  destruct (Z.le_gt_cases (Z.of_nat (length lineText)) cb) as [Hcb|Hcb].
  - destruct (scan_complete lineText _ tabSize renderWhitespace actualLineParts
                Hlen Hparts cb Hcb) as (s & _ & -> & _ & _ & _ & He).
    cbn [completed output]. apply Forall_app. split; [by apply Hext|].
    constructor; [|constructor]. left. left. solve_elem.
  - destruct (scan_truncated lineText _ tabSize renderWhitespace actualLineParts
                Hlen Hparts cb _ Hcb (Z.le_refl _))
      as (_ & s1 & j & _ & _ & -> & _ & _ & _ & _ & He & _).
    cbn [truncated output]. apply Forall_app. split; [by apply Hext|].
    constructor; [|constructor]. right. by left.
Qed.

(** ** The ranges of the parts *)

Section Ranges.

Variable lineText : jsstring.
Variable lineTextLength : Z.
Variable tabSize : Z.
Variable renderWhitespace : bool.
Variable charBreakIndex : Z.

Local Abbreviation loop :=
  (partLoop lineText lineTextLength tabSize renderWhitespace charBreakIndex).

Lemma partLoop_ranges (ps qs : list LineToken) (pi : Z) (s : Locals.t) :
  type <$> ps = type <$> qs ->
  (fun p => Z.min lineTextLength (startIndex p)) <$> tail ps =
  (fun p => Z.min lineTextLength (startIndex p)) <$> tail qs ->
  loop pi ps s = loop pi qs s.
Proof.
  revert qs pi s. induction ps as [|p ps IH]; intros [|q qs] pi s Hty Hst;
    try discriminate Hty; [done|].
  injection Hty as Hp Hty. cbn [tail] in Hst.
  cbn [partLoop].
  assert (Hpart : forall s0,
    renderPart lineText lineTextLength tabSize renderWhitespace charBreakIndex
      pi p ps s0 =
    renderPart lineText lineTextLength tabSize renderWhitespace charBreakIndex
      pi q qs s0).
  { intros s0. unfold renderPart. rewrite Hp.
    destruct ps as [|p' ps'], qs as [|q' qs']; try discriminate Hst; [done|].
    injection Hst as -> _. done. }
  rewrite Hpart.
  destruct (renderPart _ _ _ _ _ pi q qs s) as [s'|o]; [|done].
  apply IH; [done|].
  destruct ps, qs; try discriminate Hst; [done|].
  injection Hst as _ Hst. exact Hst.
Qed.

Lemma renderPart_range (pi : Z) (part : LineToken) (rest : list LineToken)
    (s s' : Locals.t) :
  inv s ->
  renderPart lineText lineTextLength tabSize renderWhitespace charBreakIndex
    pi part rest s = Continue s' ->
  Locals.charIndex s' = Z.max (Locals.charIndex s) (rangeEnd lineTextLength rest) /\
  inv s'.
Proof.
  intros Hinv. unfold renderPart. fold (rangeEnd lineTextLength rest).
  set (to := rangeEnd lineTextLength rest).
  match goal with
  | |- context [charLoop _ _ _ ?f ?p _ _ ?s0] =>
      destruct (charLoop_spec lineText tabSize charBreakIndex to p to pi f s0
                  Hinv ltac:(cbn; lia) ltac:(lia))
        as (sF & _ & HinvF & _ & HciF & Hrun)
  end.
  match goal with
  | |- context [charLoop ?a ?b ?c ?f ?p ?t ?i ?s0] =>
      destruct (charLoop a b c f p t i s0) as [s3|o]; [|discriminate]
  end.
  destruct Hrun as [-> _]. intros [= <-]. done.
Qed.

End Ranges.

(** * The theorems at the examples *)

Lemma c2_tokens_valid : validTokens (parts c2_input).
Proof.
  split; [by eexists _, _|].
  intros i j p q Hij Hp Hq.
  destruct i as [|[|[|i]]], j as [|[|[|j]]]; simpl in Hp, Hq;
    try discriminate; try lia; injection Hp as <-; injection Hq as <-;
    simpl; lia.
Qed.

Lemma c2_renders : renderLine c2_input = Ok c2_output.
Proof. vm_compute. reflexivity. Qed.

(** The table theorem at [c2_input]: the cut is at the first character of a
    part, recorded at offset [0] and returned as [1]. *)
Lemma offset_table_entries_witness :
  renderLine c2_input = Ok c2_output /\
  exists full v,
    renderLine (untruncated c2_input) = Ok full /\
    length (charOffsetInPart c2_output) = 3%nat /\
    take 2 (charOffsetInPart c2_output) = take 2 (charOffsetInPart full) /\
    charOffsetInPart full !! 2%nat = Some (Some v) /\
    charOffsetInPart c2_output !! 2%nat = Some (Some (v + 1)).
Proof.
  split; [exact c2_renders|].
  destruct (offset_table_entries c2_input c2_output c2_renders) as (_ & _ & Hcut).
  apply Hcut; [discriminate | simpl; lia].
Defined.

(** The tab theorem at the tab of [c1_input]: three columns to the stop. *)
Lemma tab_expansion_witness :
  0 < 4 /\ 0 <= Locals.charIndex c1_at_tab + Locals.tabsCharDelta c1_at_tab /\
  Locals.tabsCharDelta
    (renderCharCode (lineContent c1_input) 4 false (Some _tab) c1_at_tab) = 2 /\
  Locals.charOffsetInPart
    (renderCharCode (lineContent c1_input) 4 false (Some _tab) c1_at_tab) = 3 /\
  Locals.out (renderCharCode (lineContent c1_input) 4 false (Some _tab) c1_at_tab)
    = Locals.out c1_at_tab ++ [nbsp; nbsp; nbsp].
Proof.
  assert (Hsize : 0 < 4) by lia.
  assert (Hcol : 0 <= Locals.charIndex c1_at_tab + Locals.tabsCharDelta c1_at_tab)
    by (simpl; lia).
  split; [exact Hsize|]. split; [exact Hcol|].
  destruct (tab_expansion (lineContent c1_input) 4 false c1_at_tab Hsize Hcol)
    as (Hdelta & Hoffset & Hout & _).
  split; [exact Hdelta|]. split; [exact Hoffset|exact Hout].
Defined.

(** The bounds on [insertSpacesCount] at the same tab. *)
Lemma tab_counters_witness :
  1 <= 4 /\
  1 <= 4 - Z.rem (Locals.charIndex c1_at_tab + Locals.tabsCharDelta c1_at_tab) 4
    <= 4.
Proof.
  assert (Hsize : 1 <= 4) by lia.
  split; [exact Hsize|].
  destruct (tab_counters (lineContent c1_input) 3 4 false Hsize) as (Htab & _).
  apply (Htab false c1_at_tab). split; simpl; lia.
Defined.

(** * Further properties *)

(** ** [isWhitespace] and the regular expression *)

Lemma startsWith_Some (p s r : jsstring) :
  startsWith p s = Some r <-> s = p ++ r.
Proof.
  revert s. induction p as [|a p IH]; intros s; simpl.
  - split; [by intros [= ->] | by intros ->].
  - destruct s as [|b s]; [split; [done | discriminate]|].
    destruct (Z.eqb_spec a b) as [->|Hne].
    + rewrite IH. split; [by intros -> | by intros [= ->]].
    + split; [done | intros [= <- _]; done].
Qed.

Lemma wordHere_true (s : jsstring) :
  wordHere s = true <->
  exists post,
    s = str "whitespace" ++ post /\
    (forall c, head post = Some c -> isWordChar c = false).
Proof.
  unfold wordHere. split.
  - destruct (startsWith (str "whitespace") s) as [r|] eqn:E; [|done].
    apply startsWith_Some in E. intros H. exists r. split; [done|].
    destruct r as [|c r]; [done|]. intros c' [= <-].
    by apply negb_true_iff.
  - intros (post & -> & Hpost).
    rewrite (proj2 (startsWith_Some (str "whitespace") _ post) eq_refl).
    destruct post as [|c post]; [done|].
    apply negb_true_iff. by apply Hpost.
Qed.

Lemma whitespaceFrom_true (prevWord : bool) (s : jsstring) :
  whitespaceFrom prevWord s = true <->
  exists pre post,
    s = pre ++ str "whitespace" ++ post /\
    (pre = [] -> prevWord = false) /\
    (forall c, last pre = Some c -> isWordChar c = false) /\
    (forall c, head post = Some c -> isWordChar c = false).
Proof.
  split.
  - revert prevWord. induction s as [|c s IH]; intros prevWord; simpl; [done|].
    intros [[Hprev Hhere]%andb_true_iff|Hrest]%orb_true_iff.
    + apply wordHere_true in Hhere as (post & Hs & Hpost).
      exists [], post. split; [done|]. split; [by intros _; apply negb_true_iff|].
      split; [done|done].
    + apply IH in Hrest as (pre & post & -> & Hnil & Hlast & Hpost).
      exists (c :: pre), post. split; [done|]. split; [done|]. split; [|done].
      intros c'. destruct pre as [|d pre].
      * intros [= <-]. by apply Hnil.
      * intros H. apply Hlast. exact H.
  - intros (pre & post & -> & Hnil & Hlast & Hpost).
    revert prevWord Hnil. induction pre as [|c pre IH]; intros prevWord Hnil.
    + assert (Hhere : wordHere ([] ++ str "whitespace" ++ post) = true).
      { apply wordHere_true. by exists post. }
      rewrite (Hnil eq_refl).
      change ([] ++ str "whitespace" ++ post)
        with (119 :: (str "hitespace" ++ post)) in *.
      cbn [whitespaceFrom]. by rewrite Hhere.
    + cbn [app whitespaceFrom]. apply orb_true_iff. right.
      apply IH.
      * intros c' Hc'. apply Hlast. destruct pre; [done|exact Hc'].
      * intros ->. by apply Hlast.
Qed.

(** X1.  [isWhitespace] is the test of [/\bwhitespace\b/]: the type has the
    word [whitespace] somewhere, with no word character ([A-Za-z0-9_]) right
    before it and none right after it. *)
Theorem isWhitespace_word (type : jsstring) :
  isWhitespace type = true <->
  exists pre post,
    type = pre ++ str "whitespace" ++ post /\
    (forall c, last pre = Some c -> isWordChar c = false) /\
    (forall c, head post = Some c -> isWordChar c = false).
Proof.
  unfold isWhitespace. rewrite whitespaceFrom_true.
  split; intros (pre & post & H1 & H2); exists pre, post.
  - destruct H2 as (_ & H2 & H3). done.
  - destruct H2 as (H2 & H3). done.
Qed.

(** ** Limits outside the line *)

Lemma renderLineActual_beyond (lineText : jsstring) (tabSize : Z)
    (parts : list LineToken) (flag : bool) (cb cb' : Z) :
  lineText <> [] ->
  Z.of_nat (length lineText) <= cb -> Z.of_nat (length lineText) <= cb' ->
  renderLineActual lineText (Z.of_nat (length lineText)) tabSize parts flag cb =
  renderLineActual lineText (Z.of_nat (length lineText)) tabSize parts flag cb'.
Proof.
  intros Hline Hcb Hcb'. unfold renderLineActual.
  destruct (partLoop_spec lineText (Z.of_nat (length lineText)) tabSize flag
              (type <$> parts) ltac:(lia) cb' parts Hcb'
              ltac:(apply Forall_forall; intros p Hp; by apply list_elem_of_fmap_2)
              cb 0 initial inv_initial ltac:(cbn; lia) ltac:(cbn; lia))
    as (sF & -> & _ & _ & _ & _ & Hrun).
  destruct (partLoop _ _ _ _ cb 0 parts initial) as [s'|o].
  - by destruct Hrun as [-> _].
  - destruct Hrun as (s1 & j & part & _ & _ & Hc & Hlt & _). lia.
Qed.

(** X2.  A limit beyond the length of the line is no limit: the result is
    that of the limit [-1]. *)
Theorem limit_beyond_line (lineText : jsstring) (size limit : Z)
    (flag : bool) (ps : list LineToken) :
  Z.of_nat (length lineText) < limit ->
  renderLine (mkRenderLineInput lineText size limit flag ps) =
  renderLine (mkRenderLineInput lineText size (-1) flag ps).
Proof.
  intros Hlimit. unfold renderLine.
  cbn [lineContent parts stopRenderingLineAfter tabSize renderWhitespace].
  destruct (Z.eqb_spec (Z.of_nat (length lineText)) 0) as [_|Hlen]; [done|].
  destruct (length ps =? 0)%nat; [done|].
  f_equal. simpl (-1 =? -1). cbv iota.
  destruct (Z.eqb_spec limit (-1)) as [?|_]; [lia|].
  apply renderLineActual_beyond; [|lia|lia].
  intros ->. done.
Qed.

Section LowLimit.

Variable lineText : jsstring.
Variable lineTextLength : Z.
Variable tabSize : Z.
Variable renderWhitespace : bool.
Variable cb cb' : Z.

Hypothesis cb_low : cb <= 0.
Hypothesis cb'_low : cb' <= 0.

Lemma charLoop_low (prw : bool) (to pi : Z) (fuel : nat) (s : Locals.t) :
  0 <= Locals.charIndex s ->
  charLoop lineText tabSize cb fuel prw to pi s =
  charLoop lineText tabSize cb' fuel prw to pi s /\
  forall s', charLoop lineText tabSize cb fuel prw to pi s = Continue s' -> s' = s.
Proof.
  intros Hci. destruct fuel as [|fuel]; cbn [charLoop].
  - split; [done|]. by intros s' [= <-].
  - destruct (Locals.charIndex s <? to); [|split; [done|by intros s' [= <-]]].
    rewrite renderChar_charIndex.
    destruct (Z.leb_spec cb (Locals.charIndex s)); [|lia].
    destruct (Z.leb_spec cb' (Locals.charIndex s)); [|lia].
    split; [done|]. intros s'. discriminate.
Qed.

Lemma partLoop_low (rem : list LineToken) (pi : Z) (s : Locals.t) :
  0 <= Locals.charIndex s ->
  partLoop lineText lineTextLength tabSize renderWhitespace cb pi rem s =
  partLoop lineText lineTextLength tabSize renderWhitespace cb' pi rem s.
Proof.
  revert pi s. induction rem as [|part rest IH]; intros pi s Hci; [done|].
  cbn [partLoop]. unfold renderPart.
  match goal with
  | |- context [charLoop _ _ cb ?f ?p ?t ?i ?s0] =>
      destruct (charLoop_low p t i f s0 Hci) as [Heq Hsame]; rewrite <- Heq;
      destruct (charLoop lineText tabSize cb f p t i s0) as [s3|o] eqn:Hrun;
      [|done]
  end.
  rewrite (Hsame s3 eq_refl). apply IH. exact Hci.
Qed.

End LowLimit.

(** X3.  A limit below [1] other than [-1] is the limit [1]: the scan is cut
    after the first character. *)
Theorem limit_below_one (lineText : jsstring) (size limit : Z)
    (flag : bool) (ps : list LineToken) :
  limit <= 1 -> limit <> -1 ->
  renderLine (mkRenderLineInput lineText size limit flag ps) =
  renderLine (mkRenderLineInput lineText size 1 flag ps).
Proof.
  intros Hlimit Hno. unfold renderLine.
  cbn [lineContent parts stopRenderingLineAfter tabSize renderWhitespace].
  destruct (Z.of_nat (length lineText) =? 0); [done|].
  destruct (length ps =? 0)%nat; [done|].
  f_equal. simpl (1 =? -1). cbv iota.
  destruct (Z.eqb_spec limit (-1)) as [?|_]; [lia|].
  unfold renderLineActual.
  rewrite (partLoop_low lineText (Z.of_nat (length lineText)) size flag
             (limit - 1) (1 - 1)); [done|lia|lia|cbn; lia].
Qed.

(** ** The types of the parts and the whitespace flag *)

Section Alike.

Variable lineText : jsstring.
Variable lineTextLength : Z.
Variable tabSize : Z.
Variable charBreakIndex : Z.

Lemma renderCharCode_alike (prw prw' : bool) (cc : option Z) (s s' : Locals.t) :
  alike s s' ->
  alike (renderCharCode lineText tabSize prw cc s)
        (renderCharCode lineText tabSize prw' cc s').
Proof.
  intros (Hci & Harr & Hcoip & Htcd & Hout).
  assert (Hpush : forall x y, alike (Locals.push x s) (Locals.push y s')).
  { intros x y. unfold alike, Locals.push. cbn.
    rewrite !length_app. cbn. by rewrite Hci, Harr, Hcoip, Htcd, Hout. }
  unfold renderCharCode. destruct cc as [c|]; [|apply Hpush].
  destruct (c =? _tab).
  { unfold alike. rewrite !renderTab_out. unfold renderTab.
    cbn [Locals.charIndex Locals.charOffsetInPartArr Locals.charOffsetInPart
         Locals.tabsCharDelta].
    rewrite Hci, Harr, Hcoip, Htcd. do 4 (split; [done|]).
    rewrite !length_app, Hout. f_equal.
    destruct (0 <? _); [|done]. cbn. by rewrite !length_replicate. }
  repeat match goal with
         | |- context [if ?b then _ else _] => destruct b
         end; apply Hpush.
Qed.

Lemma renderChar_alike (prw prw' : bool) (s s' : Locals.t) :
  alike s s' ->
  alike (renderChar lineText tabSize prw s) (renderChar lineText tabSize prw' s').
Proof.
  intros Halike. pose proof Halike as (Hci & Harr & Hcoip & Htcd & Hout).
  unfold renderChar. rewrite Hci, Harr, Hcoip.
  match goal with
  | |- alike (Locals.mk _ _ _ _ _) (Locals.mk _ _ _ _ _) =>
      idtac
  end.
  match goal with
  | |- context [renderCharCode _ _ prw ?cc ?s0] =>
      match goal with
      | |- context [renderCharCode _ _ prw' cc ?s0'] =>
          assert (H0 : alike (renderCharCode lineText tabSize prw cc s0)
                             (renderCharCode lineText tabSize prw' cc s0'))
      end
  end.
  { apply renderCharCode_alike. unfold alike. cbn. by rewrite Htcd, Hout. }
  destruct H0 as (H1 & H2 & H3 & H4 & H5).
  unfold alike. cbn. by rewrite H1, H2, H3, H4, H5.
Qed.

Lemma charLoop_alike (prw prw' : bool) (to pi : Z) (fuel : nat)
    (s s' : Locals.t) :
  alike s s' ->
  alikeFlow (charLoop lineText tabSize charBreakIndex fuel prw to pi s)
            (charLoop lineText tabSize charBreakIndex fuel prw' to pi s').
Proof.
  revert s s'. induction fuel as [|fuel IH]; intros s s' Halike; cbn [charLoop].
  - exact Halike.
  - pose proof Halike as (Hci & _). rewrite <- Hci.
    destruct (Locals.charIndex s <? to); [|exact Halike].
    pose proof (renderChar_alike prw prw' s s' Halike)
      as (H1 & H2 & H3 & H4 & H5).
    rewrite <- H1. destruct (charBreakIndex <=? _).
    + unfold alikeFlow, shape, truncated.
      cbn [charOffsetInPart lastRenderedPartIndex output].
      rewrite !length_app, H2, H5. done.
    + apply IH. unfold alike.
      cbn [Locals.charIndex Locals.charOffsetInPartArr Locals.charOffsetInPart
           Locals.tabsCharDelta Locals.out].
      by rewrite H1, H2, H3, H4, H5.
Qed.

Lemma partLoop_alike (flag flag' : bool) (ps ps' : list LineToken) (pi : Z)
    (s s' : Locals.t) :
  startIndex <$> ps = startIndex <$> ps' ->
  alike s s' ->
  alikeFlow
    (partLoop lineText lineTextLength tabSize flag charBreakIndex pi ps s)
    (partLoop lineText lineTextLength tabSize flag' charBreakIndex pi ps' s').
Proof.
  revert ps' pi s s'. induction ps as [|p ps IH]; intros [|p' ps'] pi s s' Hst Halike;
    try discriminate Hst; [exact Halike|].
  injection Hst as Hp Hst. cbn [partLoop]. unfold renderPart.
  assert (Hto : match ps with
                | nextPart :: _ => Z.min lineTextLength (startIndex nextPart)
                | [] => lineTextLength
                end =
                match ps' with
                | nextPart :: _ => Z.min lineTextLength (startIndex nextPart)
                | [] => lineTextLength
                end).
  { destruct ps, ps'; try discriminate Hst; [done|]. by injection Hst as -> _. }
  rewrite Hto. pose proof Halike as (Hci & Harr & Hcoip & Htcd & Hout).
  cbn [Locals.push Locals.charIndex Locals.out Locals.charOffsetInPartArr
       Locals.tabsCharDelta].
  rewrite <- Hci.
  set (to := match ps' with
             | nextPart :: _ => Z.min lineTextLength (startIndex nextPart)
             | [] => lineTextLength
             end).
  set (q := if flag then isWhitespace (type p) else false).
  set (q' := if flag' then isWhitespace (type p') else false).
  set (s0 := Locals.mk (Locals.charIndex s)
               (((Locals.out s ++ [tokenOpen]) ++ [type p]) ++ [tokenClose])
               (Locals.charOffsetInPartArr s) 0 (Locals.tabsCharDelta s)).
  set (s0' := Locals.mk (Locals.charIndex s)
                (((Locals.out s' ++ [tokenOpen]) ++ [type p']) ++ [tokenClose])
                (Locals.charOffsetInPartArr s') 0 (Locals.tabsCharDelta s')).
  assert (H0 : alike s0 s0').
  { unfold alike. subst s0 s0'. cbn. rewrite !length_app. cbn.
    by rewrite Harr, Htcd, Hout. }
  pose proof (charLoop_alike q q' to pi (Z.to_nat (to - Locals.charIndex s))
                s0 s0' H0) as Hloop.
  destruct (charLoop lineText tabSize charBreakIndex
              (Z.to_nat (to - Locals.charIndex s)) q to pi s0) as [s3|o];
    destruct (charLoop lineText tabSize charBreakIndex
                (Z.to_nat (to - Locals.charIndex s)) q' to pi s0') as [s3'|o'];
    try done.
  apply IH; [done|].
  destruct Hloop as (H1 & H2 & H3 & H4 & H5).
  unfold alike, Locals.push. cbn. rewrite !length_app. cbn.
  by rewrite H1, H2, H3, H4, H5.
Qed.

Lemma partLoop_plain (flag : bool) (ps : list LineToken) (pi : Z) (s : Locals.t) :
  Forall (fun p => isWhitespace (type p) = false) ps ->
  partLoop lineText lineTextLength tabSize flag charBreakIndex pi ps s =
  partLoop lineText lineTextLength tabSize false charBreakIndex pi ps s.
Proof.
  intros Hps. revert pi s. induction Hps as [|p ps Hp _ IH]; intros pi s; [done|].
  cbn [partLoop]. unfold renderPart. rewrite Hp.
  destruct flag; cbv iota;
    match goal with
    | |- context [charLoop ?a ?b ?c ?f ?q ?t ?i ?s0] =>
        destruct (charLoop a b c f q t i s0); [apply IH | done]
    end.
Qed.

End Alike.

(** X4.  The positions do not depend on the types of the parts nor on the
    whitespace flag: two inputs with the same line, tab size, limit and start
    indices give the same table, the same part index and the same number of
    fragments, or throw the same error. *)
Theorem positions_ignore_types (lineText : jsstring) (size limit : Z)
    (flag flag' : bool) (ps ps' : list LineToken) :
  startIndex <$> ps = startIndex <$> ps' ->
  shape (renderLine (mkRenderLineInput lineText size limit flag ps)) =
  shape (renderLine (mkRenderLineInput lineText size limit flag' ps')).
Proof.
  intros Hst. unfold renderLine.
  cbn [lineContent parts stopRenderingLineAfter tabSize renderWhitespace].
  assert (Hlen : length ps = length ps').
  { apply (f_equal length) in Hst. by rewrite !length_fmap in Hst. }
  rewrite <- Hlen.
  destruct (Z.of_nat (length lineText) =? 0); [done|].
  destruct (length ps =? 0)%nat; [done|].
  unfold renderLineActual. rewrite <- Hlen.
  match goal with
  | |- context [partLoop ?l ?n ?t flag ?c 0 ps initial] =>
      pose proof (partLoop_alike l n t c flag flag' ps ps' 0 initial initial Hst
                    ltac:(by repeat split)) as Hloop;
      destruct (partLoop l n t flag c 0 ps initial) as [s|o];
      destruct (partLoop l n t flag' c 0 ps' initial) as [s'|o']; try done
  end.
  destruct Hloop as (H1 & H2 & H3 & H4 & H5).
  cbn. rewrite !length_app, H2, H3, H5. done.
Qed.

(** X5.  The whitespace flag matters only for parts whose type has the word
    [whitespace]: when no part has, the result is that of the flag off. *)
Theorem flag_without_whitespace_parts (lineText : jsstring) (size limit : Z)
    (flag : bool) (ps : list LineToken) :
  Forall (fun p => isWhitespace (type p) = false) ps ->
  renderLine (mkRenderLineInput lineText size limit flag ps) =
  renderLine (mkRenderLineInput lineText size limit false ps).
Proof.
  intros Hps. unfold renderLine.
  cbn [lineContent parts stopRenderingLineAfter tabSize renderWhitespace].
  destruct (Z.of_nat (length lineText) =? 0); [done|].
  destruct (length ps =? 0)%nat; [done|].
  unfold renderLineActual. by rewrite partLoop_plain.
Qed.

(** ** Columns *)

Section Columns.

Variable lineText : jsstring.
Variable tabSize : Z.

Hypothesis tabSize_pos : 0 < tabSize.

Local Abbreviation ci := Locals.charIndex.
Local Abbreviation tcd := Locals.tabsCharDelta.
Local Abbreviation coip := Locals.charOffsetInPart.
Local Abbreviation arr := Locals.charOffsetInPartArr.
Local Abbreviation col := (column tabSize lineText).

Lemma charWidth_pos (c0 c : Z) : 0 <= c0 -> 1 <= charWidth tabSize c0 c <= tabSize.
Proof.
  intros H0. unfold charWidth. destruct (c =? _tab); [|lia].
  pose proof (Z.mod_pos_bound c0 tabSize tabSize_pos). lia.
Qed.

Lemma columnAfter_app (c0 : Z) (cs cs' : list Z) :
  columnAfter tabSize c0 (cs ++ cs') =
  columnAfter tabSize (columnAfter tabSize c0 cs) cs'.
Proof. revert c0. induction cs as [|c cs IH]; intros c0; simpl; [done|apply IH]. Qed.

Lemma columnAfter_ge (c0 : Z) (cs : list Z) :
  0 <= c0 -> c0 + Z.of_nat (length cs) <= columnAfter tabSize c0 cs.
Proof.
  revert c0. induction cs as [|c cs IH]; intros c0 H0; simpl; [lia|].
  pose proof (charWidth_pos c0 c H0).
  specialize (IH (c0 + charWidth tabSize c0 c) ltac:(lia)). lia.
Qed.

Lemma column_nonneg (i : nat) : 0 <= col i.
Proof.
  unfold column. pose proof (columnAfter_ge 0 (take i lineText) ltac:(lia)). lia.
Qed.

Lemma column_S (i : nat) (c : Z) :
  lineText !! i = Some c -> col (S i) = col i + charWidth tabSize (col i) c.
Proof.
  intros Hc. unfold column. rewrite (take_S_r _ _ _ Hc), columnAfter_app. done.
Qed.

Lemma column_mono (i j : nat) : (i <= j)%nat -> col i <= col j.
Proof.
  induction 1 as [|j _ IH]; [lia|].
  destruct (lineText !! j) as [c|] eqn:Hc.
  - rewrite (column_S j c Hc). pose proof (charWidth_pos (col j) c (column_nonneg j)).
    lia.
  - apply lookup_ge_None in Hc.
    assert (col (S j) = col j) as ->; [|done].
    unfold column. by rewrite (take_ge lineText (S j)), (take_ge lineText j) by lia.
Qed.

(** The fragments of a character, whatever is in the state besides the
    column. *)
Lemma renderCharCode_fragments (prw : bool) (c : Z) (s : Locals.t) :
  charAt lineText (ci s) = [c] ->
  Locals.out (renderCharCode lineText tabSize prw (Some c) s) =
  Locals.out s ++ charFragments tabSize prw (ci s + tcd s) c.
Proof.
  intros Hat. unfold charFragments, renderCharCode.
  destruct (c =? _tab).
  { rewrite !renderTab_out. cbn [Locals.out Locals.charIndex Locals.tabsCharDelta].
    by rewrite Z.add_0_l. }
  rewrite Hat.
  repeat match goal with
         | |- context [if ?b then _ else _] => destruct b
         end; reflexivity.
Qed.

(** One iteration, on a character of the line, in a state at its column. *)
Lemma renderChar_column (prw : bool) (s : Locals.t) (i : nat) (c : Z) :
  inv s -> ci s = Z.of_nat i -> lineText !! i = Some c ->
  ci s + tcd s = col i ->
  let s' := renderChar lineText tabSize prw s in
  ci s' = Z.of_nat i /\
  Locals.out s' = Locals.out s ++ charFragments tabSize prw (col i) c /\
  arr s' = arr s ++ [Some (coip s)] /\
  coip s' = coip s + (col (S i) - col i) /\
  ci s' + 1 + tcd s' = col (S i).
Proof.
  intros Hinv Hci Hc Hcol s'. subst s'.
  assert (Hcode : charCodeAt lineText (ci s) = Some c).
  { unfold charCodeAt. rewrite Hci. destruct (Z.ltb_spec (Z.of_nat i) 0); [lia|].
    by rewrite Nat2Z.id. }
  rewrite renderChar_charIndex, renderChar_arr by done.
  split; [done|]. rewrite (column_S i c Hc).
  unfold renderChar. cbn [Locals.out Locals.charOffsetInPart Locals.tabsCharDelta].
  rewrite Hcode.
  set (s0 := Locals.mk _ _ _ _ _).
  assert (Hat : charAt lineText (ci s0) = [c]).
  { unfold charAt. subst s0. cbn [Locals.charIndex]. by rewrite Hcode. }
  rewrite (renderCharCode_fragments prw c s0 Hat).
  pose proof (renderCharCode_counters lineText tabSize prw (Some c) s0)
    as [Htab Hother].
  cbv zeta in Htab, Hother.
  pose proof (column_nonneg i) as Hnn.
  assert (Hrem : Z.rem (ci s0 + tcd s0) tabSize = col i mod tabSize).
  { subst s0. cbn [Locals.charIndex Locals.tabsCharDelta].
    rewrite Hcol. apply Z.rem_mod_nonneg; lia. }
  rewrite Hrem in Htab.
  subst s0. cbn [Locals.charIndex Locals.tabsCharDelta Locals.out
                 Locals.charOffsetInPart] in *.
  rewrite Hcol. split; [done|]. split; [done|].
  unfold charWidth. destruct (Z.eqb_spec c _tab) as [->|Hne].
  - destruct (Htab eq_refl) as [-> ->]. lia.
  - destruct (Hother ltac:(congruence)) as [-> ->]. lia.
Qed.

Lemma rangeFragments_S (prw : bool) (i n : nat) (c : Z) :
  lineText !! i = Some c ->
  rangeFragments tabSize prw lineText i (S n) =
  charFragments tabSize prw (col i) c ++
  rangeFragments tabSize prw lineText (S i) n.
Proof. intros Hc. unfold rangeFragments. cbn. by rewrite Hc. Qed.

(** The loop over the characters of a part that begins at [start], under a
    break index that the part cannot reach. *)
Lemma charLoop_closed (cbF : Z) (prw : bool) (to pi : Z) (start : nat)
    (fuel : nat) (s : Locals.t) (i : nat) :
  inv s -> ci s = Z.of_nat i -> ci s + tcd s = col i ->
  coip s = col i - col start ->
  to <= Z.of_nat (length lineText) -> to <= cbF ->
  (Z.to_nat (to - ci s) <= fuel)%nat ->
  let n := Z.to_nat (to - ci s) in
  exists sF,
    charLoop lineText tabSize cbF fuel prw to pi s = Continue sF /\
    inv sF /\ ci sF = Z.of_nat (i + n) /\ ci sF + tcd sF = col (i + n) /\
    coip sF = col (i + n) - col start /\
    Locals.out sF = Locals.out s ++ rangeFragments tabSize prw lineText i n /\
    arr sF = arr s ++ rangeOffsets tabSize lineText start i n.
Proof.
  revert s i. induction fuel as [|fuel IH];
    intros s i Hinv Hci Hcol Hcoip Hto HcbF Hfuel n.
  - assert (n = 0%nat) as -> by lia. exists s. cbn [charLoop].
    rewrite Nat.add_0_r. unfold rangeFragments, rangeOffsets. cbn.
    by rewrite !app_nil_r.
  - cbn [charLoop]. destruct (Z.ltb_spec (ci s) to) as [Hlt|Hge].
    2:{ assert (n = 0%nat) as -> by lia. exists s.
        rewrite Nat.add_0_r. unfold rangeFragments, rangeOffsets. cbn.
        by rewrite !app_nil_r. }
    destruct (lineText !! i) as [c|] eqn:Hc.
    2:{ apply lookup_ge_None in Hc. lia. }
    destruct (renderChar_column prw s i c Hinv Hci Hc Hcol)
      as (Hci1 & Hout1 & Harr1 & Hcoip1 & Hcol1).
    rewrite Hci1. destruct (Z.leb_spec cbF (Z.of_nat i)); [lia|].
    pose proof (renderChar_next_inv lineText tabSize prw s Hinv) as Hinv1.
    rewrite Hci1 in Hinv1.
    match goal with
    | |- context [charLoop _ _ _ fuel _ _ _ ?s1'] => set (s1 := s1') in *
    end.
    rewrite Hci1 in Hcol1.
    assert (A1 : ci s1 = Z.of_nat (S i)) by (subst s1; cbn; lia).
    assert (A2 : ci s1 + tcd s1 = col (S i))
      by (subst s1; cbn [Locals.charIndex Locals.tabsCharDelta]; lia).
    assert (A3 : coip s1 = col (S i) - col start)
      by (subst s1; cbn [Locals.charOffsetInPart]; lia).
    assert (A4 : (Z.to_nat (to - ci s1) <= fuel)%nat) by lia.
    destruct (IH s1 (S i) Hinv1 A1 A2 A3 Hto HcbF A4)
      as (sF & HF & HinvF & HciF & HcolF & HcoipF & HoutF & HarrF).
    assert (Hn : (i + n = S i + Z.to_nat (to - ci s1))%nat) by lia.
    assert (Hn' : n = S (Z.to_nat (to - ci s1))) by lia.
    exists sF. rewrite Hn.
    split; [done|]. split; [done|]. split; [done|]. split; [done|].
    split; [done|]. rewrite Hn'. split.
    + rewrite HoutF. subst s1. cbn [Locals.out].
      rewrite Hout1, (rangeFragments_S prw i _ c Hc), app_assoc. done.
    + rewrite HarrF. subst s1. cbn [Locals.charOffsetInPartArr].
      rewrite Harr1, Hcoip, <- app_assoc. done.
Qed.

End Columns.

(** ** The scan in closed form *)

Section Closed.

Variable lineText : jsstring.
Variable tabSize : Z.
Variable flag : bool.

Hypothesis tabSize_pos : 0 < tabSize.

Local Abbreviation ci := Locals.charIndex.
Local Abbreviation tcd := Locals.tabsCharDelta.
Local Abbreviation coip := Locals.charOffsetInPart.
Local Abbreviation arr := Locals.charOffsetInPartArr.
Local Abbreviation col := (column tabSize lineText).
Local Abbreviation len := (Z.of_nat (length lineText)).

Lemma rangeLength_bound (from : nat) (rest : list LineToken) :
  (from <= length lineText)%nat ->
  (from + rangeLength lineText from rest <= length lineText)%nat.
Proof.
  intros Hfrom. unfold rangeLength, rangeEnd. destruct rest; lia.
Qed.

Lemma partLoop_closed (cbF : Z) (rem : list LineToken) (pi : Z) (s : Locals.t)
    (from : nat) :
  len <= cbF ->
  inv s -> ci s = Z.of_nat from -> (from <= length lineText)%nat ->
  ci s + tcd s = col from ->
  exists sF,
    partLoop lineText len tabSize flag cbF pi rem s = Continue sF /\
    Locals.out sF = Locals.out s ++ partSpans tabSize flag lineText from rem /\
    arr sF = arr s ++ partOffsets tabSize lineText from rem /\
    coip sF = match rem with
              | [] => coip s
              | _ :: _ => finalOffset tabSize lineText from rem
              end.
Proof.
  intros HcbF. revert pi s from.
  induction rem as [|part rest IH]; intros pi s from Hinv Hci Hfrom Hcol.
  - exists s. cbn. by rewrite !app_nil_r.
  - cbn [partLoop partSpans partOffsets finalOffset]. unfold renderPart.
    fold (rangeEnd len rest).
    set (n := rangeLength lineText from rest).
    set (prw := if flag then isWhitespace (type part) else false).
    cbn [Locals.push Locals.charIndex Locals.out Locals.charOffsetInPartArr
         Locals.tabsCharDelta].
    set (s2 := Locals.mk _ _ _ _ _).
    assert (Hto : rangeEnd len rest <= len) by (unfold rangeEnd; destruct rest; lia).
    destruct (charLoop_closed lineText tabSize tabSize_pos cbF prw
                (rangeEnd len rest) pi from (Z.to_nat (rangeEnd len rest - ci s))
                s2 from Hinv Hci Hcol)
      as (sF1 & HF1 & HinvF1 & HciF1 & HcolF1 & HcoipF1 & HoutF1 & HarrF1);
      [subst s2; cbn [Locals.charOffsetInPart]; lia | lia | lia
      | subst s2; cbn [Locals.charIndex]; lia |].
    change (ci s2) with (ci s) in *. rewrite Hci in *. rewrite HF1.
    change (Z.to_nat (rangeEnd len rest - Z.of_nat from)) with n in *.
    destruct (IH (pi + 1) (Locals.push (str "</span>") sF1) (from + n)%nat
                HinvF1 HciF1 (rangeLength_bound from rest Hfrom) HcolF1)
      as (sF & HF & HoutF & HarrF & HcoipF).
    exists sF. split; [done|]. split; [|split].
    + rewrite HoutF. cbn [Locals.push Locals.out]. rewrite HoutF1.
      subst s2. cbn [Locals.out]. rewrite <- !app_assoc. done.
    + rewrite HarrF. cbn [Locals.push Locals.charOffsetInPartArr]. rewrite HarrF1.
      subst s2. cbn [Locals.charOffsetInPartArr]. by rewrite <- app_assoc.
    + rewrite HcoipF. destruct rest; [|done].
      cbn [Locals.push Locals.charOffsetInPart]. exact HcoipF1.
Qed.

(** [renderLineActual] under a break index beyond the line. *)
Lemma renderLineActual_closed (cb : Z) (actualLineParts : list LineToken) :
  len <= cb ->
  renderLineActual lineText len tabSize actualLineParts flag cb =
  mkOutput
    (partOffsets tabSize lineText 0 actualLineParts ++
       [Some (finalOffset tabSize lineText 0 actualLineParts)])
    (Z.of_nat (length actualLineParts) - 1)
    (str "<span>" :: partSpans tabSize flag lineText 0 actualLineParts ++
       [str "</span>"]).
Proof.
  intros Hcb. unfold renderLineActual.
  destruct (partLoop_closed cb actualLineParts 0 initial 0 Hcb inv_initial
              eq_refl ltac:(lia) eq_refl) as (sF & -> & Hout & Harr & Hcoip).
  rewrite Hout, Harr, Hcoip. cbn [Locals.out Locals.charOffsetInPartArr initial
    Locals.charOffsetInPart app].
  by destruct actualLineParts.
Qed.

End Closed.

(** ** The table of a line in valid parts *)

Section Offsets.

Variable lineText : jsstring.
Variable tabSize : Z.

Local Abbreviation col := (column tabSize lineText).
Local Abbreviation len := (Z.of_nat (length lineText)).

Lemma rangeOffsets_length (start from n : nat) :
  length (rangeOffsets tabSize lineText start from n) = n.
Proof. unfold rangeOffsets. by rewrite length_fmap, length_seq. Qed.

Lemma rangeOffsets_lookup (start from n j : nat) :
  (j < n)%nat ->
  rangeOffsets tabSize lineText start from n !! j =
  Some (Some (col (from + j) - col start)).
Proof.
  intros Hj. unfold rangeOffsets. rewrite list_lookup_fmap, lookup_seq_lt by done.
  done.
Qed.

Lemma strictlyIncreasing_tail (p : LineToken) (rest : list LineToken) :
  strictlyIncreasing (p :: rest) ->
  strictlyIncreasing rest /\
  forall q, head rest = Some q -> startIndex p < startIndex q.
Proof.
  intros Hinc. split.
  - intros i j a b Hij Ha Hb. apply (Hinc (S i) (S j) a b); [lia|done|done].
  - intros q Hq. apply (Hinc 0%nat 1%nat p q); [lia|done|].
    by destruct rest; [|injection Hq as ->].
Qed.

Lemma partOffsets_lookup (rem : list LineToken) :
  forall (from : nat) (pre : list (option Z)) (j i : nat) (part : LineToken),
  length pre = from -> (from <= length lineText)%nat ->
  strictlyIncreasing rem ->
  (forall p, head rem = Some p -> Z.of_nat from = Z.min len (startIndex p)) ->
  rem !! j = Some part ->
  startIndex part <= Z.of_nat i -> (i < length lineText)%nat ->
  Z.of_nat i < match rem !! S j with
               | Some nextPart => startIndex nextPart
               | None => len
               end ->
  (pre ++ partOffsets tabSize lineText from rem) !! i =
  Some (Some (col i - col (Z.to_nat (startIndex part)))).
Proof.
  induction rem as [|p rest IH];
    intros from pre j i part Hpre Hfrom Hinc Hhead Hj Hlo Hi Hhi; [done|].
  cbn [partOffsets].
  destruct (strictlyIncreasing_tail p rest Hinc) as [Hinc' Hnext].
  specialize (Hhead p eq_refl).
  set (n := rangeLength lineText from rest).
  destruct j as [|j].
  - injection Hj as <-. cbn [lookup list_lookup] in Hhi.
    assert (Hstart : Z.of_nat from = startIndex p) by lia.
    assert (Hn : (i - from < n)%nat).
    { subst n. unfold rangeLength, rangeEnd.
      destruct rest as [|q rest]; cbn in Hhi; lia. }
    rewrite lookup_app_r by lia. rewrite Hpre.
    rewrite lookup_app_l by (rewrite rangeOffsets_length; lia).
    rewrite rangeOffsets_lookup by done.
    replace (from + (i - from))%nat with i by lia.
    by replace (Z.to_nat (startIndex p)) with from by lia.
  - rewrite app_assoc.
    apply (IH (from + n)%nat _ j i part); try done.
    + rewrite length_app, rangeOffsets_length. lia.
    + subst n. unfold rangeLength, rangeEnd. destruct rest; lia.
    + intros q Hq. specialize (Hnext q Hq). subst n.
      unfold rangeLength, rangeEnd. destruct rest as [|q' rest]; [done|].
      injection Hq as ->. lia.
Qed.

Lemma column_no_tab (i : nat) :
  Forall (fun c => c <> _tab) lineText -> (i <= length lineText)%nat ->
  col i = Z.of_nat i.
Proof.
  intros Hno. induction i as [|i IH]; intros Hi; [done|].
  destruct (lineText !! i) as [c|] eqn:Hc.
  2:{ apply lookup_ge_None in Hc. lia. }
  unfold column in *. rewrite (take_S_r _ _ _ Hc).
  assert (Happ : forall c0 cs cs', columnAfter tabSize c0 (cs ++ cs') =
                   columnAfter tabSize (columnAfter tabSize c0 cs) cs').
  { intros c0 cs. revert c0. induction cs as [|x cs IHcs]; intros c0 cs'; simpl;
      [done|apply IHcs]. }
  rewrite Happ, IH by lia. cbn. unfold charWidth.
  rewrite Forall_forall in Hno.
  destruct (Z.eqb_spec c _tab) as [->|_]; [|lia].
  exfalso. apply (Hno _tab); [|done]. by eapply list_elem_of_lookup_2.
Qed.

End Offsets.

Lemma renderLine_untruncated (lineText : jsstring) (size limit : Z)
    (flag : bool) (ps : list LineToken) :
  lineText <> [] -> ps <> [] ->
  limit = -1 \/ Z.of_nat (length lineText) < limit ->
  exists cb,
    Z.of_nat (length lineText) <= cb /\
    renderLine (mkRenderLineInput lineText size limit flag ps) =
    Ok (renderLineActual lineText (Z.of_nat (length lineText)) size ps flag cb).
Proof.
  intros Hline Hps Hlimit.
  rewrite renderLine_nonempty by done.
  cbn [lineContent tabSize renderWhitespace parts stopRenderingLineAfter].
  eexists. split; [|reflexivity].
  destruct (Z.eqb_spec limit (-1)); lia.
Qed.

(** X6.  The untruncated output in closed form.  With a positive tab size and
    no limit (or one beyond the line), the table is the offsets of the parts
    followed by the width of the last part, the part index is that of the last
    part, and the fragments are the opening of the line, then for each part
    its opening, what the switch pushes for each character of its range at
    the column of the character, and its closing, then the closing of the
    line. *)
Theorem untruncated_closed_form (lineText : jsstring) (size limit : Z)
    (flag : bool) (ps : list LineToken) :
  0 < size -> lineText <> [] -> ps <> [] ->
  limit = -1 \/ Z.of_nat (length lineText) < limit ->
  renderLine (mkRenderLineInput lineText size limit flag ps) =
  Ok (mkOutput
        (partOffsets size lineText 0 ps ++ [Some (finalOffset size lineText 0 ps)])
        (Z.of_nat (length ps) - 1)
        (str "<span>" :: partSpans size flag lineText 0 ps ++ [str "</span>"])).
Proof.
  intros Hsize Hline Hps Hlimit.
  destruct (renderLine_untruncated lineText size limit flag ps Hline Hps Hlimit)
    as (cb & Hcb & ->).
  by rewrite renderLineActual_closed.
Qed.

(** X7.  The offset of a character is its column from the start of its part.
    With a positive tab size, no limit (or one beyond the line) and valid
    parts, the entry of the table for the character at [i], in the range of
    the part [k], is the column of [i] less the column of the start index of
    that part; on a line without tabs this is [i] less the start index. *)
Theorem offsets_are_columns (lineText : jsstring) (size limit : Z)
    (flag : bool) (ps : list LineToken) (o : IRenderLineOutput) :
  0 < size -> validTokens ps ->
  limit = -1 \/ Z.of_nat (length lineText) < limit ->
  renderLine (mkRenderLineInput lineText size limit flag ps) = Ok o ->
  forall (k i : nat) (part : LineToken),
    ps !! k = Some part -> (i < length lineText)%nat ->
    tokenContains (Z.of_nat (length lineText)) ps k (Z.of_nat i) ->
    charOffsetInPart o !! i =
      Some (Some (column size lineText i
                  - column size lineText (Z.to_nat (startIndex part)))) /\
    (Forall (fun c => c <> _tab) lineText ->
     charOffsetInPart o !! i = Some (Some (Z.of_nat i - startIndex part))).
Proof.
  intros Hsize [(p0 & rest & Hps & Hp0) Hinc] Hlimit Hok k i part Hk Hi
    (part' & Hk' & Hlo & Hhi).
  rewrite Hk in Hk'. injection Hk' as <-.
  assert (Hline : lineText <> []) by (intros ->; simpl in Hi; lia).
  assert (Hne : ps <> []) by (by rewrite Hps).
  destruct (renderLine_untruncated lineText size limit flag ps Hline Hne Hlimit)
    as (cb & Hcb & Hr).
  rewrite Hr in Hok. injection Hok as <-.
  rewrite renderLineActual_closed by done. cbn [charOffsetInPart].
  assert (Hentry :
    partOffsets size lineText 0 ps !! i =
    Some (Some (column size lineText i
                - column size lineText (Z.to_nat (startIndex part))))).
  { apply (partOffsets_lookup lineText size ps 0 [] k i part); try done; [lia|].
    intros p Hp. rewrite Hps in Hp. injection Hp as <-. lia. }
  assert (Hlookup : forall x,
    partOffsets size lineText 0 ps !! i = Some x ->
    (partOffsets size lineText 0 ps ++
       [Some (finalOffset size lineText 0 ps)]) !! i = Some x).
  { intros x Hx. by apply lookup_app_l_Some. }
  split; [by apply Hlookup|].
  intros Hno. rewrite (Hlookup _ Hentry).
  rewrite !(column_no_tab lineText size _ Hno) by lia.
  assert (Hnn : 0 <= startIndex part).
  { destruct k as [|k].
    - rewrite Hps in Hk. injection Hk as <-. lia.
    - assert (ps !! 0%nat = Some p0) as H0 by (by rewrite Hps).
      pose proof (Hinc 0%nat (S k) p0 part ltac:(lia) H0 Hk). lia. }
  do 2 f_equal. lia.
Qed.

(** ** Plain text and tabs *)

Lemma charFragments_ordinary (size : Z) (prw : bool) (c0 c : Z) :
  c ∉ special -> charFragments size prw c0 c = [[c]].
Proof.
  intros Hc. unfold charFragments, renderCharCode.
  assert (Hne : forall x, x ∈ special -> (c =? x) = false).
  { intros x Hx. apply Z.eqb_neq. intros ->. done. }
  rewrite !Hne by solve_elem. reflexivity.
Qed.

Lemma rangeFragments_ordinary (size : Z) (prw : bool) (lineText : jsstring)
    (n from : nat) :
  Forall (fun c => c ∉ special) lineText ->
  (from + n <= length lineText)%nat ->
  rangeFragments size prw lineText from n =
  (fun c => [c]) <$> take n (drop from lineText).
Proof.
  intros Hplain. revert from. induction n as [|n IH]; intros from Hn; [done|].
  destruct (lineText !! from) as [c|] eqn:Hc.
  2:{ apply lookup_ge_None in Hc. lia. }
  rewrite (rangeFragments_S lineText size prw from n c Hc), IH by lia.
  rewrite (drop_S _ _ _ Hc). cbn [take fmap list_fmap].
  rewrite charFragments_ordinary; [done|].
  rewrite Forall_forall in Hplain. apply Hplain.
  by eapply list_elem_of_lookup_2.
Qed.

(** X8.  Plain text is rendered as it is.  A line of characters that the
    switch has no case for, in one part, with a positive tab size and no limit
    (or one beyond the line): the fragments are the opening of the line and of
    the part, the characters one by one, and the two closings; the table is
    [0], [1], ... up to the length of the line. *)
Theorem plain_text (lineText : jsstring) (size limit : Z) (flag : bool)
    (part : LineToken) :
  0 < size -> lineText <> [] ->
  Forall (fun c => c ∉ special) lineText ->
  limit = -1 \/ Z.of_nat (length lineText) < limit ->
  renderLine (mkRenderLineInput lineText size limit flag [part]) =
  Ok (mkOutput
        ((fun i => Some (Z.of_nat i)) <$> seq 0 (S (length lineText))) 0
        ([str "<span>"; tokenOpen; type part; tokenClose] ++
         ((fun c => [c]) <$> lineText) ++ [str "</span>"; str "</span>"])).
Proof.
  intros Hsize Hline Hplain Hlimit.
  destruct (renderLine_untruncated lineText size limit flag [part] Hline
              ltac:(done) Hlimit) as (cb & Hcb & ->).
  rewrite renderLineActual_closed by done.
  assert (Hno : Forall (fun c => c <> _tab) lineText).
  { eapply Forall_impl; [exact Hplain|]. intros c Hc ->. apply Hc. solve_elem. }
  assert (Hn : rangeLength lineText 0 [] = length lineText).
  { unfold rangeLength, rangeEnd. lia. }
  cbn [partOffsets partSpans finalOffset length]. rewrite Hn.
  rewrite rangeFragments_ordinary by (done || lia).
  rewrite drop_0, firstn_all, !app_nil_r, Nat.add_0_l.
  f_equal. f_equal.
  - rewrite seq_S, fmap_app. cbn [fmap list_fmap Nat.add]. f_equal.
    + unfold rangeOffsets. apply list_fmap_ext. intros j i Hi.
      apply lookup_seq in Hi as [-> Hi].
      rewrite !(column_no_tab lineText size _ Hno) by lia. f_equal. lia.
    + rewrite !(column_no_tab lineText size _ Hno) by lia. do 2 f_equal. lia.
  - by rewrite <- !app_assoc.
Qed.

Lemma column_tabs (size : Z) (k i : nat) :
  0 < size -> (i <= k)%nat ->
  column size (replicate k _tab) i = Z.of_nat i * size.
Proof.
  intros Hsize. induction i as [|i IH]; intros Hi; [done|].
  rewrite (column_S (replicate k _tab) size i _tab)
    by (apply lookup_replicate_2; lia).
  rewrite IH by lia. unfold charWidth. cbn. rewrite Z.mod_mul by lia. lia.
Qed.

Lemma charFragments_tab (size : Z) (prw : bool) (i : Z) :
  0 < size ->
  charFragments size prw (i * size) _tab =
  (if prw then str "&rarr;" else nbsp) :: replicate (Z.to_nat (size - 1)) nbsp.
Proof.
  intros Hsize. unfold charFragments, renderCharCode. cbn [Z.eqb _tab Pos.eqb].
  rewrite renderTab_out. cbn [Locals.out Locals.charIndex Locals.tabsCharDelta app].
  rewrite Z.add_0_l, Z.rem_mul by lia. rewrite Z.sub_0_r.
  destruct (Z.ltb_spec 0 size); [done|lia].
Qed.

(** X9.  Tabs from the start of the line reach the tab stops.  A line of [k]
    tabs in one part, with a positive tab size and no limit (or one beyond the
    line): each tab is rendered as as many fragments as the tab size, the
    first of them [&rarr;] when the part renders whitespace, and the table is
    [0], the tab size, twice the tab size, ... up to [k] times the tab
    size. *)
Theorem tabs_reach_stops (k : nat) (size limit : Z) (flag : bool)
    (part : LineToken) :
  0 < size -> (0 < k)%nat ->
  limit = -1 \/ Z.of_nat k < limit ->
  let prw := if flag then isWhitespace (type part) else false in
  let glyphs :=
    (if prw then str "&rarr;" else nbsp) :: replicate (Z.to_nat (size - 1)) nbsp in
  renderLine (mkRenderLineInput (replicate k _tab) size limit flag [part]) =
  Ok (mkOutput
        ((fun i => Some (Z.of_nat i * size)) <$> seq 0 (S k)) 0
        ([str "<span>"; tokenOpen; type part; tokenClose] ++
         concat (replicate k glyphs) ++ [str "</span>"; str "</span>"])) /\
  Z.of_nat (length glyphs) = size.
Proof.
  intros Hsize Hk Hlimit prw glyphs.
  split; [|subst glyphs; cbn [length]; rewrite length_replicate; lia].
  assert (Hline : replicate k _tab <> []) by (destruct k; [lia|done]).
  destruct (renderLine_untruncated (replicate k _tab) size limit flag [part] Hline
              ltac:(done) ltac:(by rewrite length_replicate))
    as (cb & Hcb & ->).
  rewrite renderLineActual_closed by done.
  assert (Hn : rangeLength (replicate k _tab) 0 [] = k).
  { unfold rangeLength, rangeEnd. rewrite length_replicate. lia. }
  cbn [partOffsets partSpans finalOffset length]. rewrite Hn.
  rewrite !app_nil_r, Nat.add_0_l. fold prw.
  f_equal. f_equal.
  - rewrite seq_S, fmap_app. cbn [fmap list_fmap Nat.add]. f_equal.
    + unfold rangeOffsets. apply list_fmap_ext. intros j i Hi.
      apply lookup_seq in Hi as [-> Hi].
      rewrite !(column_tabs size k) by lia. f_equal. lia.
    + rewrite !(column_tabs size k) by lia. do 2 f_equal. lia.
  - rewrite <- !app_assoc. do 4 f_equal. cbn [app]. f_equal.
    unfold rangeFragments.
    assert (Hfrags : forall m, (m <= k)%nat ->
      (fun i => match replicate k _tab !! i with
                | Some c => charFragments size prw
                              (column size (replicate k _tab) i) c
                | None => []
                end) <$> seq 0 m = replicate m glyphs).
    { induction m as [|m IH]; intros Hm; [done|].
      rewrite seq_S, fmap_app, IH by lia. cbn [fmap list_fmap Nat.add].
      rewrite lookup_replicate_2 by lia.
      rewrite column_tabs, charFragments_tab by lia.
      fold glyphs. by rewrite <- replicate_S_end. }
    by rewrite Hfrags.
Qed.

(** X10.  A tab ends at a tab stop.  With a positive tab size, in a state of
    the scan at a tab, the column after the iteration,
    [charIndex + 1 + tabsCharDelta], is a multiple of the tab size, beyond the
    column before by at least one and at most the tab size. *)
Theorem tab_ends_at_stop (lineText : jsstring) (size : Z) (prw : bool)
    (s : Locals.t) :
  0 < size -> tabs_inv s ->
  charCodeAt lineText (Locals.charIndex s) = Some _tab ->
  let before := Locals.charIndex s + Locals.tabsCharDelta s in
  let after :=
    Locals.charIndex s + 1
    + Locals.tabsCharDelta (renderChar lineText size prw s) in
  after mod size = 0 /\ before < after <= before + size.
Proof.
  intros Hsize [Hci Htcd] Htab before after. subst before after.
  unfold renderChar. cbn [Locals.tabsCharDelta]. rewrite Htab.
  set (s0 := Locals.mk _ _ _ _ _).
  pose proof (renderCharCode_counters lineText size prw (Some _tab) s0) as [Hc _].
  destruct (Hc eq_refl) as [-> _]. subst s0.
  cbn [Locals.charIndex Locals.tabsCharDelta].
  rewrite Z.rem_mod_nonneg by lia.
  set (c0 := Locals.charIndex s + Locals.tabsCharDelta s).
  pose proof (Z.mod_pos_bound c0 size Hsize) as Hb.
  split; [|lia].
  replace (Locals.charIndex s + 1
           + (Locals.tabsCharDelta s + (size - c0 mod size - 1)))
    with (c0 - c0 mod size + 1 * size) by (subst c0; lia).
  rewrite Z.mod_add by lia.
  rewrite (Z.div_mod c0 size) at 1 by lia.
  replace (size * (c0 / size) + c0 mod size - c0 mod size)
    with ((c0 / size) * size) by lia.
  apply Z.mod_mul. lia.
Qed.

(** ** Telling a truncated output *)

(** X11.  For a line that is not empty, the last fragment is the ellipsis
    marker exactly when the break index is inside the line; otherwise the last
    fragment is the closing of the line and the part index is that of the last
    part.  The part index is always that of a part. *)
Theorem truncated_iff_ellipsis (input : RenderLineInput) (o : IRenderLineOutput) :
  renderLine input = Ok o -> lineContent input <> [] ->
  let len := Z.of_nat (length (lineContent input)) in
  let cb := if stopRenderingLineAfter input =? -1 then len
            else stopRenderingLineAfter input - 1 in
  (cb < len <-> last (output o) = Some ellipsis) /\
  (len <= cb ->
   last (output o) = Some (str "</span>") /\
   lastRenderedPartIndex o = Z.of_nat (length (parts input)) - 1) /\
  0 <= lastRenderedPartIndex o < Z.of_nat (length (parts input)).
Proof.
  intros Hok Hline len cb.
  assert (Hparts : parts input <> []).
  { intros Hnil. unfold renderLine in Hok. rewrite Hnil in Hok.
    destruct (lineContent input); [done|]. discriminate Hok. }
  rewrite renderLine_nonempty in Hok by done. injection Hok as <-.
  fold len cb.
  pose proof (length_pos_nonempty _ Hline) as Hlen.
  pose proof (length_pos_nonempty _ Hparts) as Hcount.
  destruct (Z.le_gt_cases len cb) as [Hcb|Hcb].
  - destruct (scan_complete (lineContent input) len (tabSize input)
                (renderWhitespace input) (parts input) Hlen Hparts cb Hcb)
      as (s & _ & -> & _).
    cbn [completed output lastRenderedPartIndex]. rewrite last_snoc.
    split; [split; [lia|discriminate]|]. split; [done|lia].
  - destruct (scan_truncated (lineContent input) len (tabSize input)
                (renderWhitespace input) (parts input) Hlen Hparts cb len Hcb
                (Z.le_refl _))
      as (_ & s1 & j & part & _ & -> & Hj & _).
    cbn [truncated output lastRenderedPartIndex]. rewrite last_snoc.
    apply lookup_lt_Some in Hj.
    split; [done|]. split; lia.
Qed.

(** ** The cut scan in closed form *)

Section ClosedCut.

Variable lineText : jsstring.
Variable tabSize : Z.
Variable flag : bool.
Variable cb : Z.
Variable upto : nat.

Hypothesis tabSize_pos : 0 < tabSize.
Hypothesis upto_cb : Z.of_nat upto = cb + 1.

Local Abbreviation ci := Locals.charIndex.
Local Abbreviation tcd := Locals.tabsCharDelta.
Local Abbreviation coip := Locals.charOffsetInPart.
Local Abbreviation arr := Locals.charOffsetInPartArr.
Local Abbreviation col := (column tabSize lineText).
Local Abbreviation len := (Z.of_nat (length lineText)).

(** The loop over the characters of a part that holds the character before
    [upto]: it is left there. *)
Lemma charLoop_closed_cut (prw : bool) (to pi : Z) (start : nat) (fuel : nat)
    (s : Locals.t) (i : nat) :
  inv s -> ci s = Z.of_nat i -> ci s + tcd s = col i ->
  coip s = col i - col start ->
  to <= len -> (i < upto)%nat -> Z.of_nat upto <= to ->
  (Z.to_nat (to - ci s) <= fuel)%nat ->
  exists s1,
    charLoop lineText tabSize cb fuel prw to pi s = Return (truncated pi s1) /\
    Locals.out s1 =
      Locals.out s ++ rangeFragments tabSize prw lineText i (upto - i) /\
    arr s1 = arr s ++ rangeOffsets tabSize lineText start i (upto - i).
Proof.
  revert s i. induction fuel as [|fuel IH];
    intros s i Hinv Hci Hcol Hcoip Hto Hi Hupto Hfuel; [lia|].
  cbn [charLoop]. destruct (Z.ltb_spec (ci s) to) as [Hlt|Hge]; [|lia].
  destruct (lineText !! i) as [c|] eqn:Hc.
  2:{ apply lookup_ge_None in Hc. lia. }
  destruct (renderChar_column lineText tabSize tabSize_pos prw s i c Hinv Hci Hc
              Hcol) as (Hci1 & Hout1 & Harr1 & Hcoip1 & Hcol1).
  rewrite Hci1. destruct (Z.leb_spec cb (Z.of_nat i)) as [Hcut|Hgo].
  - exists (renderChar lineText tabSize prw s). split; [done|].
    assert ((upto - i)%nat = 1%nat) as -> by lia.
    rewrite Hout1, Harr1, Hcoip, (rangeFragments_S lineText tabSize prw i 0 c Hc).
    unfold rangeFragments, rangeOffsets. cbn. by rewrite app_nil_r.
  - pose proof (renderChar_next_inv lineText tabSize prw s Hinv) as Hinv1.
    rewrite Hci1 in Hinv1.
    match goal with
    | |- context [charLoop _ _ _ fuel _ _ _ ?s1'] => set (s1 := s1') in *
    end.
    rewrite Hci1 in Hcol1.
    assert (A1 : ci s1 = Z.of_nat (S i)) by (subst s1; cbn; lia).
    assert (A2 : ci s1 + tcd s1 = col (S i))
      by (subst s1; cbn [Locals.charIndex Locals.tabsCharDelta]; lia).
    assert (A3 : coip s1 = col (S i) - col start)
      by (subst s1; cbn [Locals.charOffsetInPart]; lia).
    assert (A4 : (Z.to_nat (to - ci s1) <= fuel)%nat) by lia.
    destruct (IH s1 (S i) Hinv1 A1 A2 A3 Hto ltac:(lia) Hupto A4)
      as (sF & HF & HoutF & HarrF).
    exists sF. split; [done|].
    assert ((upto - i)%nat = S (upto - S i)) as -> by lia.
    split.
    + rewrite HoutF. subst s1. cbn [Locals.out].
      rewrite Hout1, (rangeFragments_S lineText tabSize prw i _ c Hc), app_assoc.
      done.
    + rewrite HarrF. subst s1. cbn [Locals.charOffsetInPartArr].
      rewrite Harr1, Hcoip, <- app_assoc. done.
Qed.

Lemma take_rangeOffsets (start from n k : nat) :
  (k <= n)%nat ->
  take k (rangeOffsets tabSize lineText start from n) =
  rangeOffsets tabSize lineText start from k.
Proof.
  intros Hk. unfold rangeOffsets. rewrite <- fmap_take, take_seq.
  by rewrite Nat.min_l.
Qed.

(** The loop over the parts, entered before the character before [upto]. *)
Lemma partLoop_closed_cut (rem : list LineToken) (pi : Z) (s : Locals.t)
    (from : nat) :
  rem <> [] -> (upto <= length lineText)%nat ->
  inv s -> ci s = Z.of_nat from -> (from < upto)%nat ->
  ci s + tcd s = col from ->
  exists s1,
    partLoop lineText len tabSize flag cb pi rem s =
      Return (truncated (pi + Z.of_nat (cutIndex lineText upto from rem)) s1) /\
    Locals.out s1 = Locals.out s ++ cutSpans tabSize flag lineText upto from rem /\
    arr s1 = arr s ++ take (upto - from) (partOffsets tabSize lineText from rem).
Proof.
  intros Hrem Hlen. revert Hrem pi s from.
  induction rem as [|part rest IH]; intros Hrem pi s from Hinv Hci Hfrom Hcol;
    [done|].
  cbn [partLoop cutSpans cutIndex partOffsets]. unfold renderPart.
  fold (rangeEnd len rest).
  set (n := rangeLength lineText from rest).
  set (prw := if flag then isWhitespace (type part) else false).
  cbn [Locals.push Locals.charIndex Locals.out Locals.charOffsetInPartArr
       Locals.tabsCharDelta].
  set (s2 := Locals.mk _ _ _ _ _).
  assert (Hto : rangeEnd len rest <= len) by (unfold rangeEnd; destruct rest; lia).
  assert (Hn : n = Z.to_nat (rangeEnd len rest - Z.of_nat from)) by done.
  assert (Hlength : length (rangeOffsets tabSize lineText from from n) = n).
  { unfold rangeOffsets. by rewrite length_fmap, length_seq. }
  destruct (Nat.leb_spec upto (from + n)) as [Hcut|Hgo].
  - destruct (charLoop_closed_cut prw (rangeEnd len rest) pi from
                (Z.to_nat (rangeEnd len rest - ci s)) s2 from Hinv Hci Hcol)
      as (s1 & H1 & Hout1 & Harr1);
      [subst s2; cbn [Locals.charOffsetInPart]; lia | lia | lia | lia
      | subst s2; cbn [Locals.charIndex]; lia |].
    change (ci s2) with (ci s) in *. rewrite H1.
    exists s1. rewrite Z.add_0_r. split; [done|]. split.
    + rewrite Hout1. subst s2. cbn [Locals.out]. rewrite <- !app_assoc. done.
    + rewrite Harr1. subst s2. cbn [Locals.charOffsetInPartArr].
      rewrite take_app_le by lia. rewrite take_rangeOffsets by lia. done.
  - assert (Hrest : rest <> []).
    { intros ->. cbn [rangeEnd] in Hn. lia. }
    destruct (charLoop_closed lineText tabSize tabSize_pos cb prw
                (rangeEnd len rest) pi from (Z.to_nat (rangeEnd len rest - ci s))
                s2 from Hinv Hci Hcol)
      as (sF1 & HF1 & HinvF1 & HciF1 & HcolF1 & HcoipF1 & HoutF1 & HarrF1);
      [subst s2; cbn [Locals.charOffsetInPart]; lia | lia | lia
      | subst s2; cbn [Locals.charIndex]; lia |].
    change (ci s2) with (ci s) in *. rewrite Hci in *. rewrite HF1.
    rewrite <- Hn in *.
    destruct (IH Hrest (pi + 1) (Locals.push (str "</span>") sF1) (from + n)%nat
                HinvF1 HciF1 ltac:(lia) HcolF1)
      as (s1 & H1 & Hout1 & Harr1).
    exists s1. rewrite H1. split; [f_equal; f_equal; lia|]. split.
    + rewrite Hout1. cbn [Locals.push Locals.out]. rewrite HoutF1.
      subst s2. cbn [Locals.out]. rewrite <- !app_assoc. done.
    + rewrite Harr1. cbn [Locals.push Locals.charOffsetInPartArr]. rewrite HarrF1.
      subst s2. cbn [Locals.charOffsetInPartArr].
      rewrite take_app_ge by lia. rewrite Hlength, <- app_assoc.
      do 3 f_equal. lia.
Qed.

End ClosedCut.

(** X12.  The closed form of a truncated rendering.  Under a limit from [1]
    to the length of the line, the output has the fragments of the parts up to
    the character at the limit and then the ellipsis marker, the part index
    counts the parts that were closed before it, and the table is that of the
    uncut line up to that character, whose entry is one more. *)
Theorem truncated_closed_form (lineText : jsstring) (size limit : Z)
    (flag : bool) (ps : list LineToken) :
  0 < size -> ps <> [] -> 1 <= limit <= Z.of_nat (length lineText) ->
  renderLine (mkRenderLineInput lineText size limit flag ps) =
  Ok (mkOutput
        (array_incr_last (take (Z.to_nat limit) (partOffsets size lineText 0 ps)))
        (Z.of_nat (cutIndex lineText (Z.to_nat limit) 0 ps))
        (str "<span>" :: cutSpans size flag lineText (Z.to_nat limit) 0 ps ++
           [ellipsis])).
Proof.
  intros Hsize Hps Hlimit.
  assert (Hline : lineText <> []) by (intros ->; cbn in Hlimit; lia).
  rewrite renderLine_nonempty by done.
  cbn [lineContent parts stopRenderingLineAfter tabSize renderWhitespace].
  destruct (Z.eqb_spec limit (-1)) as [?|_]; [lia|].
  unfold renderLineActual.
  destruct (partLoop_closed_cut lineText size flag (limit - 1) (Z.to_nat limit)
              Hsize ltac:(lia) ps 0 initial 0%nat Hps ltac:(lia) inv_initial
              eq_refl ltac:(lia) eq_refl) as (s1 & -> & Hout & Harr).
  unfold truncated. rewrite Hout, Harr, Z.add_0_l, Nat.sub_0_r.
  cbn [initial Locals.out Locals.charOffsetInPartArr app]. done.
Qed.

(** ** What the whitespace flag changes *)

Lemma marked_refl (l : list jsstring) : Forall2 marked l l.
Proof. apply Forall_Forall2_diag, Forall_forall. intros f _. by left. Qed.

Section Marks.

Variable lineText : jsstring.
Variable lineTextLength : Z.
Variable tabSize : Z.
Variable charBreakIndex : Z.

Lemma renderCharCode_marks (prw' : bool) (cc : option Z) (s s' : Locals.t) :
  marks s s' ->
  marks (renderCharCode lineText tabSize false cc s)
        (renderCharCode lineText tabSize prw' cc s').
Proof.
  intros (Hci & Harr & Hcoip & Htcd & Hout).
  assert (Hpush : forall x y,
    marked x y -> marks (Locals.push x s) (Locals.push y s')).
  { intros x y Hxy. unfold marks, Locals.push. cbn.
    do 4 (split; [done|]). apply Forall2_app; [done|]. by constructor. }
  unfold renderCharCode. rewrite Hci. destruct cc as [c|]; [|apply Hpush; by left].
  destruct (c =? _tab).
  { unfold marks. rewrite !renderTab_out. unfold renderTab.
    cbn [Locals.charIndex Locals.charOffsetInPartArr Locals.charOffsetInPart
         Locals.tabsCharDelta].
    rewrite Hci, Harr, Hcoip, Htcd. do 4 (split; [done|]).
    apply Forall2_app; [done|].
    destruct (0 <? _); [|constructor].
    constructor; [|apply marked_refl].
    destruct prw'; [right; split; [done|by left] | by left]. }
  repeat match goal with
         | |- context [if ?b then _ else _] => destruct b
         end;
    apply Hpush; first [by left | right; split; [done|by right]].
Qed.

Lemma renderChar_marks (prw' : bool) (s s' : Locals.t) :
  marks s s' ->
  marks (renderChar lineText tabSize false s) (renderChar lineText tabSize prw' s').
Proof.
  intros Hmarks. pose proof Hmarks as (Hci & Harr & Hcoip & Htcd & Hout).
  unfold renderChar. rewrite Hci, Harr, Hcoip.
  match goal with
  | |- context [renderCharCode _ _ false ?cc ?s0] =>
      match goal with
      | |- context [renderCharCode _ _ prw' cc ?s0'] =>
          assert (H0 : marks (renderCharCode lineText tabSize false cc s0)
                             (renderCharCode lineText tabSize prw' cc s0'))
      end
  end.
  { apply renderCharCode_marks. unfold marks. cbn. by rewrite Htcd. }
  destruct H0 as (H1 & H2 & H3 & H4 & H5).
  unfold marks. cbn. by rewrite H1, H2, H3, H4.
Qed.

Lemma charLoop_marks (prw' : bool) (to pi : Z) (fuel : nat) (s s' : Locals.t) :
  marks s s' ->
  marksFlow (charLoop lineText tabSize charBreakIndex fuel false to pi s)
            (charLoop lineText tabSize charBreakIndex fuel prw' to pi s').
Proof.
  revert s s'. induction fuel as [|fuel IH]; intros s s' Hmarks; cbn [charLoop].
  - exact Hmarks.
  - pose proof Hmarks as (Hci & _). rewrite <- Hci.
    destruct (Locals.charIndex s <? to); [|exact Hmarks].
    pose proof (renderChar_marks prw' s s' Hmarks) as (H1 & H2 & H3 & H4 & H5).
    rewrite <- H1. destruct (charBreakIndex <=? _).
    + unfold marksFlow, marksOutput, truncated.
      cbn [charOffsetInPart lastRenderedPartIndex output].
      rewrite H2. do 2 (split; [done|]).
      apply Forall2_app; [done|apply marked_refl].
    + apply IH. unfold marks.
      cbn [Locals.charIndex Locals.charOffsetInPartArr Locals.charOffsetInPart
           Locals.tabsCharDelta Locals.out].
      by rewrite H1, H2, H3, H4.
Qed.

Lemma partLoop_marks (flag' : bool) (ps : list LineToken) (pi : Z)
    (s s' : Locals.t) :
  marks s s' ->
  marksFlow
    (partLoop lineText lineTextLength tabSize false charBreakIndex pi ps s)
    (partLoop lineText lineTextLength tabSize flag' charBreakIndex pi ps s').
Proof.
  revert pi s s'. induction ps as [|p ps IH]; intros pi s s' Hmarks;
    [exact Hmarks|].
  cbn [partLoop]. unfold renderPart. cbv iota.
  pose proof Hmarks as (Hci & Harr & Hcoip & Htcd & Hout).
  cbn [Locals.push Locals.charIndex Locals.out Locals.charOffsetInPartArr
       Locals.tabsCharDelta].
  rewrite <- Hci.
  set (to := match ps with
             | nextPart :: _ => Z.min lineTextLength (startIndex nextPart)
             | [] => lineTextLength
             end).
  set (q' := if flag' then isWhitespace (type p) else false).
  set (s0 := Locals.mk (Locals.charIndex s)
               (((Locals.out s ++ [tokenOpen]) ++ [type p]) ++ [tokenClose])
               (Locals.charOffsetInPartArr s) 0 (Locals.tabsCharDelta s)).
  set (s0' := Locals.mk (Locals.charIndex s)
                (((Locals.out s' ++ [tokenOpen]) ++ [type p]) ++ [tokenClose])
                (Locals.charOffsetInPartArr s') 0 (Locals.tabsCharDelta s')).
  assert (H0 : marks s0 s0').
  { unfold marks. subst s0 s0'. cbn. rewrite Harr, Htcd. do 4 (split; [done|]).
    repeat (apply Forall2_app; [|apply marked_refl]). done. }
  pose proof (charLoop_marks q' to pi (Z.to_nat (to - Locals.charIndex s))
                s0 s0' H0) as Hloop.
  destruct (charLoop lineText tabSize charBreakIndex
              (Z.to_nat (to - Locals.charIndex s)) false to pi s0) as [s3|o];
    destruct (charLoop lineText tabSize charBreakIndex
                (Z.to_nat (to - Locals.charIndex s)) q' to pi s0') as [s3'|o'];
    try done.
  apply IH.
  destruct Hloop as (H1 & H2 & H3 & H4 & H5).
  unfold marks, Locals.push. cbn. rewrite H1, H2, H3, H4.
  do 4 (split; [done|]). apply Forall2_app; [done|apply marked_refl].
Qed.

End Marks.

(** X13.  The whitespace flag only puts marks where there were non-breaking
    spaces.  When the input without the flag has an output, the input with
    the flag has one as well, with the same table and the same part index,
    and fragment by fragment the same fragments, but for [&rarr;] or
    [&middot;] in the place of some [&nbsp;]. *)
Theorem whitespace_flag_marks (lineText : jsstring) (size limit : Z)
    (ps : list LineToken) (o : IRenderLineOutput) :
  renderLine (mkRenderLineInput lineText size limit false ps) = Ok o ->
  exists o',
    renderLine (mkRenderLineInput lineText size limit true ps) = Ok o' /\
    charOffsetInPart o' = charOffsetInPart o /\
    lastRenderedPartIndex o' = lastRenderedPartIndex o /\
    Forall2 marked (output o) (output o').
Proof.
  unfold renderLine.
  cbn [lineContent parts stopRenderingLineAfter tabSize renderWhitespace].
  destruct (Z.of_nat (length lineText) =? 0).
  { intros [= <-]. eexists. split; [done|]. do 2 (split; [done|]).
    apply marked_refl. }
  destruct (length ps =? 0)%nat; [discriminate|].
  intros [= <-]. eexists. split; [done|].
  unfold renderLineActual.
  match goal with
  | |- context [partLoop ?l ?n ?t false ?c 0 ps initial] =>
      pose proof (partLoop_marks l n t c true ps 0 initial initial
                    ltac:(repeat split; apply marked_refl)) as Hloop;
      destruct (partLoop l n t false c 0 ps initial) as [s|o];
      destruct (partLoop l n t true c 0 ps initial) as [s'|o']; try done
  end.
  - destruct Hloop as (H1 & H2 & H3 & H4 & H5).
    cbn [charOffsetInPart lastRenderedPartIndex output].
    rewrite H2, H3. do 2 (split; [done|]).
    apply Forall2_app; [done|apply marked_refl].
  - destruct Hloop as (H1 & H2 & H3). by rewrite H1, H2.
Qed.

(** ** The offsets within a part *)

Lemma column_step_bounds (lineText : jsstring) (size : Z) (i j : nat) :
  0 < size -> (i <= j)%nat -> (j <= length lineText)%nat ->
  Z.of_nat (j - i) <= column size lineText j - column size lineText i
    <= size * Z.of_nat (j - i).
Proof.
  intros Hsize Hij. induction Hij as [|j Hij IH]; intros Hj.
  - rewrite Nat.sub_diag. lia.
  - destruct (lineText !! j) as [c|] eqn:Hc.
    2:{ apply lookup_ge_None in Hc. lia. }
    rewrite (column_S lineText size j c Hc).
    pose proof (charWidth_pos size Hsize (column size lineText j) c
                  (column_nonneg lineText size Hsize j)) as Hw.
    specialize (IH ltac:(lia)).
    replace (Z.of_nat (S j - i)) with (Z.of_nat (j - i) + 1) by lia.
    lia.
Qed.

(** The entry of the table for a character in the range of a part. *)
Lemma untruncated_entry (lineText : jsstring) (size limit : Z) (flag : bool)
    (ps : list LineToken) (o : IRenderLineOutput) (k i : nat) (part : LineToken) :
  0 < size -> validTokens ps ->
  limit = -1 \/ Z.of_nat (length lineText) < limit ->
  renderLine (mkRenderLineInput lineText size limit flag ps) = Ok o ->
  ps !! k = Some part -> (i < length lineText)%nat ->
  tokenContains (Z.of_nat (length lineText)) ps k (Z.of_nat i) ->
  0 <= startIndex part <= Z.of_nat i /\
  charOffsetInPart o !! i =
    Some (Some (column size lineText i
                - column size lineText (Z.to_nat (startIndex part)))).
Proof.
  intros Hsize [(p0 & rest & Hps & Hp0) Hinc] Hlimit Hok Hk Hi
    (part' & Hk' & Hlo & Hhi).
  rewrite Hk in Hk'. injection Hk' as <-.
  assert (Hline : lineText <> []) by (intros ->; simpl in Hi; lia).
  assert (Hne : ps <> []) by (by rewrite Hps).
  destruct (renderLine_untruncated lineText size limit flag ps Hline Hne Hlimit)
    as (cb & Hcb & Hr).
  rewrite Hr in Hok. injection Hok as <-.
  rewrite renderLineActual_closed by done. cbn [charOffsetInPart].
  split.
  { split; [|done]. destruct k as [|k].
    - rewrite Hps in Hk. injection Hk as <-. lia.
    - assert (ps !! 0%nat = Some p0) as H0 by (by rewrite Hps).
      pose proof (Hinc 0%nat (S k) p0 part ltac:(lia) H0 Hk). lia. }
  apply lookup_app_l_Some.
  apply (partOffsets_lookup lineText size ps 0 [] k i part); try done; [lia|].
  intros p Hp. rewrite Hps in Hp. injection Hp as <-. lia.
Qed.

(** X14.  Within a part the offsets increase.  With a positive tab size, no
    limit (or one beyond the line) and valid parts, for two characters at
    [i < j] in the range of the same part, the entries of the table are not
    negative and the entry of [j] is beyond the entry of [i] by at least one
    and at most the tab size for each character from [i] to [j]. *)
Theorem offsets_increase_in_part (lineText : jsstring) (size limit : Z)
    (flag : bool) (ps : list LineToken) (o : IRenderLineOutput) :
  0 < size -> validTokens ps ->
  limit = -1 \/ Z.of_nat (length lineText) < limit ->
  renderLine (mkRenderLineInput lineText size limit flag ps) = Ok o ->
  forall (k i j : nat),
    (i < j)%nat -> (j < length lineText)%nat ->
    tokenContains (Z.of_nat (length lineText)) ps k (Z.of_nat i) ->
    tokenContains (Z.of_nat (length lineText)) ps k (Z.of_nat j) ->
    exists v w,
      charOffsetInPart o !! i = Some (Some v) /\
      charOffsetInPart o !! j = Some (Some w) /\
      0 <= v /\ v + Z.of_nat (j - i) <= w <= v + size * Z.of_nat (j - i).
Proof.
  intros Hsize Hvalid Hlimit Hok k i j Hij Hj Hini Hinj.
  pose proof Hini as (part & Hk & _).
  destruct (untruncated_entry lineText size limit flag ps o k i part Hsize Hvalid
              Hlimit Hok Hk ltac:(lia) Hini) as (Hstart & Hvi).
  destruct (untruncated_entry lineText size limit flag ps o k j part Hsize Hvalid
              Hlimit Hok Hk Hj Hinj) as (_ & Hvj).
  eexists _, _. split; [exact Hvi|]. split; [exact Hvj|].
  pose proof (column_step_bounds lineText size (Z.to_nat (startIndex part)) i Hsize
                ltac:(lia) ltac:(lia)) as Hv.
  pose proof (column_step_bounds lineText size i j Hsize ltac:(lia) ltac:(lia))
    as Hw.
  lia.
Qed.

(** * The layout of the output *)

(** ** The ranges of the parts *)

Lemma ranges_length (n from : nat) (ps : list LineToken) :
  length (ranges n from ps) = length ps.
Proof. revert from. induction ps as [|p ps IH]; intros from; simpl; [done|]. by rewrite IH. Qed.

(** The ranges follow one another, from where the first part is entered to
    the end of the line. *)
Lemma ranges_ordered (n : nat) (ps : list LineToken) :
  forall (from j : nat) (a b : nat),
  (from <= n)%nat -> ranges n from ps !! j = Some (a, b) ->
  (from <= a)%nat /\ (a <= b)%nat /\ (b <= n)%nat /\
  b = Nat.max a (Z.to_nat (rangeEnd (Z.of_nat n) (drop (S j) ps))) /\
  (j = 0%nat -> a = from) /\
  (forall a' b', ranges n from ps !! S j = Some (a', b') -> a' = b) /\
  (forall j' a' b', (j < j')%nat -> ranges n from ps !! j' = Some (a', b') ->
     (b <= a')%nat).
Proof.
  induction ps as [|p ps IH]; intros from j a b Hfrom Hj; [done|].
  cbn [ranges] in *.
  set (to := Nat.max from (Z.to_nat (rangeEnd (Z.of_nat n) ps))) in *.
  assert (Hto : (to <= n)%nat).
  { subst to. unfold rangeEnd. destruct ps; lia. }
  destruct j as [|j].
  - injection Hj as <- <-. split; [lia|]. split; [lia|]. split; [done|].
    split; [done|]. split; [done|]. split.
    + intros a' b' H'. cbn in H'.
      destruct (IH to 0%nat a' b' Hto H') as (_ & _ & _ & _ & H0 & _). by apply H0.
    + intros [|j'] a' b' Hlt H'; [lia|]. cbn in H'.
      destruct (IH to j' a' b' Hto H') as (H1 & _). lia.
  - cbn in Hj. destruct (IH to j a b Hto Hj) as (H1 & H2 & H3 & H4 & _ & H6 & H7).
    split; [lia|]. split; [done|]. split; [done|]. split; [done|].
    split; [done|]. split.
    + intros a' b' H'. cbn in H'. by apply (H6 a' b').
    + intros [|j'] a' b' Hlt H'; [lia|]. cbn in H'. apply (H7 j' a' b'); [lia|done].
Qed.

(** Every character of the line is in the range of one part, and of no
    other. *)
Lemma ranges_partition (n : nat) (ps : list LineToken) (from i : nat) :
  ps <> [] -> (from <= i)%nat -> (i < n)%nat ->
  exists j a b,
    ranges n from ps !! j = Some (a, b) /\ (a <= i)%nat /\ (i < b)%nat /\
    forall j' a' b',
      ranges n from ps !! j' = Some (a', b') -> (a' <= i)%nat -> (i < b')%nat ->
      j' = j.
Proof.
  intros Hps Hfrom Hi.
  assert (Hex : exists j a b,
    ranges n from ps !! j = Some (a, b) /\ (a <= i)%nat /\ (i < b)%nat).
  { revert from Hfrom. induction ps as [|p ps IH]; intros from Hfrom; [done|].
    cbn [ranges].
    set (to := Nat.max from (Z.to_nat (rangeEnd (Z.of_nat n) ps))).
    destruct (decide (i < to)%nat) as [Hlt|Hge].
    - exists 0%nat, from, to. done.
    - destruct ps as [|q ps].
      { subst to. cbn [rangeEnd] in Hge. lia. }
      destruct (IH ltac:(done) to ltac:(lia)) as (j & a & b & Hj & Ha & Hb).
      exists (S j), a, b. done. }
  destruct Hex as (j & a & b & Hj & Ha & Hb).
  exists j, a, b. do 3 (split; [done|]).
  intros j' a' b' Hj' Ha' Hb'.
  destruct (ranges_ordered n ps from j a b ltac:(lia) Hj) as (_ & _ & _ & _ & _ & _ & H7).
  destruct (ranges_ordered n ps from j' a' b' ltac:(lia) Hj')
    as (_ & _ & _ & _ & _ & _ & H7').
  destruct (Nat.lt_trichotomy j j') as [Hlt|[->|Hgt]]; [|done|].
  - specialize (H7 j' a' b' Hlt Hj'). lia.
  - specialize (H7' j a b Hgt Hj). lia.
Qed.

(** The ranges of valid parts are from start index to start index, clamped
    to the length of the line. *)
Lemma ranges_valid (n : nat) (ps : list LineToken) :
  forall (from j : nat) (p : LineToken),
  strictlyIncreasing ps ->
  (forall q, head ps = Some q ->
     from = Z.to_nat (Z.min (Z.of_nat n) (startIndex q)) /\ 0 <= startIndex q) ->
  ps !! j = Some p ->
  ranges n from ps !! j =
  Some (Z.to_nat (Z.min (Z.of_nat n) (startIndex p)),
        Z.to_nat (rangeEnd (Z.of_nat n) (drop (S j) ps))).
Proof.
  induction ps as [|q ps IH]; intros from j p Hinc Hhead Hj; [done|].
  destruct (Hhead q eq_refl) as [-> Hq].
  destruct (strictlyIncreasing_tail q ps Hinc) as [Hinc' Hnext].
  cbn [ranges].
  set (to := Nat.max _ _).
  assert (Hto : to = Z.to_nat (rangeEnd (Z.of_nat n) ps)).
  { subst to. unfold rangeEnd. destruct ps as [|r ps]; [lia|].
    specialize (Hnext r eq_refl). lia. }
  destruct j as [|j].
  - injection Hj as <-. cbn. by rewrite drop_0, Hto.
  - cbn in Hj. cbn [lookup list_lookup drop]. apply IH; [done| |done].
    intros r Hr. destruct ps as [|r' ps]; [done|]. injection Hr as ->.
    specialize (Hnext r eq_refl). rewrite Hto. cbn [rangeEnd]. split; [done|lia].
Qed.

(** ** The fragments of a character *)

Lemma Rendered_not_ellipsis (prw : bool) (c : Z) (g : list jsstring) :
  Rendered prw c g -> Forall (fun f => f <> ellipsis) g.
Proof.
  unfold Rendered.
  repeat match goal with
         | |- context [if ?b then _ else _] => destruct b
         end;
    try (intros [->|[n ->]]; [constructor|];
         constructor; [discriminate|]; apply Forall_replicate; discriminate);
    intros ->; constructor; try discriminate; try constructor.
Qed.

Lemma Rendered_Content (prw : bool) (c : Z) (g : list jsstring) :
  Rendered prw c g -> Forall Content g.
Proof.
  unfold Rendered.
  destruct (Z.eqb_spec c _tab) as [_|Htab].
  { intros [->|[n ->]]; [constructor|]. constructor.
    - apply content_entity. destruct prw; solve_elem.
    - apply Forall_replicate, content_entity. solve_elem. }
  destruct (Z.eqb_spec c _space) as [_|Hsp].
  { intros ->. constructor; [|constructor]. apply content_entity.
    destruct prw; solve_elem. }
  destruct (Z.eqb_spec c _lowerThan) as [_|Hlt];
    [intros ->; constructor; [apply content_entity; solve_elem|constructor]|].
  destruct (Z.eqb_spec c _greaterThan) as [_|Hgt];
    [intros ->; constructor; [apply content_entity; solve_elem|constructor]|].
  destruct (Z.eqb_spec c _ampersand) as [_|Hamp];
    [intros ->; constructor; [apply content_entity; solve_elem|constructor]|].
  destruct (Z.eqb_spec c 0) as [_|Hnul];
    [intros ->; constructor; [apply content_entity; solve_elem|constructor]|].
  destruct ((c =? _bom) || (c =? _lineSeparator));
    [intros ->; constructor; [apply content_entity; solve_elem|constructor]|].
  destruct (Z.eqb_spec c _carriageReturn) as [_|Hcr];
    [intros ->; constructor; [apply content_entity; solve_elem|constructor]|].
  intros ->. constructor; [by apply content_char|constructor].
Qed.

Section Rendering.

Variable lineText : jsstring.
Variable tabSize : Z.

Local Abbreviation ci := Locals.charIndex.
Local Abbreviation len := (Z.of_nat (length lineText)).

(** One iteration pushes the rendering of its character. *)
Lemma renderChar_rendered (prw : bool) (s : Locals.t) (c : Z) :
  charCodeAt lineText (ci s) = Some c ->
  exists g,
    Rendered prw c g /\
    Locals.out (renderChar lineText tabSize prw s) = Locals.out s ++ g.
Proof.
  intros Hc. unfold renderChar. cbn [Locals.out]. rewrite Hc.
  set (s0 := Locals.mk _ _ _ _ _).
  assert (Hat : charAt lineText (ci s0) = [c]).
  { unfold charAt. subst s0. cbn [Locals.charIndex]. by rewrite Hc. }
  unfold renderCharCode, Rendered. rewrite Hat.
  destruct (c =? _tab).
  { rewrite renderTab_out. destruct (0 <? _).
    - eexists. split; [right; by eexists|done].
    - exists []. split; [by left|done]. }
  repeat match goal with
         | |- context [if ?b then _ else _] => destruct b
         end; eexists; (split; [reflexivity|reflexivity]).
Qed.

Lemma take_drop_S (from n : nat) (c : Z) :
  lineText !! from = Some c ->
  take (S n) (drop from lineText) = c :: take n (drop (S from) lineText).
Proof. intros Hc. by rewrite (drop_S _ _ _ Hc). Qed.

(** The loop over the characters of a part, entered at [from] at or before
    the break index: it renders the characters up to the end of the range, or
    up to the break index when that is in the range. *)
Lemma charLoop_rendered (cb : Z) (prw : bool) (to pi : Z) (fuel : nat)
    (s : Locals.t) (from : nat) :
  ci s = Z.of_nat from -> to <= len -> Z.of_nat from <= cb ->
  (Z.to_nat (to - ci s) <= fuel)%nat ->
  match charLoop lineText tabSize cb fuel prw to pi s with
  | Continue sF =>
      ci sF = Z.max (ci s) to /\ (ci s < to -> to <= cb) /\
      exists groups,
        Forall2 (Rendered prw) (take (Z.to_nat to - from) (drop from lineText))
          groups /\
        Locals.out sF = Locals.out s ++ concat groups
  | Return o =>
      exists s1 groups,
        o = truncated pi s1 /\ cb < to /\
        Forall2 (Rendered prw)
          (take (S (Z.to_nat cb) - from) (drop from lineText)) groups /\
        Locals.out s1 = Locals.out s ++ concat groups
  end.
Proof.
  revert s from. induction fuel as [|fuel IH]; intros s from Hci Hto Hcb Hfuel.
  - cbn [charLoop]. split; [lia|]. split; [lia|].
    exists []. replace (Z.to_nat to - from)%nat with 0%nat by lia.
    split; [constructor|]. by rewrite app_nil_r.
  - cbn [charLoop]. destruct (Z.ltb_spec (ci s) to) as [Hlt|Hge].
    2:{ split; [lia|]. split; [lia|].
        exists []. replace (Z.to_nat to - from)%nat with 0%nat by lia.
        split; [constructor|]. by rewrite app_nil_r. }
    destruct (lineText !! from) as [c|] eqn:Hc.
    2:{ apply lookup_ge_None in Hc. lia. }
    assert (Hcode : charCodeAt lineText (ci s) = Some c).
    { unfold charCodeAt. rewrite Hci. destruct (Z.ltb_spec (Z.of_nat from) 0); [lia|].
      by rewrite Nat2Z.id. }
    destruct (renderChar_rendered prw s c Hcode) as (g & Hg & Hout).
    rewrite renderChar_charIndex.
    destruct (Z.leb_spec cb (ci s)) as [Hcut|Hgo].
    + eexists _, [g]. split; [reflexivity|]. split; [lia|].
      replace (S (Z.to_nat cb) - from)%nat with 1%nat by lia.
      rewrite (take_drop_S from 0 c Hc). cbn [take concat].
      split; [by repeat constructor|]. by rewrite app_nil_r.
    + match goal with
      | |- context [charLoop _ _ _ fuel _ _ _ ?s1'] => set (s1 := s1')
      end.
      specialize (IH s1 (S from) ltac:(subst s1; cbn; lia) Hto ltac:(lia)
                    ltac:(subst s1; cbn; lia)).
      assert (Hci1 : ci s1 = ci s + 1) by (subst s1; done).
      assert (Hout1 : Locals.out s1 = Locals.out s ++ g) by (subst s1; done).
      destruct (charLoop lineText tabSize cb fuel prw to pi s1) as [sF|o].
      * destruct IH as (HciF & Hno & groups & Hgroups & HoutF).
        split; [lia|]. split; [lia|]. exists (g :: groups).
        replace (Z.to_nat to - from)%nat with (S (Z.to_nat to - S from)) by lia.
        rewrite (take_drop_S from _ c Hc). split; [by constructor|].
        rewrite HoutF, Hout1. cbn [concat]. by rewrite app_assoc.
      * destruct IH as (s2 & groups & -> & Hlt' & Hgroups & Hout2).
        exists s2, (g :: groups). split; [done|]. split; [done|].
        replace (S (Z.to_nat cb) - from)%nat with (S (S (Z.to_nat cb) - S from))
          by lia.
        rewrite (take_drop_S from _ c Hc). split; [by constructor|].
        rewrite Hout2, Hout1. cbn [concat]. by rewrite app_assoc.
Qed.

(** The loop over the parts, entered at [from] at or before the break
    index. *)
Lemma partLoop_rendered (flag : bool) (cb : Z) (rem : list LineToken) :
  forall (pi : Z) (s : Locals.t) (from : nat),
  ci s = Z.of_nat from -> (from <= length lineText)%nat -> Z.of_nat from <= cb ->
  match partLoop lineText len tabSize flag cb pi rem s with
  | Continue sF =>
      (rem = [] -> ci sF = ci s) /\ (rem <> [] -> ci sF = len) /\ ci sF <= cb /\
      exists frags,
        Spans flag lineText rem (ranges (length lineText) from rem) frags /\
        Locals.out sF = Locals.out s ++ frags
  | Return o =>
      exists (s1 : Locals.t) (k : nat) (part : LineToken) (a b : nat)
             (closedFrags openFrags : list jsstring),
        o = truncated (pi + Z.of_nat k) s1 /\ cb < len /\
        rem !! k = Some part /\
        ranges (length lineText) from rem !! k = Some (a, b) /\
        (a < S (Z.to_nat cb))%nat /\ (S (Z.to_nat cb) <= b)%nat /\
        Spans flag lineText (take k rem)
          (take k (ranges (length lineText) from rem)) closedFrags /\
        Span flag lineText false part (a, S (Z.to_nat cb)) openFrags /\
        Locals.out s1 = Locals.out s ++ closedFrags ++ openFrags
  end.
Proof.
  induction rem as [|part rest IH]; intros pi s from Hci Hfrom Hcb.
  { cbn [partLoop]. split; [done|]. split; [done|]. split; [lia|].
    exists []. split; [done|]. by rewrite app_nil_r. }
  cbn [partLoop ranges]. unfold renderPart. fold (rangeEnd len rest).
  set (to := rangeEnd len rest).
  set (to_n := Nat.max from (Z.to_nat to)).
  set (prw := if flag then isWhitespace (type part) else false).
  cbn [Locals.push Locals.charIndex Locals.out Locals.charOffsetInPartArr
       Locals.tabsCharDelta].
  set (s2 := Locals.mk _ _ _ _ _).
  assert (Hto : to <= len) by (subst to; unfold rangeEnd; destruct rest; lia).
  assert (Hout2 : Locals.out s2 =
                  Locals.out s ++ [tokenOpen; type part; tokenClose]).
  { subst s2. cbn [Locals.out]. by rewrite <- !app_assoc. }
  pose proof (charLoop_rendered cb prw to pi (Z.to_nat (to - ci s)) s2 from Hci Hto
                Hcb ltac:(subst s2; cbn [Locals.charIndex]; lia)) as Hloop.
  change (ci s2) with (ci s) in *.
  destruct (charLoop lineText tabSize cb (Z.to_nat (to - ci s)) prw to pi s2)
    as [s3|o].
  - destruct Hloop as (Hci3 & Hno & groups & Hgroups & Hout3).
    assert (Hci3' : ci s3 = Z.of_nat to_n) by (subst to_n; lia).
    assert (Hspan : Span flag lineText true part (from, to_n)
                      ([tokenOpen; type part; tokenClose] ++ concat groups ++
                       [str "</span>"])).
    { exists groups. split; [|done]. cbn [fst snd]. fold prw.
      replace (to_n - from)%nat with (Z.to_nat to - from)%nat by (subst to_n; lia).
      done. }
    specialize (IH (pi + 1) (Locals.push (str "</span>") s3) to_n Hci3'
                  ltac:(subst to_n; lia) ltac:(subst to_n; lia)).
    destruct (partLoop lineText len tabSize flag cb (pi + 1) rest
                (Locals.push (str "</span>") s3)) as [sF|o].
    + destruct IH as (Hnil & Hcons & Hle & frags & Hspans & HoutF).
      split; [done|]. split.
      { intros _. destruct rest as [|q rest'].
        - rewrite (Hnil eq_refl). cbn [Locals.push Locals.charIndex].
          rewrite Hci3'. subst to_n to. cbn [rangeEnd]. lia.
        - by apply Hcons. }
      split; [done|].
      eexists. split; [eexists _, frags; split; [exact Hspan|split; [exact Hspans|reflexivity]]|].
      rewrite HoutF. cbn [Locals.push Locals.out]. rewrite Hout3, Hout2.
      by rewrite <- !app_assoc.
    + destruct IH as (s1 & k & p & a & b & closedFrags & openFrags & -> & Hlen &
                      Hk & Hr & Ha & Hb & Hspans & Hopen & Hout1).
      eexists s1, (S k), p, a, b, _, openFrags.
      split; [f_equal; lia|]. split; [done|]. split; [done|]. split; [done|].
      split; [done|]. split; [done|]. cbn [take].
      split; [eexists _, closedFrags; split; [exact Hspan|split; [exact Hspans|reflexivity]]|].
      split; [done|].
      rewrite Hout1. cbn [Locals.push Locals.out]. rewrite Hout3, Hout2.
      by rewrite <- !app_assoc.
  - destruct Hloop as (s1 & groups & -> & Hlt & Hgroups & Hout1).
    eexists s1, 0%nat, part, from, to_n, [], _.
    rewrite Z.add_0_r. split; [done|]. split; [lia|]. split; [done|].
    split; [done|]. split; [lia|]. split; [subst to_n; lia|].
    split; [done|].
    split; [exists groups; split; [exact Hgroups|reflexivity]|].
    rewrite Hout1, Hout2. cbn [app]. by rewrite <- !app_assoc, app_nil_r.
Qed.

End Rendering.

(** The output of [renderLineActual] has the layout of the
    specification. *)
Lemma renderLineActual_layout (lineText : jsstring) (size : Z)
    (ps : list LineToken) (flag : bool) (cb : Z) :
  lineText <> [] -> ps <> [] ->
  Layout lineText ps flag cb
    (renderLineActual lineText (Z.of_nat (length lineText)) size ps flag cb).
Proof.
  intros Hline Hps. pose proof (length_pos_nonempty _ Hline) as Hlen.
  unfold Layout. cbv zeta.
  destruct (Z.leb_spec (Z.of_nat (length lineText)) cb) as [Hcb|Hcb].
  - unfold renderLineActual.
    pose proof (partLoop_rendered lineText size flag cb ps 0 initial 0%nat
                  eq_refl ltac:(lia) ltac:(lia)) as Hloop.
    destruct (partLoop lineText _ size flag cb 0 ps initial) as [sF|o].
    + destruct Hloop as (_ & _ & _ & frags & Hspans & Hout).
      cbn [lastRenderedPartIndex output]. split; [done|].
      exists frags. split; [done|]. rewrite Hout. done.
    + destruct Hloop as (s1 & k & p & a & b & c & d & _ & Hlt & _). lia.
  - assert (Hnorm :
      renderLineActual lineText (Z.of_nat (length lineText)) size ps flag cb =
      renderLineActual lineText (Z.of_nat (length lineText)) size ps flag
        (Z.max 0 cb)).
    { destruct (Z.le_gt_cases 0 cb) as [H0|H0]; [by rewrite Z.max_r|].
      rewrite Z.max_l by lia. unfold renderLineActual.
      by rewrite (partLoop_low lineText (Z.of_nat (length lineText)) size flag cb 0)
        by (lia || done). }
    rewrite Hnorm. unfold renderLineActual.
    pose proof (partLoop_rendered lineText size flag (Z.max 0 cb) ps 0 initial 0%nat
                  eq_refl ltac:(lia) ltac:(lia)) as Hloop.
    replace (Z.to_nat (Z.max 0 cb)) with (Z.to_nat cb) in Hloop by lia.
    destruct (partLoop lineText _ size flag (Z.max 0 cb) 0 ps initial) as [sF|o].
    + destruct Hloop as (_ & Hfull & Hle & _). specialize (Hfull Hps). lia.
    + destruct Hloop as (s1 & k & p & a & b & closedFrags & openFrags & -> & _ &
                         Hk & Hr & Ha & Hb & Hspans & Hopen & Hout).
      exists k, p, a, b, closedFrags, openFrags.
      cbn [truncated lastRenderedPartIndex output].
      do 4 (split; [done|]). split; [lia|]. split; [done|]. split; [done|].
      rewrite Hout. cbn [initial Locals.out app]. by rewrite <- !app_assoc.
Qed.

(** The marker is among the fragments of spans only as the type of a
    part. *)
Lemma Span_occurrences (flag : bool) (lineText : jsstring) (closed : bool)
    (part : LineToken) (range : nat * nat) (frags : list jsstring) :
  Span flag lineText closed part range frags ->
  occurrences ellipsis frags = occurrences ellipsis [type part].
Proof.
  intros (groups & Hgroups & ->).
  change [tokenOpen; type part; tokenClose]
    with ([tokenOpen] ++ [type part] ++ [tokenClose]).
  rewrite !occurrences_app.
  assert (H0 : occurrences ellipsis (concat groups) = 0%nat).
  { apply occurrences_none. apply Forall_concat.
    clear -Hgroups. induction Hgroups as [|c g cs gs Hg _ IH]; constructor; [|done].
    by eapply Rendered_not_ellipsis. }
  rewrite H0.
  assert (H1 : occurrences ellipsis (if closed then [str "</span>"] else []) = 0%nat)
    by (by destruct closed).
  assert (H2 : occurrences ellipsis [tokenOpen] = 0%nat)
    by (apply occurrences_none; constructor; [discriminate|constructor]).
  assert (H3 : occurrences ellipsis [tokenClose] = 0%nat)
    by (apply occurrences_none; constructor; [discriminate|constructor]).
  rewrite H1, H2, H3. lia.
Qed.

Lemma Spans_occurrences (flag : bool) (lineText : jsstring)
    (ps : list LineToken) :
  forall (rs : list (nat * nat)) (frags : list jsstring),
  Spans flag lineText ps rs frags ->
  occurrences ellipsis frags = occurrences ellipsis (type <$> ps).
Proof.
  induction ps as [|p ps IH]; intros [|r rs] frags; cbn [Spans]; try done.
  - by intros ->.
  - intros (span & rest & Hspan & Hrest & ->).
    rewrite occurrences_app, (Span_occurrences _ _ _ _ _ _ Hspan), (IH rs rest Hrest).
    change (type <$> p :: ps) with ([type p] ++ (type <$> ps)).
    by rewrite occurrences_app.
Qed.

(** ** The characters in the output *)

Lemma take_drop_split (lineText : jsstring) (from to e : nat) :
  (from <= to)%nat -> (to <= e)%nat ->
  take (e - from) (drop from lineText) =
  take (to - from) (drop from lineText) ++ take (e - to) (drop to lineText).
Proof.
  intros H1 H2.
  replace (e - from)%nat with ((to - from) + (e - to))%nat by lia.
  rewrite <- take_take_drop, drop_drop. do 3 f_equal. lia.
Qed.

Lemma rangeEnd_drop (n : Z) (ps : list LineToken) (j : nat) :
  rangeEnd n (drop j ps) =
  match ps !! j with
  | Some nextPart => Z.min n (startIndex nextPart)
  | None => n
  end.
Proof.
  revert j. induction ps as [|p ps IH]; intros [|j]; try done. cbn. apply IH.
Qed.

(** The characters of a span are among its fragments. *)
Lemma Span_characters (flag : bool) (lineText : jsstring) (closed : bool)
    (part : LineToken) (from to : nat) (frags : list jsstring) :
  Span flag lineText closed part (from, to) frags ->
  exists groups,
    Forall2 (fun c g => exists prw, Rendered prw c g)
      (take (to - from) (drop from lineText)) groups /\
    concat groups `sublist_of` frags.
Proof.
  intros (groups & Hgroups & ->). exists groups. split.
  - eapply Forall2_impl; [exact Hgroups|]. intros c g Hg. by eexists.
  - apply sublist_inserts_l, sublist_inserts_r. done.
Qed.

(** The characters of the spans of the parts before the part [k]: those
    before the range of that part. *)
Lemma Spans_take_characters (flag : bool) (lineText : jsstring) (n : nat)
    (ps : list LineToken) :
  forall (from k a b : nat) (frags : list jsstring),
  (from <= n)%nat ->
  ranges n from ps !! k = Some (a, b) ->
  Spans flag lineText (take k ps) (take k (ranges n from ps)) frags ->
  exists groups,
    Forall2 (fun c g => exists prw, Rendered prw c g)
      (take (a - from) (drop from lineText)) groups /\
    concat groups `sublist_of` frags.
Proof.
  induction ps as [|p ps IH]; intros from k a b frags Hfrom Hk Hspans; [done|].
  destruct k as [|k].
  - cbn in Hk. injection Hk as <- <-. cbn in Hspans. subst frags.
    exists []. rewrite Nat.sub_diag. split; [constructor|done].
  - cbn [ranges take] in *.
    set (to := Nat.max from (Z.to_nat (rangeEnd (Z.of_nat n) ps))) in *.
    assert (Hto : (to <= n)%nat).
    { subst to. unfold rangeEnd. destruct ps; lia. }
    cbn in Hk. cbn [Spans] in Hspans.
    destruct Hspans as (span & rest & Hspan & Hrest & ->).
    destruct (Span_characters _ _ _ _ _ _ _ Hspan) as (g0 & Hg0 & Hsub0).
    destruct (IH to k a b rest Hto Hk Hrest) as (g1 & Hg1 & Hsub1).
    destruct (ranges_ordered n ps to k a b Hto Hk) as (Ha & _).
    exists (g0 ++ g1). split.
    + rewrite (take_drop_split lineText from to a) by (subst to; lia).
      by apply Forall2_app.
    + rewrite concat_app. by apply sublist_app.
Qed.

(** The characters of the spans of all the parts: those from where the first
    part is entered to the end of the line. *)
Lemma Spans_characters (flag : bool) (lineText : jsstring) (n : nat)
    (ps : list LineToken) :
  forall (from : nat) (frags : list jsstring),
  ps <> [] -> (from <= n)%nat ->
  Spans flag lineText ps (ranges n from ps) frags ->
  exists groups,
    Forall2 (fun c g => exists prw, Rendered prw c g)
      (take (n - from) (drop from lineText)) groups /\
    concat groups `sublist_of` frags.
Proof.
  induction ps as [|p ps IH]; intros from frags Hps Hfrom Hspans; [done|].
  cbn [ranges Spans] in Hspans.
  set (to := Nat.max from (Z.to_nat (rangeEnd (Z.of_nat n) ps))) in *.
  assert (Hto : (to <= n)%nat).
  { subst to. unfold rangeEnd. destruct ps; lia. }
  destruct Hspans as (span & rest & Hspan & Hrest & ->).
  destruct (Span_characters _ _ _ _ _ _ _ Hspan) as (g0 & Hg0 & Hsub0).
  destruct ps as [|q ps].
  - cbn in Hrest. subst rest. exists g0. split.
    + replace (n - from)%nat with (to - from)%nat; [done|].
      subst to. cbn [rangeEnd]. lia.
    + by apply sublist_inserts_r.
  - destruct (IH to rest ltac:(done) Hto Hrest) as (g1 & Hg1 & Hsub1).
    exists (g0 ++ g1). split.
    + rewrite (take_drop_split lineText from to n) by (subst to; lia).
      by apply Forall2_app.
    + rewrite concat_app. by apply sublist_app.
Qed.

(** In an output with the layout of the specification, the renderings of the
    characters that are scanned are among the fragments, in the order of the
    characters. *)
Lemma Layout_characters (lineText : jsstring) (ps : list LineToken)
    (flag : bool) (cb : Z) (o : IRenderLineOutput) :
  lineText <> [] -> ps <> [] ->
  Layout lineText ps flag cb o ->
  exists groups,
    Forall2 (fun c g => exists prw, Rendered prw c g)
      (take (scanned lineText cb) lineText) groups /\
    concat groups `sublist_of` output o.
Proof.
  intros Hline Hps. unfold Layout, scanned. cbv zeta.
  destruct (Z.of_nat (length lineText) <=? cb).
  - intros (_ & frags & Hspans & ->).
    destruct (Spans_characters flag lineText (length lineText) ps 0 frags Hps
                ltac:(lia) Hspans) as (groups & Hgroups & Hsub).
    exists groups. rewrite Nat.sub_0_r, drop_0 in Hgroups. split; [done|].
    apply (sublist_inserts_l [_]), sublist_inserts_r. done.
  - intros (k & part & a & b & closedFrags & openFrags & Hk & Hr & Ha & Hb & _ &
            Hspans & Hopen & ->).
    destruct (Spans_take_characters flag lineText (length lineText) ps 0 k a b
                closedFrags ltac:(lia) Hr Hspans) as (g0 & Hg0 & Hsub0).
    destruct (Span_characters _ _ _ _ _ _ _ Hopen) as (g1 & Hg1 & Hsub1).
    exists (g0 ++ g1). split.
    + rewrite Nat.sub_0_r, drop_0 in Hg0.
      rewrite <- (drop_0 lineText) at 1.
      rewrite <- (Nat.sub_0_r (S (Z.to_nat cb))).
      rewrite (take_drop_split lineText 0 a (S (Z.to_nat cb))) by lia.
      rewrite Nat.sub_0_r, drop_0. by apply Forall2_app.
    + rewrite concat_app. apply (sublist_inserts_l [_]).
      apply sublist_app; [done|]. by apply sublist_inserts_r.
Qed.

(** What [renderLine] returns has the layout of the specification. *)
Lemma renderLine_layout (input : RenderLineInput) (o : IRenderLineOutput) :
  renderLine input = Ok o -> lineContent input <> [] ->
  parts input <> [] /\
  o = renderLineActual (lineContent input)
        (Z.of_nat (length (lineContent input))) (tabSize input) (parts input)
        (renderWhitespace input) (breakIndex input) /\
  Layout (lineContent input) (parts input) (renderWhitespace input)
    (breakIndex input) o.
Proof.
  intros Hok Hline.
  assert (Hparts : parts input <> []).
  { intros Hnil. unfold renderLine in Hok. rewrite Hnil in Hok.
    destruct (lineContent input); [done|]. discriminate Hok. }
  rewrite renderLine_nonempty in Hok by done. injection Hok as <-.
  split; [done|]. split; [done|]. by apply renderLineActual_layout.
Qed.

(** The length of the table. *)
Lemma renderLineActual_table_length (lineText : jsstring) (size : Z)
    (ps : list LineToken) (flag : bool) (cb : Z) :
  lineText <> [] -> ps <> [] ->
  length (charOffsetInPart
            (renderLineActual lineText (Z.of_nat (length lineText)) size ps flag
               cb)) =
  if Z.of_nat (length lineText) <=? cb then S (length lineText)
  else scanned lineText cb.
Proof.
  intros Hline Hps. pose proof (length_pos_nonempty _ Hline) as Hlen.
  unfold scanned.
  destruct (Z.leb_spec (Z.of_nat (length lineText)) cb) as [Hcb|Hcb].
  - destruct (scan_complete lineText _ size flag ps Hlen Hps cb Hcb)
      as (s & _ & -> & _ & Hl & _).
    cbn [completed charOffsetInPart]. rewrite length_app, Hl. cbn. lia.
  - destruct (scan_truncated lineText _ size flag ps Hlen Hps cb _ Hcb
                (Z.le_refl _))
      as (_ & s1 & j & _ & _ & -> & _ & Hci & Hl & _).
    cbn [truncated charOffsetInPart]. rewrite array_incr_last_length, Hl, Hci.
    lia.
Qed.

(** ** The limit *)

(** C2.  For an input with a limit [L] between [1] and the length of the
    line and valid parts: the break index passed to the scan is [L - 1]; the
    part index is the index [k] of the one part whose range holds [L - 1];
    the ranges of the parts up to that part are from their start index to
    the start index of the next part; the output is the opening of the line,
    the closed spans of the parts before the part [k] over their ranges, the
    open span of the part [k] over the characters from its start index to
    [L - 1], and the ellipsis marker: the renderings of the characters at
    [0] .. [L - 1], and of no other, are among the fragments; the table has
    [L] entries; the marker occurs once and once more for each of the parts
    up to [k] whose type is the marker string itself, so exactly once when no
    such part has that type; and the characters from [L] on have no say. *)
Theorem truncation_at_limit (input : RenderLineInput) :
  let L := stopRenderingLineAfter input in
  let len := Z.of_nat (length (lineContent input)) in
  let rs := ranges (length (lineContent input)) 0 (parts input) in
  1 <= L <= len ->
  validTokens (parts input) ->
  exists (k : nat) (part : LineToken) (closedFrags openFrags : list jsstring)
         (groups : list (list jsstring)),
    let o := renderLineActual (lineContent input) len (tabSize input)
               (parts input) (renderWhitespace input) (L - 1) in
    renderLine input = Ok o /\
    parts input !! k = Some part /\
    tokenContains len (parts input) k (L - 1) /\
    (forall k', tokenContains len (parts input) k' (L - 1) -> k' = k) /\
    lastRenderedPartIndex o = Z.of_nat k /\
    (forall j p, (j <= k)%nat -> parts input !! j = Some p ->
       rs !! j =
       Some (Z.to_nat (startIndex p),
             Z.to_nat match parts input !! S j with
                      | Some nextPart => Z.min len (startIndex nextPart)
                      | None => len
                      end)) /\
    Spans (renderWhitespace input) (lineContent input) (take k (parts input))
      (take k rs) closedFrags /\
    Span (renderWhitespace input) (lineContent input) false part
      (Z.to_nat (startIndex part), Z.to_nat L) openFrags /\
    output o = str "<span>" :: closedFrags ++ openFrags ++ [ellipsis] /\
    Forall2 (fun c g => exists prw, Rendered prw c g)
      (take (Z.to_nat L) (lineContent input)) groups /\
    concat groups `sublist_of` output o /\
    length (charOffsetInPart o) = Z.to_nat L /\
    occurrences ellipsis (output o) =
      S (occurrences ellipsis (type <$> take (S k) (parts input))) /\
    (Forall (fun p => type p <> ellipsis) (take (S k) (parts input)) ->
     occurrences ellipsis (output o) = 1%nat) /\
    (forall lineText',
       take (Z.to_nat L) lineText' = take (Z.to_nat L) (lineContent input) ->
       L <= Z.of_nat (length lineText') ->
       renderLine
         (mkRenderLineInput lineText' (tabSize input) L (renderWhitespace input)
            (parts input)) = Ok o).
Proof.
  intros L len rs HL Hvalid.
  pose proof Hvalid as [(p0 & rest & Hparts & Hp0) Hinc].
  assert (Hline : lineContent input <> []).
  { intros Hnil. unfold len in HL. rewrite Hnil in HL. simpl in HL. lia. }
  assert (Hne : parts input <> []) by (rewrite Hparts; done).
  assert (Hcb : breakIndex input = L - 1).
  { unfold breakIndex. fold L. destruct (Z.eqb_spec L (-1)); [lia|done]. }
  assert (Hok : renderLine input =
                Ok (renderLineActual (lineContent input) len (tabSize input)
                      (parts input) (renderWhitespace input) (L - 1))).
  { rewrite renderLine_nonempty by done. fold L len.
    by destruct (Z.eqb_spec L (-1)); [lia|]. }
  pose proof (renderLineActual_layout (lineContent input) (tabSize input)
                (parts input) (renderWhitespace input) (L - 1) Hline Hne)
    as Hlayout.
  pose proof (Layout_characters _ _ _ _ _ Hline Hne Hlayout)
    as (groups & Hgroups & Hsub).
  pose proof (renderLineActual_table_length (lineContent input) (tabSize input)
                (parts input) (renderWhitespace input) (L - 1) Hline Hne)
    as Htable.
  fold len in Hlayout, Hsub, Htable |- *.
  set (o := renderLineActual (lineContent input) len (tabSize input)
              (parts input) (renderWhitespace input) (L - 1)) in *.
  unfold scanned in Hgroups, Htable. unfold Layout in Hlayout.
  cbv zeta in Hlayout. fold len rs in Hlayout, Hgroups, Htable.
  destruct (Z.leb_spec len (L - 1)) as [?|_]; [lia|].
  replace (S (Z.to_nat (L - 1))) with (Z.to_nat L) in * by lia.
  destruct Hlayout as (k & part & a & b & closedFrags & openFrags & Hk & Hr & Ha &
                       Hb & Hindex & Hspans & Hopen & Hout).
  assert (Hranges : forall j p, parts input !! j = Some p ->
            rs !! j =
            Some (Z.to_nat (Z.min len (startIndex p)),
                  Z.to_nat match parts input !! S j with
                           | Some nextPart => Z.min len (startIndex nextPart)
                           | None => len
                           end)).
  { intros j p Hj. subst rs. rewrite (ranges_valid _ _ 0 j p Hinc); [|  |done].
    - by rewrite rangeEnd_drop.
    - intros q Hq. rewrite Hparts in Hq. injection Hq as <-. lia. }
  assert (Hnn : forall j p, parts input !! j = Some p -> 0 <= startIndex p).
  { intros [|j] p Hj.
    - rewrite Hparts in Hj. injection Hj as <-. lia.
    - assert (parts input !! 0%nat = Some p0) as H0 by (by rewrite Hparts).
      pose proof (Hinc 0%nat (S j) p0 p ltac:(lia) H0 Hj). lia. }
  pose proof (Hranges k part Hk) as Hrk. rewrite Hr in Hrk.
  injection Hrk as Ha' Hb'.
  pose proof (Hnn k part Hk) as Hpart.
  assert (Hstart : startIndex part <= L - 1) by lia.
  assert (Hin : tokenContains len (parts input) k (L - 1)).
  { exists part. split; [done|]. split; [done|].
    destruct (parts input !! S k) as [q|]; lia. }
  exists k, part, closedFrags, openFrags, groups. cbv zeta.
  split; [exact Hok|]. split; [done|]. split; [done|].
  split; [intros k' Hk'; symmetry; by eapply tokenContains_unique|].
  split; [done|].
  split.
  { intros j p Hj Hp. rewrite (Hranges j p Hp). do 3 f_equal.
    destruct (decide (j = k)) as [->|Hjk].
    - rewrite Hk in Hp. injection Hp as <-. lia.
    - pose proof (Hinc j k p part ltac:(lia) Hp Hk). pose proof (Hnn j p Hp). lia. }
  split; [done|].
  split; [replace (Z.to_nat (startIndex part)) with a by lia; done|].
  split; [done|]. split; [done|]. split; [done|]. split; [done|].
  assert (Hocc : occurrences ellipsis (output o) =
                 S (occurrences ellipsis (type <$> take (S k) (parts input)))).
  { rewrite Hout.
    change (str "<span>" :: closedFrags ++ openFrags ++ [ellipsis])
      with ([str "<span>"] ++ closedFrags ++ openFrags ++ [ellipsis]).
    rewrite !occurrences_app, (Spans_occurrences _ _ _ _ _ Hspans),
      (Span_occurrences _ _ _ _ _ _ Hopen).
    rewrite (take_S_r _ _ _ Hk), fmap_app, occurrences_app.
    assert (H0 : occurrences ellipsis [str "<span>"] = 0%nat)
      by (apply occurrences_none; constructor; [discriminate|constructor]).
    assert (H1 : occurrences ellipsis [ellipsis] = 1%nat).
    { cbn [occurrences]. by destruct (decide (ellipsis = ellipsis)). }
    rewrite H0, H1. cbn [fmap list_fmap]. lia. }
  split; [exact Hocc|].
  split.
  { intros Hty. rewrite Hocc, occurrences_none; [done|].
    apply Forall_fmap. exact Hty. }
  intros lineText' Htake Hlen'.
  assert (Hline' : lineText' <> []).
  { intros ->. simpl in Hlen'. lia. }
  rewrite renderLine_nonempty by done.
  cbn [lineContent tabSize renderWhitespace parts stopRenderingLineAfter].
  fold L. destruct (Z.eqb_spec L (-1)) as [?|_]; [lia|].
  f_equal. subst o. unfold renderLineActual.
  rewrite (partLoop_cut lineText' (lineContent input)
             (Z.of_nat (length lineText')) len (tabSize input)
             (renderWhitespace input) (L - 1)); [done| |lia|lia|exact inv_initial|cbn; lia].
  intros i Hi. unfold charCodeAt. destruct (i <? 0); [done|].
  rewrite <- (lookup_take_lt lineText' (Z.to_nat L)) by lia.
  rewrite <- (lookup_take_lt (lineContent input) (Z.to_nat L)) by lia.
  by rewrite Htake.
Qed.

(** The type of a part can be the marker: it is then a fragment of the
    output as well. *)
Lemma marker_type_is_counted :
  validTokens (parts c2_marker_input) /\
  1 <= stopRenderingLineAfter c2_marker_input
    <= Z.of_nat (length (lineContent c2_marker_input)) /\
  renderLine c2_marker_input =
    Ok (mkOutput [Some 1] 0
          [str "<span>"; tokenOpen; ellipsis; tokenClose; str "a"; ellipsis]) /\
  occurrences ellipsis
    [str "<span>"; tokenOpen; ellipsis; tokenClose; str "a"; ellipsis] = 2%nat.
Proof.
  split.
  { split; [by eexists _, _|]. intros [|i] [|j] p q Hij Hp Hq; try lia; done. }
  split; [simpl; lia|]. split; vm_compute; reflexivity.
Qed.

(** The limit theorem at [c2_input]: cut after [c], the first character of
    the second part. *)
Lemma truncation_at_limit_witness :
  1 <= 3 <= 6 /\
  exists (k : nat) (part : LineToken) (closedFrags openFrags : list jsstring),
    renderLine c2_input = Ok c2_output /\
    parts c2_input !! k = Some part /\
    tokenContains 6 (parts c2_input) k 2 /\
    lastRenderedPartIndex c2_output = Z.of_nat k /\
    Span false (lineContent c2_input) false part
      (Z.to_nat (startIndex part), 3%nat) openFrags /\
    output c2_output = str "<span>" :: closedFrags ++ openFrags ++ [ellipsis] /\
    length (charOffsetInPart c2_output) = 3%nat /\
    occurrences ellipsis (output c2_output) = 1%nat.
Proof.
  assert (Hlimit : 1 <= 3 <= 6) by lia.
  split; [exact Hlimit|].
  destruct (truncation_at_limit c2_input Hlimit c2_tokens_valid)
    as (k & part & closedFrags & openFrags & groups & Ho & Hk & Hin & _ & Hindex &
        _ & _ & Hopen & Hout & _ & _ & Hlen & _ & Hocc & _).
  exists k, part, closedFrags, openFrags.
  split; [exact Ho|]. split; [exact Hk|]. split; [exact Hin|].
  split; [exact Hindex|]. split; [exact Hopen|]. split; [exact Hout|].
  split; [exact Hlen|].
  apply Hocc. destruct k as [|[|[|k]]]; simpl; repeat constructor; discriminate.
Defined.

(** ** The numbers of JavaScript *)

Lemma pushSpaces_numbers (fuel : nat) (z : Z) (out : list jsstring) :
  WithNaN.pushSpaces fuel (WithNaN.Int z) out = pushSpaces fuel z out.
Proof.
  revert z out. induction fuel as [|fuel IH]; intros z out; [done|].
  cbn. destruct (0 <? z); [apply IH|done].
Qed.

Lemma array_set_numbers (arr : list (option Z)) (i v : Z) :
  WithNaN.array_set (numberOf <$> arr) i (WithNaN.Int v) =
  numberOf <$> array_set arr i v.
Proof.
  unfold WithNaN.array_set, array_set. destruct (i <? 0); [done|].
  rewrite length_fmap. destruct (_ <? _)%nat.
  - by rewrite list_fmap_insert.
  - by rewrite !fmap_app, fmap_replicate.
Qed.

Lemma array_incr_last_numbers (arr : list (option Z)) :
  WithNaN.array_incr_last (numberOf <$> arr) = numberOf <$> array_incr_last arr.
Proof.
  destruct arr as [|slot arr]; [done|].
  assert (Halter : forall i (l : list (option Z)),
    alter (fmap (fun x => WithNaN.add x (WithNaN.Int 1))) i (numberOf <$> l) =
    numberOf <$> alter (fmap (fun x => x + 1)) i l).
  { intros i l. symmetry. apply list_fmap_alter. apply Forall_forall.
    intros [z|] _; reflexivity. }
  unfold WithNaN.array_incr_last, array_incr_last.
  rewrite length_fmap. apply (Halter _ (slot :: arr)).
Qed.

Lemma incr_last_length (arr : list (option WithNaN.number)) :
  length (WithNaN.array_incr_last arr) = length arr.
Proof.
  unfold WithNaN.array_incr_last. destruct arr; [done|]. by rewrite length_alter.
Qed.

(** With a tab size that is not [0] the scan computes in integers. *)
Section Integers.

Variable lineText : jsstring.
Variable lineTextLength : Z.
Variable tabSize : Z.
Variable flag : bool.
Variable cb : Z.

Hypothesis tabSize_not_0 : tabSize <> 0.

Lemma renderTab_numbers (prw : bool) (s : Locals.t) :
  WithNaN.renderTab tabSize prw (numbersOfLocals s) =
  numbersOfLocals (renderTab tabSize prw s).
Proof.
  unfold WithNaN.renderTab, renderTab, numbersOfLocals. cbn.
  rewrite (proj2 (Z.eqb_neq _ _) tabSize_not_0). cbn.
  destruct (0 <? _); cbn; by rewrite pushSpaces_numbers.
Qed.

Lemma renderCharCode_numbers (prw : bool) (code : option Z) (s : Locals.t) :
  WithNaN.renderCharCode lineText tabSize prw code (numbersOfLocals s) =
  numbersOfLocals (renderCharCode lineText tabSize prw code s).
Proof.
  unfold WithNaN.renderCharCode, renderCharCode.
  destruct code as [c|]; [|done].
  repeat (match goal with |- context [if ?b then _ else _] =>
            destruct b end; try done).
  apply renderTab_numbers.
Qed.

Lemma renderChar_numbers (prw : bool) (s : Locals.t) :
  WithNaN.renderChar lineText tabSize prw (numbersOfLocals s) =
  numbersOfLocals (renderChar lineText tabSize prw s).
Proof.
  unfold WithNaN.renderChar, renderChar.
  cbn [numbersOfLocals WithNaN.Locals.charIndex WithNaN.Locals.out
       WithNaN.Locals.charOffsetInPartArr WithNaN.Locals.charOffsetInPart
       WithNaN.Locals.tabsCharDelta].
  rewrite array_set_numbers.
  set (s1 := Locals.mk _ _ (array_set _ _ _) _ _).
  change (WithNaN.Locals.mk (Locals.charIndex s) _ _ _ _)
    with (numbersOfLocals s1).
  rewrite renderCharCode_numbers. reflexivity.
Qed.

Lemma charLoop_numbers (fuel : nat) (prw : bool) (toCharIndex partIndex : Z)
    (s : Locals.t) :
  WithNaN.charLoop lineText tabSize cb fuel prw toCharIndex partIndex
    (numbersOfLocals s) =
  numbersOfFlow (charLoop lineText tabSize cb fuel prw toCharIndex partIndex s).
Proof.
  revert s. induction fuel as [|fuel IH]; intros s; [done|].
  cbn [WithNaN.charLoop charLoop]. rewrite renderChar_numbers.
  cbn [numbersOfLocals WithNaN.Locals.charIndex].
  destruct (_ <? _); [|done].
  set (s1 := renderChar lineText tabSize prw s).
  change (WithNaN.Locals.charIndex (numbersOfLocals s1))
    with (Locals.charIndex s1).
  destruct (cb <=? _).
  - cbn. unfold WithNaN.truncated, numbersOf, truncated. cbn.
    by rewrite array_incr_last_numbers.
  - exact (IH (Locals.mk (Locals.charIndex s1 + 1) (Locals.out s1)
                 (Locals.charOffsetInPartArr s1) (Locals.charOffsetInPart s1)
                 (Locals.tabsCharDelta s1))).
Qed.

Lemma renderPart_numbers (partIndex : Z) (part : LineToken)
    (rest : list LineToken) (s : Locals.t) :
  WithNaN.renderPart lineText lineTextLength tabSize flag cb partIndex part rest
    (numbersOfLocals s) =
  numbersOfFlow
    (renderPart lineText lineTextLength tabSize flag cb partIndex part rest s).
Proof.
  unfold WithNaN.renderPart, renderPart.
  set (s2 := Locals.mk _ _ _ 0 _).
  change (WithNaN.Locals.mk _ _ _ (WithNaN.Int 0) _) with (numbersOfLocals s2).
  change (WithNaN.Locals.charIndex (numbersOfLocals s2))
    with (Locals.charIndex s2).
  rewrite charLoop_numbers. by destruct (charLoop _ _ _ _ _ _ _ _).
Qed.

Lemma partLoop_numbers (ps : list LineToken) (partIndex : Z) (s : Locals.t) :
  WithNaN.partLoop lineText lineTextLength tabSize flag cb partIndex ps
    (numbersOfLocals s) =
  numbersOfFlow (partLoop lineText lineTextLength tabSize flag cb partIndex ps s).
Proof.
  revert partIndex s. induction ps as [|part rest IH]; intros partIndex s; [done|].
  cbn [WithNaN.partLoop partLoop]. rewrite renderPart_numbers.
  destruct (renderPart _ _ _ _ _ _ _ _ _) as [s'|o]; [apply IH|done].
Qed.

Lemma renderLineActual_numbers (ps : list LineToken) :
  WithNaN.renderLineActual lineText lineTextLength tabSize ps flag cb =
  numbersOf (renderLineActual lineText lineTextLength tabSize ps flag cb).
Proof.
  unfold WithNaN.renderLineActual, renderLineActual.
  change WithNaN.initial with (numbersOfLocals initial).
  rewrite partLoop_numbers.
  destruct (partLoop _ _ _ _ _ _ _ _) as [s|o]; [|done].
  unfold numbersOf. cbn. by rewrite fmap_app.
Qed.

End Integers.

(** With a tab size that is not [0], [renderLine] returns in numbers what it
    returns in integers. *)
Lemma renderLine_numbers (input : RenderLineInput) :
  tabSize input <> 0 ->
  WithNaN.renderLine input = numbersOfResult (renderLine input).
Proof.
  intros Hsize. unfold WithNaN.renderLine, renderLine.
  destruct (_ =? 0); [done|]. destruct (_ =? 0)%nat; [done|].
  cbn. f_equal. by apply renderLineActual_numbers.
Qed.

(** With the tab size [0] a tab pushes nothing, in numbers (the count is
    NaN) as in integers (there the count is not positive). *)
Section TabSizeZero.

Variable lineText : jsstring.
Variable lineTextLength : Z.
Variable flag : bool.
Variable cb : Z.

Lemma renderTab_zero (prw : bool) (s : Locals.t) (n : WithNaN.Locals.t) :
  sameFragments s n -> 0 <= Locals.charIndex s + Locals.tabsCharDelta s ->
  sameFragments (renderTab 0 prw s) (WithNaN.renderTab 0 prw n) /\
  0 <= Locals.charIndex (renderTab 0 prw s) + 1 +
       Locals.tabsCharDelta (renderTab 0 prw s).
Proof.
  intros (Hci & Hout & Harr) Hcol.
  assert (Hrem : forall x, Z.rem x 0 = x) by (intros [| |]; reflexivity).
  unfold renderTab. rewrite Hrem.
  assert (Hpos :
    (0 <? 0 - (Locals.charIndex s + Locals.tabsCharDelta s)) = false)
    by (apply Z.ltb_ge; lia).
  rewrite Hpos.
  assert (Hfuel :
    Z.to_nat (0 - (Locals.charIndex s + Locals.tabsCharDelta s)) = 0%nat)
    by lia.
  rewrite Hfuel. cbn [pushSpaces Locals.charIndex Locals.tabsCharDelta].
  split; [|lia].
  unfold WithNaN.renderTab.
  assert (Hnan : forall x, WithNaN.rem x (WithNaN.Int 0) = WithNaN.NaN)
    by (intros [z|]; reflexivity).
  rewrite Hnan. cbn. done.
Qed.

Lemma renderCharCode_zero (prw : bool) (code : option Z) (s : Locals.t)
    (n : WithNaN.Locals.t) :
  sameFragments s n -> 0 <= Locals.charIndex s + Locals.tabsCharDelta s ->
  sameFragments (renderCharCode lineText 0 prw code s)
    (WithNaN.renderCharCode lineText 0 prw code n) /\
  0 <= Locals.charIndex (renderCharCode lineText 0 prw code s) + 1 +
       Locals.tabsCharDelta (renderCharCode lineText 0 prw code s).
Proof.
  intros Hsame Hcol.
  assert (Hpush : forall x,
    sameFragments (Locals.push x s) (WithNaN.Locals.push x n) /\
    0 <= Locals.charIndex (Locals.push x s) + 1 +
         Locals.tabsCharDelta (Locals.push x s)).
  { intros x. destruct Hsame as (Hci & Hout & Harr).
    unfold sameFragments. cbn. rewrite Hci, Hout, Harr in *. repeat split; lia. }
  unfold WithNaN.renderCharCode, renderCharCode.
  destruct Hsame as (Hci & Hout & Harr). rewrite <- Hci.
  destruct code as [c|]; [|apply Hpush].
  repeat (match goal with |- context [if ?b then _ else _] =>
            destruct b end; try apply Hpush).
  by apply renderTab_zero.
Qed.

Lemma renderChar_zero (prw : bool) (s : Locals.t) (n : WithNaN.Locals.t) :
  sameFragments s n -> 0 <= Locals.charIndex s + Locals.tabsCharDelta s ->
  sameFragments (renderChar lineText 0 prw s) (WithNaN.renderChar lineText 0 prw n) /\
  0 <= Locals.charIndex (renderChar lineText 0 prw s) + 1 +
       Locals.tabsCharDelta (renderChar lineText 0 prw s).
Proof.
  intros (Hci & Hout & Harr) Hcol.
  unfold WithNaN.renderChar, renderChar. rewrite <- Hci.
  set (s1 := Locals.mk _ _ (array_set _ _ _) _ _).
  set (n1 := WithNaN.Locals.mk _ _ (WithNaN.array_set _ _ _) _ _).
  assert (Hsame1 : sameFragments s1 n1).
  { subst s1 n1. unfold sameFragments. cbn. split; [done|]. split; [done|].
    unfold array_set, WithNaN.array_set. rewrite <- Harr.
    destruct (Locals.charIndex s <? 0); [done|].
    destruct (Nat.ltb _ _);
      rewrite ?length_insert, ?length_app, ?length_replicate; cbn [length]; lia. }
  destruct (renderCharCode_zero prw (charCodeAt lineText (Locals.charIndex s))
              s1 n1 Hsame1 Hcol) as ((Hci2 & Hout2 & Harr2) & Hcol2).
  split; [|exact Hcol2]. unfold sameFragments. cbn. done.
Qed.

Lemma charLoop_zero (fuel : nat) (prw : bool) (toCharIndex partIndex : Z)
    (s : Locals.t) (n : WithNaN.Locals.t) :
  sameFragments s n -> 0 <= Locals.charIndex s + Locals.tabsCharDelta s ->
  sameFragmentsFlow
    (charLoop lineText 0 cb fuel prw toCharIndex partIndex s)
    (WithNaN.charLoop lineText 0 cb fuel prw toCharIndex partIndex n).
Proof.
  revert s n. induction fuel as [|fuel IH]; intros s n Hsame Hcol.
  { cbn. done. }
  cbn [WithNaN.charLoop charLoop].
  destruct (renderChar_zero prw s n Hsame Hcol) as ((Hci1 & Hout1 & Harr1) & Hcol1).
  destruct Hsame as (Hci & Hout & Harr). rewrite <- Hci, <- Hci1.
  destruct (_ <? _); [|by cbn].
  destruct (cb <=? _).
  - unfold truncated, WithNaN.truncated.
    cbn [sameFragmentsFlow WithNaN.output output WithNaN.lastRenderedPartIndex
         lastRenderedPartIndex WithNaN.charOffsetInPart charOffsetInPart].
    rewrite Hout1. split; [done|]. split; [done|].
    by rewrite array_incr_last_length, Harr1, incr_last_length.
  - apply IH.
    + split; [reflexivity|]. split; [exact Hout1|exact Harr1].
    + cbn [Locals.charIndex Locals.tabsCharDelta]. lia.
Qed.

Lemma renderPart_zero (partIndex : Z) (part : LineToken) (rest : list LineToken)
    (s : Locals.t) (n : WithNaN.Locals.t) :
  sameFragments s n -> 0 <= Locals.charIndex s + Locals.tabsCharDelta s ->
  sameFragmentsFlow
    (renderPart lineText lineTextLength 0 flag cb partIndex part rest s)
    (WithNaN.renderPart lineText lineTextLength 0 flag cb partIndex part rest n).
Proof.
  intros (Hci & Hout & Harr) Hcol. unfold WithNaN.renderPart, renderPart.
  cbn [Locals.push WithNaN.Locals.push Locals.charIndex WithNaN.Locals.charIndex].
  rewrite <- Hci.
  set (s2 := Locals.mk _ _ _ 0 _).
  set (n2 := WithNaN.Locals.mk _ _ _ (WithNaN.Int 0) _).
  assert (Hsame2 : sameFragments s2 n2).
  { subst s2 n2. unfold sameFragments. cbn. by rewrite Hout. }
  pose proof (charLoop_zero
                (Z.to_nat
                   (match rest with
                    | nextPart :: _ => Z.min lineTextLength (startIndex nextPart)
                    | [] => lineTextLength
                    end - Locals.charIndex s))
                (if flag then isWhitespace (type part) else false)
                match rest with
                | nextPart :: _ => Z.min lineTextLength (startIndex nextPart)
                | [] => lineTextLength
                end partIndex s2 n2 Hsame2 Hcol) as Hloop.
  destruct (charLoop _ _ _ _ _ _ _ s2) as [s3|o],
           (WithNaN.charLoop _ _ _ _ _ _ _ n2) as [n3|o']; try done.
  cbn in Hloop |- *. destruct Hloop as ((Hci3 & Hout3 & Harr3) & Hcol3).
  unfold sameFragments. cbn. by rewrite Hout3.
Qed.

Lemma partLoop_zero (ps : list LineToken) (partIndex : Z) (s : Locals.t)
    (n : WithNaN.Locals.t) :
  sameFragments s n -> 0 <= Locals.charIndex s + Locals.tabsCharDelta s ->
  sameFragmentsFlow
    (partLoop lineText lineTextLength 0 flag cb partIndex ps s)
    (WithNaN.partLoop lineText lineTextLength 0 flag cb partIndex ps n).
Proof.
  revert partIndex s n.
  induction ps as [|part rest IH]; intros partIndex s n Hsame Hcol.
  { cbn. done. }
  cbn [WithNaN.partLoop partLoop].
  pose proof (renderPart_zero partIndex part rest s n Hsame Hcol) as Hpart.
  destruct (renderPart _ _ _ _ _ _ _ _ _) as [s'|o],
           (WithNaN.renderPart _ _ _ _ _ _ _ _ _) as [n'|o']; try done.
  destruct Hpart as (Hsame' & Hcol'). by apply IH.
Qed.

End TabSizeZero.

(** For every tab size, [renderLine] returns in numbers the fragments and
    the part index that it returns in integers, and a table of the same
    length, or throws the same. *)
Lemma renderLine_fragments (input : RenderLineInput) :
  match renderLine input, WithNaN.renderLine input with
  | Ok o, WithNaN.Ok n =>
      WithNaN.output n = output o /\
      WithNaN.lastRenderedPartIndex n = lastRenderedPartIndex o /\
      length (WithNaN.charOffsetInPart n) = length (charOffsetInPart o)
  | Throw message, WithNaN.Throw message' => message = message'
  | _, _ => False
  end.
Proof.
  destruct (decide (tabSize input = 0)) as [Hzero|Hsize].
  - unfold WithNaN.renderLine, renderLine.
    destruct (_ =? 0); [done|]. destruct (_ =? 0)%nat; [done|].
    rewrite Hzero. unfold WithNaN.renderLineActual, renderLineActual.
    match goal with
    | |- context [partLoop ?lt ?ll 0 ?f ?c 0 ?ps initial] =>
        pose proof (partLoop_zero lt ll f c ps 0 initial WithNaN.initial
                      ltac:(by unfold sameFragments) ltac:(by cbn)) as Hloop
    end.
    destruct (partLoop _ _ _ _ _ _ _ _) as [s|o],
             (WithNaN.partLoop _ _ _ _ _ _ _ _) as [n|o']; try done.
    destruct Hloop as ((Hci & Hout & Harr) & _). cbn.
    rewrite Hout, !length_app, Harr. done.
  - rewrite renderLine_numbers by done.
    destruct (renderLine input) as [o|message]; [|done].
    cbn. by rewrite length_fmap.
Qed.

(** ** Errors and well-formed outputs *)

Lemma renderLine_throws (input : RenderLineInput) :
  ((exists message, renderLine input = Throw message) <->
   (lineContent input <> [] /\ parts input = [])) /\
  ((exists o, renderLine input = Ok o) <->
   (lineContent input = [] \/ parts input <> [])).
Proof.
  destruct (decide (lineContent input = [])) as [Hline|Hl].
  { unfold renderLine. rewrite Hline. simpl. split.
    - split; [intros [m Hm]; discriminate Hm|intros [H _]; done].
    - split; [intros _; by left|intros _; by eexists]. }
  destruct (decide (parts input = [])) as [Hparts|Hp].
  { unfold renderLine. rewrite Hparts.
    destruct (lineContent input) as [|c line]; [done|]. simpl. split.
    - split; [done|intros _; by eexists].
    - split; [intros (o & Ho); discriminate Ho|intros [H|H]; done]. }
  split.
  - rewrite renderLine_nonempty by done.
    split; [intros [m Hm]; discriminate Hm|intros [_ H]; done].
  - rewrite renderLine_nonempty by done.
    split; [intros _; by right|intros _; by eexists].
Qed.

(** What [renderLine] returns in integers for a line that is not empty. *)
Lemma renderLine_returns (input : RenderLineInput) (o : IRenderLineOutput) :
  renderLine input = Ok o -> lineContent input <> [] ->
  Layout (lineContent input) (parts input) (renderWhitespace input)
    (breakIndex input) o /\
  0 <= lastRenderedPartIndex o < Z.of_nat (length (parts input)) /\
  length (charOffsetInPart o) =
    (if Z.of_nat (length (lineContent input)) <=? breakIndex input
     then S (length (lineContent input))
     else scanned (lineContent input) (breakIndex input)) /\
  Forall is_Some (charOffsetInPart o).
Proof.
  intros Ho Hl.
  destruct (renderLine_layout input o Ho Hl) as (Hp & -> & Hlayout).
  split; [done|].
  pose proof (length_pos_nonempty _ Hl) as Hlen.
  pose proof (length_pos_nonempty _ Hp) as Hcount.
  split.
  { destruct (Z.le_gt_cases (Z.of_nat (length (lineContent input)))
                (breakIndex input)) as [Hcb|Hcb].
    - destruct (scan_complete (lineContent input) _ (tabSize input)
                  (renderWhitespace input) (parts input) Hlen Hp _ Hcb)
        as (s & _ & -> & _).
      cbn [completed lastRenderedPartIndex]. lia.
    - destruct (scan_truncated (lineContent input) _ (tabSize input)
                  (renderWhitespace input) (parts input) Hlen Hp _ _ Hcb
                  (Z.le_refl _))
        as (_ & s1 & j & part & _ & -> & Hj & _).
      cbn [truncated lastRenderedPartIndex]. apply lookup_lt_Some in Hj. lia. }
  split; [by apply renderLineActual_table_length|].
  by apply renderLineActual_wellformed.
Qed.



(** ** Escaping *)

(** C7.  The rendering of [<] is [&lt;], that of [>] is [&gt;] and that of
    [&] is [&amp;], each a single fragment, and no rendering of a character
    has a fragment in which [<] or [>] occurs, or [&] other than in the
    entities.  For every output of a line that is not empty, the renderings
    of the characters that are scanned are among the fragments of the output,
    in the order of the characters, each in the span of its part as the
    layout of the specification has it: so each [<], [>] and [&] that is
    scanned is in the output as its entity.  And every fragment of an output
    is markup of the renderer, the type of a part, or such a rendering. *)
Theorem special_characters_escaped :
  (forall prw g,
     (Rendered prw _lowerThan g <-> g = [str "&lt;"]) /\
     (Rendered prw _greaterThan g <-> g = [str "&gt;"]) /\
     (Rendered prw _ampersand g <-> g = [str "&amp;"])) /\
  (forall prw c g,
     Rendered prw c g ->
     Forall (fun f => Content f /\ (_lowerThan ∉ f) /\ (_greaterThan ∉ f) /\
                      (_ampersand ∈ f -> f ∈ entities)) g) /\
  (forall input o,
     renderLine input = Ok o -> lineContent input <> [] ->
     Layout (lineContent input) (parts input) (renderWhitespace input)
       (breakIndex input) o /\
     exists groups,
       Forall2 (fun c g => exists prw, Rendered prw c g)
         (take (scanned (lineContent input) (breakIndex input))
            (lineContent input)) groups /\
       concat groups `sublist_of` output o) /\
  (forall input o,
     renderLine input = Ok o ->
     Forall (fun f =>
               f ∈ structural \/ f = ellipsis \/ f = placeholder \/
               f ∈ (type <$> parts input) \/
               (Content f /\ (_lowerThan ∉ f) /\ (_greaterThan ∉ f) /\
                (_ampersand ∈ f -> f ∈ entities)))
       (output o)).
Proof.
  split; [intros prw g; repeat split; done|].
  split.
  { intros prw c g Hg. eapply Forall_impl; [by eapply Rendered_Content|].
    intros f Hf. split; [done|]. by apply Content_escaped. }
  split.
  { intros input o Hok Hline.
    destruct (renderLine_layout input o Hok Hline) as (Hparts & _ & Hlayout).
    split; [done|]. by eapply Layout_characters. }
  intros input o Hok.
  assert (Hfrag : forall f, Fragment (type <$> parts input) f ->
            f ∈ structural \/ f = ellipsis \/ f = placeholder \/
            f ∈ (type <$> parts input) \/
            (Content f /\ (_lowerThan ∉ f) /\ (_greaterThan ∉ f) /\
             (_ampersand ∈ f -> f ∈ entities))).
  { intros f [[H|[H|H]]|[H|H]]; auto.
    do 4 right. split; [done|]. by apply Content_escaped. }
  destruct (decide (lineContent input = [])) as [Hline|Hl].
  { unfold renderLine in Hok. rewrite Hline in Hok. simpl in Hok.
    injection Hok as <-. constructor; [|constructor]. right; right; by left. }
  destruct (decide (parts input = [])) as [Hparts|Hp].
  { unfold renderLine in Hok. rewrite Hparts in Hok.
    destruct (lineContent input); [done|]. discriminate Hok. }
  rewrite renderLine_nonempty in Hok by done. injection Hok as <-.
  eapply Forall_impl; [by apply renderLineActual_fragments|]. exact Hfrag.
Qed.

(** ** The ranges of the parts in the output *)

(** C9.  The output depends on the start indices only through those of the
    parts after the first, clamped to the length of the line, and the start
    index of the first part can be anything.  For every output of a line
    that is not empty, whatever the start indices are: the parts are rendered
    over the ranges [ranges], as the layout of the specification has it, each
    part in a span of its own with the renderings of the characters of its
    range; the first range begins at [0], every other range begins where the
    range before it ends, and a range ends at the start index of the next
    part clamped to the length of the line (at the length of the line for the
    last part), or where it begins when that is further; and every character
    of the line is in the range of exactly one part. *)
Theorem ranges_from_next_start :
  (forall lineText size limit flag ps qs,
     type <$> ps = type <$> qs ->
     clampedStarts (Z.of_nat (length lineText)) ps
       = clampedStarts (Z.of_nat (length lineText)) qs ->
     renderLine (mkRenderLineInput lineText size limit flag ps)
       = renderLine (mkRenderLineInput lineText size limit flag qs)) /\
  (forall lineText size limit flag p ps start,
     renderLine (mkRenderLineInput lineText size limit flag (p :: ps))
       = renderLine (mkRenderLineInput lineText size limit flag
                       (mkLineToken start (type p) :: ps))) /\
  (forall input o,
     renderLine input = Ok o -> lineContent input <> [] ->
     let n := length (lineContent input) in
     let rs := ranges n 0 (parts input) in
     Layout (lineContent input) (parts input) (renderWhitespace input)
       (breakIndex input) o /\
     length rs = length (parts input) /\
     (forall j a b,
        rs !! j = Some (a, b) ->
        (j = 0%nat -> a = 0%nat) /\
        (forall a' b', rs !! S j = Some (a', b') -> a' = b) /\
        b = Nat.max a
              (Z.to_nat match parts input !! S j with
                        | Some nextPart => Z.min (Z.of_nat n) (startIndex nextPart)
                        | None => Z.of_nat n
                        end)) /\
     (forall i, (i < n)%nat ->
        exists j a b,
          rs !! j = Some (a, b) /\ (a <= i)%nat /\ (i < b)%nat /\
          forall j' a' b',
            rs !! j' = Some (a', b') -> (a' <= i)%nat -> (i < b')%nat ->
            j' = j)).
Proof.
  assert (Hsame : forall lineText size limit flag ps qs,
     type <$> ps = type <$> qs ->
     clampedStarts (Z.of_nat (length lineText)) ps
       = clampedStarts (Z.of_nat (length lineText)) qs ->
     renderLine (mkRenderLineInput lineText size limit flag ps)
       = renderLine (mkRenderLineInput lineText size limit flag qs)).
  { intros lineText size limit flag ps qs Hty Hst.
    unfold renderLine.
    cbn [lineContent parts stopRenderingLineAfter].
    assert (Hlen : length ps = length qs).
    { apply (f_equal length) in Hty. by rewrite !length_fmap in Hty. }
    rewrite Hlen.
    destruct (_ =? 0); [done|]. destruct (_ =? 0)%nat; [done|].
    unfold renderLineActual. rewrite Hlen.
    by rewrite (partLoop_ranges _ _ _ _ _ ps qs 0 initial Hty Hst). }
  split; [exact Hsame|].
  split; [intros; by apply Hsame|].
  intros input o Hok Hline n rs.
  destruct (renderLine_layout input o Hok Hline) as (Hparts & _ & Hlayout).
  split; [done|]. split; [apply ranges_length|]. split.
  - intros j a b Hj.
    destruct (ranges_ordered n (parts input) 0 j a b ltac:(lia) Hj)
      as (_ & _ & _ & Hb & H0 & Hnext & _).
    split; [done|]. split; [done|]. by rewrite <- rangeEnd_drop.
  - intros i Hi. apply ranges_partition; [done|lia|done].
Qed.

(** * The caller's objects *)

Lemma readTokens_insert_fresh (h : gmap Heap.loc Heap.object) (l : Heap.loc)
    (o : Heap.object) (elements : list Heap.loc) (tokens : list LineToken) :
  h !! l = None ->
  Heap.readTokens h elements = Some tokens ->
  Heap.readTokens (<[l := o]> h) elements = Some tokens.
Proof.
  intros Hl. revert tokens.
  induction elements as [|e elements IH]; intros tokens; simpl; [done|].
  destruct (h !! e) as [[t| | |]|] eqn:He; try done.
  destruct (Heap.readTokens h elements) as [ts|]; [|done].
  intros [= <-]. rewrite lookup_insert_ne by congruence.
  by rewrite He, (IH ts eq_refl).
Qed.

Lemma tokensAt_insert_fresh (h : gmap Heap.loc Heap.object) (l a : Heap.loc)
    (o : Heap.object) (tokens : list LineToken) :
  h !! l = None ->
  Heap.tokensAt h a = Some tokens ->
  Heap.tokensAt (<[l := o]> h) a = Some tokens.
Proof.
  intros Hl. unfold Heap.tokensAt.
  destruct (h !! a) as [[| es | |]|] eqn:Ha; try done.
  intros Hread. rewrite lookup_insert_ne by congruence. rewrite Ha.
  by apply readTokens_insert_fresh.
Qed.

Lemma readTokens_length (h : gmap Heap.loc Heap.object)
    (elements : list Heap.loc) (tokens : list LineToken) :
  Heap.readTokens h elements = Some tokens -> length tokens = length elements.
Proof.
  revert tokens. induction elements as [|e elements IH]; intros tokens; simpl.
  - by intros [= <-].
  - destruct (h !! e) as [[t| | |]|]; try done.
    destruct (Heap.readTokens h elements) as [ts|]; [|done].
    intros [= <-]. simpl. by rewrite (IH ts).
Qed.

Lemma readTokens_lookup (h : gmap Heap.loc Heap.object)
    (elements : list Heap.loc) (tokens : list LineToken) (i : nat)
    (token : LineToken) :
  Heap.readTokens h elements = Some tokens -> tokens !! i = Some token ->
  exists e, elements !! i = Some e /\ h !! e = Some (Heap.TokenObj token).
Proof.
  revert tokens i. induction elements as [|e elements IH]; intros tokens i; simpl.
  - by intros [= <-].
  - destruct (h !! e) as [[t| | |]|] eqn:He; try done.
    destruct (Heap.readTokens h elements) as [ts|]; [|done].
    intros [= <-]. destruct i as [|i]; simpl.
    + intros [= <-]. by exists e.
    + intros Hi. by apply (IH ts).
Qed.

(** The scan in the store goes in step with the scan of [WithNaN] on lists:
    it writes to its two arrays and reads the tokens. *)
Section Store.

Variable hb : gmap Heap.loc Heap.object.
Variables outL arrL a : Heap.loc.
Variable tokens : list LineToken.

Hypothesis outL_arrL : outL <> arrL.
Hypothesis outL_fresh : hb !! outL = None.
Hypothesis arrL_fresh : hb !! arrL = None.
Hypothesis tokens_at : Heap.tokensAt hb a = Some tokens.

Variable lineText : jsstring.
Variable lineTextLength : Z.
Variable tabSize : Z.
Variable renderWhitespace : bool.
Variable charBreakIndex : Z.

Local Abbreviation store := (storeOf hb outL arrL).
Local Abbreviation storeAt s :=
  (storeOf hb outL arrL (WithNaN.Locals.out s) (WithNaN.Locals.charOffsetInPartArr s)).

Lemma store_lookup_other (out : list jsstring) (arr : list (option WithNaN.number))
    (l : Heap.loc) (o : Heap.object) :
  hb !! l = Some o -> store out arr !! l = Some o.
Proof.
  intros Hl. unfold storeOf.
  rewrite !lookup_insert_ne by congruence. done.
Qed.

Lemma pushString_store (x : jsstring) (out : list jsstring)
    (arr : list (option WithNaN.number)) :
  Heap.pushString outL x (store out arr) = Some (tt, store (out ++ [x]) arr).
Proof.
  unfold Heap.pushString, storeOf. rewrite lookup_insert_eq.
  by rewrite insert_insert_eq.
Qed.

Lemma store_set_arr (out : list jsstring) (arr arr' : list (option WithNaN.number)) :
  <[arrL := Heap.NumbersObj arr']> (store out arr) = store out arr'.
Proof.
  unfold storeOf. rewrite insert_insert_ne by done.
  by rewrite insert_insert_eq.
Qed.

Lemma store_lookup_arr (out : list jsstring) (arr : list (option WithNaN.number)) :
  store out arr !! arrL = Some (Heap.NumbersObj arr).
Proof.
  unfold storeOf. rewrite lookup_insert_ne by done. by rewrite lookup_insert_eq.
Qed.

Lemma setNumber_store (i : Z) (v : WithNaN.number) (out : list jsstring) (arr : list (option WithNaN.number)) :
  Heap.setNumber arrL i v (store out arr) =
  Some (tt, store out (WithNaN.array_set arr i v)).
Proof. unfold Heap.setNumber. by rewrite store_lookup_arr, store_set_arr. Qed.

Lemma pushNumber_store (v : WithNaN.number) (out : list jsstring) (arr : list (option WithNaN.number)) :
  Heap.pushNumber arrL v (store out arr) = Some (tt, store out (arr ++ [Some v])).
Proof. unfold Heap.pushNumber. by rewrite store_lookup_arr, store_set_arr. Qed.

Lemma incrLast_store (out : list jsstring) (arr : list (option WithNaN.number)) :
  Heap.incrLast arrL (store out arr) = Some (tt, store out (WithNaN.array_incr_last arr)).
Proof. unfold Heap.incrLast. by rewrite store_lookup_arr, store_set_arr. Qed.

Lemma getLength_store (out : list jsstring) (arr : list (option WithNaN.number)) :
  Heap.getLength a (store out arr) = Some (length tokens, store out arr).
Proof.
  pose proof tokens_at as Hat. unfold Heap.tokensAt in Hat.
  destruct (hb !! a) as [[| es | |]|] eqn:Ha; try done.
  unfold Heap.getLength. rewrite (store_lookup_other _ _ _ _ Ha).
  by rewrite (readTokens_length _ _ _ Hat).
Qed.

Lemma getPart_store (i : nat) (part : LineToken) (out : list jsstring)
    (arr : list (option WithNaN.number)) :
  tokens !! i = Some part ->
  Heap.getPart a i (store out arr) = Some (part, store out arr).
Proof.
  intros Hi. pose proof tokens_at as Hat. unfold Heap.tokensAt in Hat.
  destruct (hb !! a) as [[| es | |]|] eqn:Ha; try done.
  destruct (readTokens_lookup _ _ _ _ _ Hat Hi) as (e & He & Htoken).
  unfold Heap.getPart. rewrite (store_lookup_other _ _ _ _ Ha), He.
  by rewrite (store_lookup_other _ _ _ _ Htoken).
Qed.

Lemma push_store (x : jsstring) (s : WithNaN.Locals.t) :
  Heap.push outL x (varsOf s) (storeAt s) =
  Some (varsOf (WithNaN.Locals.push x s), storeAt (WithNaN.Locals.push x s)).
Proof. unfold Heap.push, Heap.bind. by rewrite pushString_store. Qed.

Lemma pushSpaces_store (fuel : nat) :
  forall (insertSpacesCount : WithNaN.number) (out : list jsstring) (arr : list (option WithNaN.number)),
  Heap.pushSpaces outL fuel insertSpacesCount (store out arr) =
  Some (tt, store (WithNaN.pushSpaces fuel insertSpacesCount out) arr).
Proof.
  induction fuel as [|fuel IH]; intros isc out arr; cbn [Heap.pushSpaces WithNaN.pushSpaces];
    [done|].
  destruct (WithNaN.positive isc); [|done].
  unfold Heap.bind. rewrite pushString_store. apply IH.
Qed.

Lemma renderTab_store (prw : bool) (s : WithNaN.Locals.t) :
  Heap.renderTab tabSize outL prw (varsOf s) (storeAt s) =
  Some (varsOf (WithNaN.renderTab tabSize prw s), storeAt (WithNaN.renderTab tabSize prw s)).
Proof.
  unfold Heap.renderTab, WithNaN.renderTab, Heap.bind.
  cbn [varsOf Heap.Vars.charIndex Heap.Vars.tabsCharDelta
       Heap.Vars.charOffsetInPart WithNaN.Locals.out WithNaN.Locals.charOffsetInPartArr
       WithNaN.Locals.charIndex WithNaN.Locals.charOffsetInPart WithNaN.Locals.tabsCharDelta].
  destruct (WithNaN.positive _).
  - rewrite pushString_store, pushSpaces_store. done.
  - cbn [Heap.ret]. rewrite pushSpaces_store. done.
Qed.

Lemma renderCharCode_store (prw : bool) (cc : option Z) (s : WithNaN.Locals.t) :
  Heap.renderCharCode lineText tabSize outL prw cc (varsOf s) (storeAt s) =
  Some (varsOf (WithNaN.renderCharCode lineText tabSize prw cc s),
        storeAt (WithNaN.renderCharCode lineText tabSize prw cc s)).
Proof.
  unfold Heap.renderCharCode, WithNaN.renderCharCode.
  destruct cc as [c|]; [|apply push_store].
  destruct (c =? _tab); [apply renderTab_store|].
  repeat match goal with
         | |- context [if ?b then _ else _] => destruct b
         end; apply push_store.
Qed.

Lemma renderChar_store (prw : bool) (s : WithNaN.Locals.t) :
  Heap.renderChar lineText tabSize outL arrL prw (varsOf s) (storeAt s) =
  Some (varsOf (WithNaN.renderChar lineText tabSize prw s),
        storeAt (WithNaN.renderChar lineText tabSize prw s)).
Proof.
  unfold Heap.renderChar, Heap.bind.
  cbn [varsOf Heap.Vars.charIndex Heap.Vars.charOffsetInPart].
  rewrite setNumber_store.
  set (s1 := WithNaN.Locals.mk (WithNaN.Locals.charIndex s) (WithNaN.Locals.out s)
               (WithNaN.array_set (WithNaN.Locals.charOffsetInPartArr s) (WithNaN.Locals.charIndex s)
                  (WithNaN.Locals.charOffsetInPart s))
               (WithNaN.Locals.charOffsetInPart s) (WithNaN.Locals.tabsCharDelta s)).
  change (Heap.Vars.mk (WithNaN.Locals.charIndex s) (WithNaN.Locals.charOffsetInPart s)
            (WithNaN.Locals.tabsCharDelta s)) with (varsOf s1).
  change (store (WithNaN.Locals.out s)
            (WithNaN.array_set (WithNaN.Locals.charOffsetInPartArr s) (WithNaN.Locals.charIndex s)
               (WithNaN.Locals.charOffsetInPart s))) with (storeAt s1).
  rewrite (renderCharCode_store prw _ s1). done.
Qed.

Lemma charLoop_store (prw : bool) (to pi : Z) (fuel : nat) :
  forall s : WithNaN.Locals.t,
  Heap.charLoop lineText tabSize charBreakIndex outL arrL fuel prw to pi
    (varsOf s) (storeAt s) =
  Some (flowOf hb outL arrL
          (WithNaN.charLoop lineText tabSize charBreakIndex fuel prw to pi s)).
Proof.
  induction fuel as [|fuel IH]; intros s; cbn [Heap.charLoop WithNaN.charLoop]; [done|].
  cbn [varsOf Heap.Vars.charIndex].
  destruct (WithNaN.Locals.charIndex s <? to); [|done].
  unfold Heap.bind at 1. fold (varsOf s). rewrite renderChar_store.
  cbn [varsOf Heap.Vars.charIndex].
  set (s1 := WithNaN.renderChar lineText tabSize prw s).
  destruct (charBreakIndex <=? _).
  - unfold Heap.truncated, Heap.bind.
    rewrite pushString_store, incrLast_store. done.
  - exact (IH (WithNaN.Locals.mk (WithNaN.Locals.charIndex s1 + 1) (WithNaN.Locals.out s1)
                 (WithNaN.Locals.charOffsetInPartArr s1) (WithNaN.Locals.charOffsetInPart s1)
                 (WithNaN.Locals.tabsCharDelta s1))).
Qed.

Lemma renderPart_store (i : nat) (part : LineToken) (s : WithNaN.Locals.t) :
  tokens !! i = Some part ->
  Heap.renderPart lineText lineTextLength tabSize a renderWhitespace
    charBreakIndex outL arrL i (length tokens) (varsOf s) (storeAt s) =
  Some (flowOf hb outL arrL
          (WithNaN.renderPart lineText lineTextLength tabSize renderWhitespace
             charBreakIndex (Z.of_nat i) part (drop (S i) tokens) s)).
Proof.
  intros Hi. unfold Heap.renderPart, WithNaN.renderPart.
  unfold Heap.bind at 1. rewrite (getPart_store i part) by done.
  unfold Heap.bind at 1. rewrite push_store.
  unfold Heap.bind at 1. rewrite push_store.
  unfold Heap.bind at 1. rewrite push_store.
  set (s1 := WithNaN.Locals.push tokenClose
               (WithNaN.Locals.push (type part) (WithNaN.Locals.push tokenOpen s))).
  set (to := match drop (S i) tokens with
             | nextPart :: _ => Z.min lineTextLength (startIndex nextPart)
             | [] => lineTextLength
             end).
  assert (Hto :
    (if (i + 1 <? length tokens)%nat
     then Heap.bind (Heap.getPart a (i + 1))
            (fun nextPart =>
               Heap.ret (Z.min lineTextLength (startIndex nextPart)))
     else Heap.ret lineTextLength) (storeAt s1) = Some (to, storeAt s1)).
  { subst to. rewrite Nat.add_1_r.
    destruct (tokens !! S i) as [q|] eqn:Hq.
    - pose proof (lookup_lt_Some _ _ _ Hq) as Hlt.
      destruct (Nat.ltb_spec (S i) (length tokens)); [|lia].
      unfold Heap.bind. rewrite (getPart_store (S i) q) by done.
      by rewrite (drop_S _ _ _ Hq).
    - pose proof (lookup_ge_None_1 _ _ Hq) as Hge.
      destruct (Nat.ltb_spec (S i) (length tokens)); [lia|].
      by rewrite drop_ge. }
  unfold Heap.bind at 1. rewrite Hto.
  unfold Heap.bind at 1.
  set (s2 := WithNaN.Locals.mk (WithNaN.Locals.charIndex s1) (WithNaN.Locals.out s1)
               (WithNaN.Locals.charOffsetInPartArr s1) (WithNaN.Int 0)
               (WithNaN.Locals.tabsCharDelta s1)).
  change (Heap.Vars.mk (Heap.Vars.charIndex (varsOf s1)) (WithNaN.Int 0)
            (Heap.Vars.tabsCharDelta (varsOf s1))) with (varsOf s2).
  change (storeAt s1) with (storeAt s2).
  change (Heap.Vars.charIndex (varsOf s2)) with (WithNaN.Locals.charIndex s2).
  rewrite charLoop_store.
  destruct (WithNaN.charLoop _ _ _ _ _ _ _ s2) as [s3|o]; cbn [flowOf]; [|done].
  unfold Heap.bind. rewrite pushString_store. done.
Qed.

Lemma partLoop_store (fuel : nat) :
  forall (i : nat) (s : WithNaN.Locals.t),
  (length tokens - i <= fuel)%nat ->
  Heap.partLoop lineText lineTextLength tabSize a renderWhitespace
    charBreakIndex outL arrL fuel i (length tokens) (varsOf s) (storeAt s) =
  Some (flowOf hb outL arrL
          (WithNaN.partLoop lineText lineTextLength tabSize renderWhitespace
             charBreakIndex (Z.of_nat i) (drop i tokens) s)).
Proof.
  induction fuel as [|fuel IH]; intros i s Hfuel; cbn [Heap.partLoop].
  - rewrite drop_ge by lia. done.
  - destruct (Nat.ltb_spec i (length tokens)) as [Hlt|Hge].
    2:{ rewrite drop_ge by lia. done. }
    destruct (tokens !! i) as [part|] eqn:Hi.
    2:{ apply lookup_ge_None_1 in Hi. lia. }
    rewrite (drop_S _ _ _ Hi). cbn [WithNaN.partLoop].
    unfold Heap.bind. rewrite (renderPart_store i part s Hi).
    destruct (WithNaN.renderPart _ _ _ _ _ _ part _ s) as [s'|o]; cbn [flowOf]; [|done].
    rewrite (IH (S i) s') by lia. by rewrite Nat2Z.inj_succ.
Qed.

End Store.

(** [Heap.renderLineActual] in a store where its array refers to tokens: it
    allocates its two arrays, leaves in them what the scan on lists returns,
    and writes to nothing else. *)
Lemma renderLineActual_store (h : gmap Heap.loc Heap.object) (a : Heap.loc)
    (tokens : list LineToken) (lineText : jsstring) (size : Z) (flag : bool)
    (cb : Z) :
  Heap.tokensAt h a = Some tokens ->
  let outL := fresh (dom h) in
  let arrL := fresh (dom (<[outL := Heap.StringsObj []]> h)) in
  let o := WithNaN.renderLineActual lineText (Z.of_nat (length lineText)) size tokens
             flag cb in
  h !! outL = None /\ h !! arrL = None /\ outL <> arrL /\
  Heap.renderLineActual lineText (Z.of_nat (length lineText)) size a flag cb h =
  Some (Heap.mkOutput arrL (WithNaN.lastRenderedPartIndex o) outL,
        storeOf h outL arrL (WithNaN.output o) (WithNaN.charOffsetInPart o)).
Proof.
  intros Htokens outL arrL o.
  assert (Hout : h !! outL = None) by (apply not_elem_of_dom, is_fresh).
  assert (Harr' : arrL ∉ dom (<[outL := Heap.StringsObj []]> h)) by apply is_fresh.
  assert (Hne : outL <> arrL).
  { intros Heq. apply Harr'. rewrite <- Heq. apply elem_of_dom.
    rewrite lookup_insert_eq. by eexists. }
  assert (Harr : h !! arrL = None).
  { apply not_elem_of_dom. intros Hin. apply Harr'.
    apply elem_of_dom. rewrite lookup_insert_ne by done. by apply elem_of_dom. }
  do 3 (split; [done|]).
  unfold Heap.renderLineActual, Heap.bind, Heap.alloc. fold outL. fold arrL.
  assert (Hstore : <[arrL := Heap.NumbersObj []]> (<[outL := Heap.StringsObj []]> h)
                   = storeOf h outL arrL [] []).
  { unfold storeOf. by rewrite insert_insert_ne. }
  rewrite Hstore.
  rewrite pushString_store.
  rewrite (getLength_store h outL arrL a tokens Hout Harr Htokens).
  pose proof (partLoop_store h outL arrL a tokens Hne Hout Harr Htokens lineText
                (Z.of_nat (length lineText)) size flag cb (length tokens) 0%nat
                WithNaN.initial ltac:(lia)) as Hloop.
  rewrite drop_0 in Hloop.
  change (Heap.Vars.mk 0 (WithNaN.Int 0) (WithNaN.Int 0))
    with (varsOf WithNaN.initial).
  change (storeOf h outL arrL ([] ++ [str "<span>"]) [])
    with (storeOf h outL arrL (WithNaN.Locals.out WithNaN.initial)
            (WithNaN.Locals.charOffsetInPartArr WithNaN.initial)).
  rewrite Hloop. subst o. unfold WithNaN.renderLineActual.
  destruct (WithNaN.partLoop _ _ _ _ _ _ tokens WithNaN.initial) as [s|o']; cbn [flowOf]; [|done].
  rewrite pushString_store.
  rewrite (pushNumber_store h outL arrL Hne). done.
Qed.



(** * The save participant *)

Section Participant.

Import SaveParticipant.

Variables Range IRange EndOfLine EndOfLineSequence : Type.
Variable fromRange : Range -> IRange.
Variable EndOfLine_from : option EndOfLine -> EndOfLineSequence.
Variable typeErrorMessage : jsstring.

Local Abbreviation deliver :=
  (deliverEventAsyncAndBlameBadListeners fromRange EndOfLine_from
     typeErrorMessage).
Local Abbreviation run := (deliveries fromRange EndOfLine_from typeErrorMessage).
Local Abbreviation settle :=
  (deliverEventAsync fromRange EndOfLine_from typeErrorMessage).
Local Abbreviation collect :=
  (collectEdits fromRange EndOfLine_from typeErrorMessage).
Local Abbreviation collectFrom' :=
  (collectFrom fromRange EndOfLine_from typeErrorMessage).
Local Abbreviation failing :=
  (fails fromRange EndOfLine_from typeErrorMessage).

Lemma nextCount_Some (n : Z) : nextCount (Some n) = n + 1.
Proof. unfold nextCount. destruct (Z.eqb_spec n 0) as [->|_]; reflexivity. Qed.

(** An ignored listener is not delivered to. *)
Lemma deliver_ignored (th : Thresholds) (bad : BadListeners) (l : Listener)
    (v : Z) (b : Behaviour Range EndOfLine) :
  exceeds (bad !! l) th = true -> deliver th bad l v b = (bad, false).
Proof.
  intros Hbad. unfold deliverEventAsyncAndBlameBadListeners. by rewrite Hbad.
Qed.

(** A delivery that fails is counted. *)
Lemma deliver_fails (th : Thresholds) (bad : BadListeners) (l : Listener)
    (v : Z) (b : Behaviour Range EndOfLine) (err : Thrown) :
  exceeds (bad !! l) th = false ->
  settle v b = Rejected err -> counts err = true ->
  deliver th bad l v b = (<[l := nextCount (bad !! l)]> bad, false).
Proof.
  intros Hbad Hsettle Hcounts. unfold deliverEventAsyncAndBlameBadListeners.
  rewrite Hbad, Hsettle. unfold onRejected. by rewrite Hcounts.
Qed.

(** A delivery writes at most the count of its listener, and returns [false]
    when it writes. *)
Lemma deliver_cases (th : Thresholds) (bad : BadListeners) (l : Listener)
    (v : Z) (b : Behaviour Range EndOfLine) :
  (deliver th bad l v b).1 = bad \/
  deliver th bad l v b = (<[l := nextCount (bad !! l)]> bad, false).
Proof.
  unfold deliverEventAsyncAndBlameBadListeners.
  destruct (exceeds _ _); [by left|].
  destruct (settle v b) as [|err]; [by left|].
  unfold onRejected. destruct (counts err); [by right|by left].
Qed.

Lemma deliver_other (th : Thresholds) (bad : BadListeners) (l l' : Listener)
    (v : Z) (b : Behaviour Range EndOfLine) :
  l' <> l -> (deliver th bad l v b).1 !! l' = bad !! l'.
Proof.
  intros Hne. destruct (deliver_cases th bad l v b) as [->| ->]; [done|].
  cbn. by rewrite lookup_insert_ne.
Qed.

(** X15.  A listener that is ignored stays ignored.  Once the count of a
    listener exceeds the threshold, whatever is delivered afterwards, to it or
    to other listeners, its count stays as it is and every promise of a
    delivery to it has the value [false]. *)
Theorem bad_listener_stays_ignored (th : Thresholds) (bad : BadListeners)
    (l : Listener) (ds : list (Delivery Range EndOfLine)) :
  exceeds (bad !! l) th = true ->
  (run th bad ds).1 !! l = bad !! l /\
  forall (i : nat) (d : Delivery Range EndOfLine),
    ds !! i = Some d -> to d = l -> (run th bad ds).2 !! i = Some false.
Proof.
  revert bad. induction ds as [|d ds IH]; intros bad Hbad; [done|].
  cbn [deliveries fst snd].
  set (r := deliver th bad (to d) (version d) (behaviour d)).
  assert (Hr : r.1 !! l = bad !! l).
  { subst r. destruct (decide (l = to d)) as [->|Hne].
    - by rewrite deliver_ignored.
    - by apply deliver_other. }
  destruct (IH r.1 ltac:(by rewrite Hr)) as (Hcount & Hresults).
  split; [by rewrite Hcount|].
  intros [|i] d' Hd' Hto.
  - injection Hd' as <-. subst r l. by rewrite deliver_ignored.
  - cbn. by apply (Hresults i d').
Qed.

Lemma count_after_failures (th : Thresholds) (l : Listener)
    (ds : list (Delivery Range EndOfLine)) :
  Forall (fun d => to d = l /\ failing d) ds ->
  forall (bad : BadListeners) (c : Z),
    bad !! l = Some c ->
    (run th bad ds).1 !! l =
      Some (if errors th <? c then c
            else Z.min (c + Z.of_nat (length ds)) (errors th + 1)) /\
    (run th bad ds).2 = replicate (length ds) false.
Proof.
  induction 1 as [|d ds [Hto (err & Hsettle & Hcounts)] _ IH]; intros bad c Hc.
  - cbn. split; [|done]. rewrite Hc. f_equal.
    destruct (Z.ltb_spec (errors th) c); lia.
  - cbn [deliveries fst snd length replicate]. rewrite Hto.
    destruct (Z.ltb_spec (errors th) c) as [Hover|Hunder].
    + rewrite deliver_ignored by (rewrite Hc; cbn; by apply Z.ltb_lt).
      destruct (IH bad c Hc) as (Hcount & Hresults). cbn [fst snd].
      rewrite Hcount, Hresults. destruct (Z.ltb_spec (errors th) c); [done|lia].
    + rewrite (deliver_fails th bad l _ _ err)
        by (done || (rewrite Hc; cbn; by apply Z.ltb_ge)).
      cbn [fst snd].
      destruct (IH (<[l := nextCount (bad !! l)]> bad) (c + 1)
                  ltac:(by rewrite lookup_insert_eq, Hc, nextCount_Some))
        as (Hcount & Hresults).
      rewrite Hcount, Hresults. split; [|done]. f_equal.
      destruct (Z.ltb_spec (errors th) (c + 1)); lia.
Qed.

(** X16.  Failures are counted until the listener is ignored.  For a
    listener that is not in the map and a threshold that is not negative,
    after deliveries to it that all fail with something that counts, its
    count is the number of the deliveries, but at most one more than the
    threshold; it is ignored exactly when the deliveries were more than the
    threshold (with the default of [3]: from the fourth failure on); and the
    promise of every one of the deliveries has the value [false]. *)
Theorem failures_counted_until_ignored (th : Thresholds) (bad : BadListeners)
    (l : Listener) (ds : list (Delivery Range EndOfLine)) :
  0 <= errors th -> bad !! l = None -> ds <> [] ->
  Forall (fun d => to d = l /\ failing d) ds ->
  (run th bad ds).1 !! l =
    Some (Z.min (Z.of_nat (length ds)) (errors th + 1)) /\
  (exceeds ((run th bad ds).1 !! l) th = true <->
   errors th < Z.of_nat (length ds)) /\
  (run th bad ds).2 = replicate (length ds) false.
Proof.
  intros Hth Hnone Hds Hall. destruct ds as [|d ds]; [done|].
  apply Forall_cons in Hall as [[Hto (err & Hsettle & Hcounts)] Hall].
  cbn [deliveries fst snd length replicate]. rewrite Hto.
  rewrite (deliver_fails th bad l _ _ err) by (done || by rewrite Hnone).
  cbn [fst snd]. rewrite Hnone. cbn [nextCount].
  destruct (count_after_failures th l ds Hall (<[l := 1]> bad) 1
              ltac:(by rewrite lookup_insert_eq)) as (Hcount & Hresults).
  rewrite Hcount, Hresults.
  assert (Hvalue :
    (if errors th <? 1 then 1
     else Z.min (1 + Z.of_nat (length ds)) (errors th + 1)) =
    Z.min (Z.of_nat (S (length ds))) (errors th + 1)).
  { destruct (Z.ltb_spec (errors th) 1); lia. }
  rewrite Hvalue. split; [done|]. split; [|done].
  cbn [exceeds]. rewrite Z.ltb_lt. lia.
Qed.

(** X17.  Deliveries to other listeners leave the count of a listener as it
    is. *)
Theorem other_listeners_untouched (th : Thresholds) (bad : BadListeners)
    (l : Listener) (ds : list (Delivery Range EndOfLine)) :
  Forall (fun d => to d <> l) ds -> (run th bad ds).1 !! l = bad !! l.
Proof.
  intros Hall. revert bad. induction Hall as [|d ds Hd _ IH]; intros bad; [done|].
  cbn [deliveries fst]. rewrite IH. apply deliver_other. congruence.
Qed.

(** X18.  A change of the document during the delivery is not held against
    the listener.  When the listener does not throw, its promises are
    fulfilled in time with at least one edit, and the version of the document
    is then no longer that of the delivery, the edits are not applied, the
    promise has the value [false] and the map is as before. *)
Theorem version_conflict_not_counted (th : Thresholds) (bad : BadListeners)
    (l : Listener) (v : Z) (b : Behaviour Range EndOfLine)
    (values : list (Value Range EndOfLine))
    (edits : list (ResourceEdit IRange EndOfLineSequence)) :
  throws b = None -> joined b = JoinedValues values ->
  collect values = inr edits -> edits <> [] -> documentVersion b <> v ->
  onJoined fromRange EndOfLine_from typeErrorMessage v (documentVersion b)
    values =
    Reject (Error (str "concurrent_edits")) /\
  deliver th bad l v b = (bad, false).
Proof.
  intros Hthrows Hjoined Hcollect Hedits Hversion.
  assert (Hcont :
    onJoined fromRange EndOfLine_from typeErrorMessage v (documentVersion b)
      values = Reject (Error (str "concurrent_edits"))).
  { unfold onJoined. rewrite Hcollect. destruct edits as [|e es]; [done|]. cbn.
    destruct (Z.eqb_spec v (documentVersion b)); [congruence|done]. }
  split; [exact Hcont|].
  unfold deliverEventAsyncAndBlameBadListeners, deliverEventAsync.
  destruct (exceeds _ _); [done|].
  by rewrite Hthrows, Hjoined, Hcont.
Qed.

(** X19.  A timeout is held against the listener.  When a listener that is
    not ignored does not throw and the timer fires before its promises are
    settled, the promise has the value [false] and the count of the listener
    is one more than before ([1] for a listener that was not in the map). *)
Theorem timeout_is_counted (th : Thresholds) (bad : BadListeners)
    (l : Listener) (v : Z) (b : Behaviour Range EndOfLine) :
  exceeds (bad !! l) th = false -> throws b = None -> joined b = JoinedTimeout ->
  deliver th bad l v b = (<[l := default 0 (bad !! l) + 1]> bad, false).
Proof.
  intros Hbad Hthrows Hjoined.
  rewrite (deliver_fails th bad l v b (Error (str "timeout"))); [|done| |done].
  - f_equal. f_equal. destruct (bad !! l) as [n|]; [|done].
    apply nextCount_Some.
  - unfold deliverEventAsync. by rewrite Hthrows, Hjoined.
Qed.

(** The loop over an array of [TextEdit]s pushes them in their order. *)
Lemma pushAll_edits (edits : list (ResourceEdit IRange EndOfLineSequence))
    (es : list (TextEdit Range EndOfLine)) :
  pushAll fromRange EndOfLine_from typeErrorMessage edits (Edit <$> es) =
  inr (edits ++ (toResourceEdit fromRange EndOfLine_from <$> es)).
Proof.
  revert edits. induction es as [|e es IH]; intros edits; cbn.
  - by rewrite app_nil_r.
  - by rewrite IH, <- app_assoc.
Qed.

(** The loop over an array with a hole and without another element that is
    no [TextEdit] throws at the first hole. *)
Lemma pushAll_hole (edits : list (ResourceEdit IRange EndOfLineSequence))
    (elements : list (Element Range EndOfLine)) :
  Hole ∈ elements -> Other ∉ elements ->
  pushAll fromRange EndOfLine_from typeErrorMessage edits elements =
  inl (Error typeErrorMessage).
Proof.
  revert edits. induction elements as [|[|e|] elements IH]; intros edits Hin Hout.
  - by apply elem_of_nil in Hin.
  - done.
  - cbn. apply IH.
    + apply elem_of_cons in Hin as [|]; [done|assumption].
    + intros Hother. apply Hout. by right.
  - done.
Qed.

Lemma everyTextEdit_true (elements : list (Element Range EndOfLine)) :
  everyTextEdit elements = true <-> Other ∉ elements.
Proof.
  unfold everyTextEdit. rewrite forallb_forall. split.
  - intros Hall Hin. apply list_elem_of_In in Hin. by specialize (Hall _ Hin).
  - intros Hout [| |] Hin; try done. by apply list_elem_of_In in Hin.
Qed.

(** The loop over the values, after the values before. *)
Lemma collectFrom_app (edits : list (ResourceEdit IRange EndOfLineSequence))
    (vs ws : list (Value Range EndOfLine)) :
  collectFrom' edits (vs ++ ws) =
  match collectFrom' edits vs with
  | inl err => inl err
  | inr edits' => collectFrom' edits' ws
  end.
Proof.
  revert edits. induction vs as [|value vs IH]; intros edits; [done|].
  cbn. destruct (pushEdits _ _ _ _ _); [done|]. apply IH.
Qed.

(** The edits so far stay in front of what the loop pushes. *)
Lemma collectFrom_edits (edits : list (ResourceEdit IRange EndOfLineSequence))
    (values : list (Value Range EndOfLine)) :
  collectFrom' edits values =
  match collect values with
  | inl err => inl err
  | inr edits' => inr (edits ++ edits')
  end.
Proof.
  assert (Hpush : forall elements base more,
    pushAll fromRange EndOfLine_from typeErrorMessage (base ++ more) elements =
    match pushAll fromRange EndOfLine_from typeErrorMessage more elements with
    | inl err => inl err
    | inr edits' => inr (base ++ edits')
    end).
  { induction elements as [|[|e|] elements IH]; intros base more; try done.
    cbn. rewrite <- app_assoc. apply IH. }
  assert (Hgen : forall values base more,
    collectFrom' (base ++ more) values =
    match collectFrom' more values with
    | inl err => inl err
    | inr edits' => inr (base ++ edits')
    end).
  { induction values0 as [|value values0 IH]; intros base more; [done|].
    cbn. destruct value as [|elements]; cbn; [apply IH|].
    destruct (everyTextEdit elements); [|apply IH].
    rewrite Hpush. destruct (pushAll _ _ _ more elements); [done|]. apply IH. }
  unfold collectEdits. rewrite <- (app_nil_r edits) at 1. apply Hgen.
Qed.

(** X20.  What the loop does with an array.  An array with an element that
    is no [TextEdit] and no hole is dropped as a whole.  An array of
    [TextEdit]s gives its edits in their order, between those of the values
    before and after it.  For an array with a hole and otherwise only
    [TextEdit]s the test of [every] passes, since it skips the hole, and the
    loop over the array throws at the hole: no edit is applied, the delivery
    is rejected with what was thrown, and it is counted against the
    listener. *)
Theorem array_taken_dropped_or_thrown
    (before after : list (Value Range EndOfLine))
    (elements : list (Element Range EndOfLine)) :
  (Other ∈ elements ->
   collect (before ++ ArrayOf elements :: after) = collect (before ++ after)) /\
  (forall es edits edits',
     elements = Edit <$> es ->
     collect before = inr edits -> collect after = inr edits' ->
     collect (before ++ ArrayOf elements :: after) =
     inr (edits ++ (toResourceEdit fromRange EndOfLine_from <$> es) ++ edits')) /\
  (forall err, collect before = inl err ->
     collect (before ++ ArrayOf elements :: after) = inl err) /\
  (Hole ∈ elements -> Other ∉ elements ->
   forall edits, collect before = inr edits ->
     collect (before ++ ArrayOf elements :: after) =
       inl (Error typeErrorMessage) /\
     forall th bad l v (b : Behaviour Range EndOfLine),
       throws b = None ->
       joined b = JoinedValues (before ++ ArrayOf elements :: after) ->
       settle v b = Rejected (Error typeErrorMessage) /\
       (exceeds (bad !! l) th = false ->
        typeErrorMessage <> str "concurrent_edits" ->
        deliver th bad l v b =
          (<[l := default 0 (bad !! l) + 1]> bad, false))).
Proof.
  assert (Hsplit : forall value,
    collect (before ++ value :: after) =
    match collect before with
    | inl err => inl err
    | inr edits =>
        match pushEdits fromRange EndOfLine_from typeErrorMessage edits value with
        | inl err => inl err
        | inr edits' => collectFrom' edits' after
        end
    end).
  { intros value. unfold collectEdits. by rewrite collectFrom_app. }
  split; [|split; [|split]].
  - intros Hother. rewrite Hsplit. unfold collectEdits at 2.
    rewrite collectFrom_app. fold (collect before).
    destruct (collect before) as [err|edits]; [done|]. cbn.
    destruct (everyTextEdit elements) eqn:Hevery; [|done].
    by apply everyTextEdit_true in Hevery.
  - intros es edits edits' -> Hbefore Hafter. rewrite Hsplit, Hbefore. cbn.
    assert (everyTextEdit (Edit <$> es) = true) as ->.
    { apply everyTextEdit_true. intros Hin.
      apply list_elem_of_fmap in Hin as (e & He & _). done. }
    rewrite pushAll_edits, collectFrom_edits, Hafter. by rewrite app_assoc.
  - intros err Hbefore. by rewrite Hsplit, Hbefore.
  - intros Hhole Hother edits Hbefore.
    assert (Hcollect : collect (before ++ ArrayOf elements :: after) =
                       inl (Error typeErrorMessage)).
    { rewrite Hsplit, Hbefore. cbn.
      assert (everyTextEdit elements = true) as ->
        by by apply everyTextEdit_true.
      by rewrite pushAll_hole. }
    split; [exact Hcollect|].
    intros th bad l v b Hthrows Hjoined.
    assert (Hsettle : settle v b = Rejected (Error typeErrorMessage)).
    { unfold deliverEventAsync, onJoined.
      by rewrite Hthrows, Hjoined, Hcollect. }
    split; [exact Hsettle|]. intros Hbad Hmessage.
    rewrite (deliver_fails th bad l v b (Error typeErrorMessage)); [|done|done|].
    + f_equal. f_equal. destruct (bad !! l) as [n|]; [|done].
      apply nextCount_Some.
    + unfold counts. cbn. by rewrite bool_decide_eq_false_2.
Qed.

End Participant.

(** * The further properties at the examples *)

(** A limit of [9] on the six characters of [c2_input]. *)
Lemma limit_beyond_line_witness :
  Z.of_nat (length (lineContent c2_input)) < 9 /\
  renderLine (mkRenderLineInput (lineContent c2_input) 4 9 false (parts c2_input)) =
  renderLine (mkRenderLineInput (lineContent c2_input) 4 (-1) false (parts c2_input)).
Proof.
  assert (Hlimit : Z.of_nat (length (lineContent c2_input)) < 9)
    by (vm_compute; reflexivity).
  split; [exact Hlimit|].
  exact (limit_beyond_line (lineContent c2_input) 4 9 false (parts c2_input) Hlimit).
Defined.

(** A limit of [0] on the line of [c2_input]. *)
Lemma limit_below_one_witness :
  0 <= 1 /\ 0 <> -1 /\
  renderLine (mkRenderLineInput (lineContent c2_input) 4 0 false (parts c2_input)) =
  renderLine (mkRenderLineInput (lineContent c2_input) 4 1 false (parts c2_input)).
Proof.
  assert (Hlimit : 0 <= 1) by lia.
  assert (Hno : 0 <> -1) by discriminate.
  split; [exact Hlimit|]. split; [exact Hno|].
  exact (limit_below_one (lineContent c2_input) 4 0 false (parts c2_input) Hlimit Hno).
Defined.

(** The parts of [c2_input] under other types, one of them whitespace, with
    the flag on. *)
Lemma positions_ignore_types_witness :
  startIndex <$> parts c2_input =
    startIndex <$> [mkLineToken 0 (str "a b"); mkLineToken 2 (str "whitespace");
                    mkLineToken 4 []] /\
  shape (renderLine (mkRenderLineInput (str "a b c ") 4 5 false (parts c2_input))) =
  shape (renderLine
           (mkRenderLineInput (str "a b c ") 4 5 true
              [mkLineToken 0 (str "a b"); mkLineToken 2 (str "whitespace");
               mkLineToken 4 []])).
Proof.
  assert (Hst : startIndex <$> parts c2_input =
                startIndex <$> [mkLineToken 0 (str "a b");
                                mkLineToken 2 (str "whitespace"); mkLineToken 4 []])
    by reflexivity.
  split; [exact Hst|].
  exact (positions_ignore_types (str "a b c ") 4 5 false true _ _ Hst).
Defined.

(** The parts of [c2_input] have no whitespace type. *)
Lemma flag_without_whitespace_parts_witness :
  Forall (fun p => isWhitespace (type p) = false) (parts c2_input) /\
  renderLine (mkRenderLineInput (str "a b c ") 4 (-1) true (parts c2_input)) =
  renderLine (mkRenderLineInput (str "a b c ") 4 (-1) false (parts c2_input)).
Proof.
  assert (Hps : Forall (fun p => isWhitespace (type p) = false) (parts c2_input))
    by (repeat constructor).
  split; [exact Hps|].
  exact (flag_without_whitespace_parts (str "a b c ") 4 (-1) true (parts c2_input)
           Hps).
Defined.

(** The closed form at [c1_input]: the tab takes the columns [1] to [3]. *)
Lemma untruncated_closed_form_witness :
  0 < 4 /\
  renderLine c1_input =
  Ok (mkOutput
        (partOffsets 4 (lineContent c1_input) 0 (parts c1_input) ++
           [Some (finalOffset 4 (lineContent c1_input) 0 (parts c1_input))])
        (Z.of_nat (length (parts c1_input)) - 1)
        (str "<span>" ::
           partSpans 4 false (lineContent c1_input) 0 (parts c1_input) ++
           [str "</span>"])) /\
  partOffsets 4 (lineContent c1_input) 0 (parts c1_input) = [Some 0; Some 1; Some 4] /\
  finalOffset 4 (lineContent c1_input) 0 (parts c1_input) = 5.
Proof.
  assert (Hsize : 0 < 4) by lia.
  assert (Hline : lineContent c1_input <> []) by discriminate.
  assert (Hps : parts c1_input <> []) by discriminate.
  split; [exact Hsize|]. split; [|split; vm_compute; reflexivity].
  exact (untruncated_closed_form (lineContent c1_input) 4 (-1) false (parts c1_input)
           Hsize Hline Hps (or_introl eq_refl)).
Defined.

(** The character [d] of [abcdef], the second of the part that starts at
    [2]. *)
Lemma offsets_are_columns_witness :
  0 < 4 /\
  exists o,
    renderLine (untruncated c2_input) = Ok o /\
    charOffsetInPart o !! 3%nat = Some (Some (3 - 2)).
Proof.
  assert (Hsize : 0 < 4) by lia.
  split; [exact Hsize|].
  eexists. split; [vm_compute; reflexivity|].
  assert (Hin : tokenContains (Z.of_nat (length (lineContent c2_input)))
                  (parts c2_input) 1 (Z.of_nat 3)).
  { exists (mkLineToken 2 (str "y")). split; [reflexivity|]. simpl. lia. }
  assert (Hno : Forall (fun c => c <> _tab) (lineContent c2_input))
    by (repeat constructor; discriminate).
  refine (proj2 (offsets_are_columns (lineContent c2_input) 4 (-1) false
                   (parts c2_input) _ Hsize c2_tokens_valid (or_introl eq_refl) _
                   1%nat 3%nat (mkLineToken 2 (str "y")) eq_refl _ Hin) Hno).
  - vm_compute. reflexivity.
  - simpl. lia.
Defined.

(** The line [abcdef] in one part. *)
Lemma plain_text_witness :
  0 < 4 /\
  renderLine (mkRenderLineInput (str "abcdef") 4 (-1) true [mkLineToken 0 (str "x")]) =
  Ok (mkOutput [Some 0; Some 1; Some 2; Some 3; Some 4; Some 5; Some 6] 0
        [str "<span>"; tokenOpen; str "x"; tokenClose;
         str "a"; str "b"; str "c"; str "d"; str "e"; str "f";
         str "</span>"; str "</span>"]).
Proof.
  assert (Hsize : 0 < 4) by lia.
  assert (Hline : str "abcdef" <> []) by discriminate.
  assert (Hplain : Forall (fun c => c ∉ special) (str "abcdef")).
  { repeat constructor; intros H;
      repeat (apply elem_of_cons in H as [H|H]; [discriminate H|]);
      by apply elem_of_nil in H. }
  split; [exact Hsize|].
  exact (plain_text (str "abcdef") 4 (-1) true (mkLineToken 0 (str "x")) Hsize Hline
           Hplain (or_introl eq_refl)).
Defined.

(** Two tabs under a tab size of [4], in a part that renders whitespace. *)
Lemma tabs_reach_stops_witness :
  0 < 4 /\
  renderLine
    (mkRenderLineInput [_tab; _tab] 4 (-1) true [mkLineToken 0 (str "whitespace")]) =
  Ok (mkOutput [Some 0; Some 4; Some 8] 0
        [str "<span>"; tokenOpen; str "whitespace"; tokenClose;
         str "&rarr;"; nbsp; nbsp; nbsp; str "&rarr;"; nbsp; nbsp; nbsp;
         str "</span>"; str "</span>"]).
Proof.
  assert (Hsize : 0 < 4) by lia.
  assert (Hk : (0 < 2)%nat) by lia.
  split; [exact Hsize|].
  exact (proj1 (tabs_reach_stops 2 4 (-1) true (mkLineToken 0 (str "whitespace"))
                  Hsize Hk (or_introl eq_refl))).
Defined.

(** The tab of [c1_input], from the column [1] to the column [4]. *)
Lemma tab_ends_at_stop_witness :
  0 < 4 /\ tabs_inv c1_at_tab /\
  (Locals.charIndex c1_at_tab + 1
   + Locals.tabsCharDelta (renderChar (lineContent c1_input) 4 false c1_at_tab))
    mod 4 = 0 /\
  Locals.charIndex c1_at_tab + 1
  + Locals.tabsCharDelta (renderChar (lineContent c1_input) 4 false c1_at_tab) = 4.
Proof.
  assert (Hsize : 0 < 4) by lia.
  assert (Hinv : tabs_inv c1_at_tab) by (split; simpl; lia).
  split; [exact Hsize|]. split; [exact Hinv|].
  split; [|vm_compute; reflexivity].
  exact (proj1 (tab_ends_at_stop (lineContent c1_input) 4 false c1_at_tab Hsize Hinv
                  eq_refl)).
Defined.

(** The output of [c2_input] ends in the ellipsis marker, in the part [1] of
    three. *)
Lemma truncated_iff_ellipsis_witness :
  renderLine c2_input = Ok c2_output /\
  last (output c2_output) = Some ellipsis /\
  0 <= lastRenderedPartIndex c2_output < 3.
Proof.
  assert (Hline : lineContent c2_input <> []) by discriminate.
  split; [exact c2_renders|].
  destruct (truncated_iff_ellipsis c2_input c2_output c2_renders Hline)
    as ((Hcut & _) & _ & Hindex).
  split; [|exact Hindex].
  apply Hcut. vm_compute. reflexivity.
Defined.

(** The closed form of the cut at [c2_input]: it is [c2_output]. *)
Lemma truncated_closed_form_witness :
  0 < 4 /\ 1 <= 3 <= 6 /\
  renderLine c2_input =
  Ok (mkOutput
        (array_incr_last
           (take 3 (partOffsets 4 (lineContent c2_input) 0 (parts c2_input))))
        (Z.of_nat (cutIndex (lineContent c2_input) 3 0 (parts c2_input)))
        (str "<span>" ::
           cutSpans 4 false (lineContent c2_input) 3 0 (parts c2_input) ++
           [ellipsis])) /\
  array_incr_last
    (take 3 (partOffsets 4 (lineContent c2_input) 0 (parts c2_input))) =
    [Some 0; Some 1; Some 1] /\
  cutIndex (lineContent c2_input) 3 0 (parts c2_input) = 1%nat.
Proof.
  assert (Hsize : 0 < 4) by lia.
  assert (Hlimit : 1 <= 3 <= Z.of_nat (length (lineContent c2_input)))
    by (simpl; lia).
  assert (Hps : parts c2_input <> []) by discriminate.
  split; [exact Hsize|]. split; [lia|].
  split; [|split; vm_compute; reflexivity].
  exact (truncated_closed_form (lineContent c2_input) 4 3 false (parts c2_input)
           Hsize Hps Hlimit).
Defined.

(** The line [a b], a space and a tab in a whitespace part: the flag puts the
    marks [&middot;] and [&rarr;]. *)
Lemma whitespace_flag_marks_witness :
  exists o o',
    renderLine (mkRenderLineInput [97; _space; _tab; 98] 4 (-1) false
                  [mkLineToken 0 (str "whitespace")]) = Ok o /\
    renderLine (mkRenderLineInput [97; _space; _tab; 98] 4 (-1) true
                  [mkLineToken 0 (str "whitespace")]) = Ok o' /\
    output o' !! 5%nat = Some (str "&middot;") /\
    output o' !! 6%nat = Some (str "&rarr;") /\
    Forall2 marked (output o) (output o').
Proof.
  eexists.
  destruct (whitespace_flag_marks [97; _space; _tab; 98] 4 (-1)
              [mkLineToken 0 (str "whitespace")] _ eq_refl)
    as (o' & Ho' & _ & _ & Hmarks).
  exists o'. split; [reflexivity|]. split; [exact Ho'|].
  split; [|split; [|exact Hmarks]].
  - vm_compute in Ho'. injection Ho' as <-. reflexivity.
  - vm_compute in Ho'. injection Ho' as <-. reflexivity.
Defined.

(** The characters [c] and [d] of [abcdef], in the part that starts at [2]. *)
Lemma offsets_increase_in_part_witness :
  0 < 4 /\
  exists o v w,
    renderLine (untruncated c2_input) = Ok o /\
    charOffsetInPart o !! 2%nat = Some (Some v) /\
    charOffsetInPart o !! 3%nat = Some (Some w) /\
    0 <= v /\ v + 1 <= w <= v + 4.
Proof.
  assert (Hsize : 0 < 4) by lia.
  split; [exact Hsize|].
  eexists.
  assert (Hc : tokenContains (Z.of_nat (length (lineContent c2_input)))
                 (parts c2_input) 1 (Z.of_nat 2)).
  { exists (mkLineToken 2 (str "y")). split; [reflexivity|]. simpl. lia. }
  assert (Hd : tokenContains (Z.of_nat (length (lineContent c2_input)))
                 (parts c2_input) 1 (Z.of_nat 3)).
  { exists (mkLineToken 2 (str "y")). split; [reflexivity|]. simpl. lia. }
  destruct (offsets_increase_in_part (lineContent c2_input) 4 (-1) false
              (parts c2_input) _ Hsize c2_tokens_valid (or_introl eq_refl) eq_refl
              1%nat 2%nat 3%nat ltac:(lia) ltac:(simpl; lia) Hc Hd)
    as (v & w & Hv & Hw & Hbounds).
  exists v, w. split; [reflexivity|]. split; [exact Hv|]. split; [exact Hw|].
  exact Hbounds.
Defined.

(** The listener [7] with four failures on its count, under the default
    thresholds: a delivery to it has the value [false]. *)
Lemma bad_listener_stays_ignored_witness :
  SaveParticipant.exceeds (({[7%nat := 4]} : gmap nat Z) !! 7%nat)
    SaveParticipant.defaultThresholds = true /\
  (SaveParticipant.deliveries sp_fromRange sp_fromEol sp_message
     SaveParticipant.defaultThresholds {[7%nat := 4]} [sp_deliver sp_edit]).2
    !! 0%nat = Some false.
Proof.
  assert (Hbad : SaveParticipant.exceeds (({[7%nat := 4]} : gmap nat Z) !! 7%nat)
                   SaveParticipant.defaultThresholds = true)
    by (vm_compute; reflexivity).
  split; [exact Hbad|].
  exact (proj2 (bad_listener_stays_ignored unit unit unit unit sp_fromRange
                  sp_fromEol sp_message SaveParticipant.defaultThresholds {[7%nat := 4]}
                  7%nat [sp_deliver sp_edit] Hbad)
           0%nat (sp_deliver sp_edit) eq_refl eq_refl).
Defined.

(** Five timeouts of the listener [7] under the default thresholds: four of
    them are counted, and the listener is ignored. *)
Lemma failures_counted_until_ignored_witness :
  0 <= SaveParticipant.errors SaveParticipant.defaultThresholds /\
  (SaveParticipant.deliveries sp_fromRange sp_fromEol sp_message
     SaveParticipant.defaultThresholds ∅ (replicate 5 (sp_deliver sp_late))).1
    !! 7%nat = Some 4 /\
  (SaveParticipant.deliveries sp_fromRange sp_fromEol sp_message
     SaveParticipant.defaultThresholds ∅ (replicate 5 (sp_deliver sp_late))).2
    = [false; false; false; false; false].
Proof.
  assert (Hth : 0 <= SaveParticipant.errors SaveParticipant.defaultThresholds)
    by (simpl; lia).
  assert (Hds : replicate 5 (sp_deliver sp_late) <> []) by discriminate.
  assert (Hall :
    Forall (fun d => SaveParticipant.to d = 7%nat /\
                     SaveParticipant.fails sp_fromRange sp_fromEol sp_message d)
      (replicate 5 (sp_deliver sp_late))).
  { repeat constructor; eexists; (split; [reflexivity|vm_compute; reflexivity]). }
  assert (Hnone : (∅ : gmap nat Z) !! 7%nat = None) by (vm_compute; reflexivity).
  split; [exact Hth|].
  destruct (failures_counted_until_ignored unit unit unit unit sp_fromRange
              sp_fromEol sp_message SaveParticipant.defaultThresholds ∅ 7%nat
              (replicate 5 (sp_deliver sp_late)) Hth Hnone Hds Hall)
    as (Hcount & _ & Hresults).
  split; [exact Hcount|exact Hresults].
Defined.

(** Timeouts of the listener [7] leave the count of the listener [8]. *)
Lemma other_listeners_untouched_witness :
  Forall (fun d => SaveParticipant.to d <> 8%nat) [sp_deliver sp_late] /\
  (SaveParticipant.deliveries sp_fromRange sp_fromEol sp_message
     SaveParticipant.defaultThresholds {[8%nat := 2]} [sp_deliver sp_late]).1
    !! 8%nat = Some 2.
Proof.
  assert (Hall : Forall (fun d => SaveParticipant.to d <> 8%nat)
                   [sp_deliver sp_late])
    by (repeat constructor; discriminate).
  split; [exact Hall|].
  exact (other_listeners_untouched unit unit unit unit sp_fromRange sp_fromEol sp_message
           SaveParticipant.defaultThresholds {[8%nat := 2]} 8%nat
           [sp_deliver sp_late] Hall).
Defined.

(** An edit for the version [1] of a document that is at the version [2]. *)
Lemma version_conflict_not_counted_witness :
  SaveParticipant.documentVersion sp_edit = 2 /\
  SaveParticipant.deliverEventAsyncAndBlameBadListeners sp_fromRange sp_fromEol sp_message
    SaveParticipant.defaultThresholds ∅ 7%nat 1 sp_edit = (∅, false).
Proof.
  split; [reflexivity|].
  refine (proj2 (version_conflict_not_counted unit unit unit unit sp_fromRange
                   sp_fromEol sp_message SaveParticipant.defaultThresholds ∅
                   7%nat 1 sp_edit _ _ eq_refl eq_refl eq_refl _ _)).
  - discriminate.
  - discriminate.
Defined.

(** The first timeout of the listener [7]. *)
Lemma timeout_is_counted_witness :
  SaveParticipant.exceeds ((∅ : gmap nat Z) !! 7%nat)
    SaveParticipant.defaultThresholds = false /\
  SaveParticipant.deliverEventAsyncAndBlameBadListeners sp_fromRange sp_fromEol sp_message
    SaveParticipant.defaultThresholds ∅ 7%nat 1 sp_late = ({[7%nat := 1]}, false).
Proof.
  assert (Hbad : SaveParticipant.exceeds ((∅ : gmap nat Z) !! 7%nat)
                   SaveParticipant.defaultThresholds = false)
    by (vm_compute; reflexivity).
  split; [exact Hbad|].
  rewrite (timeout_is_counted unit unit unit unit sp_fromRange sp_fromEol sp_message
             SaveParticipant.defaultThresholds ∅ 7%nat 1 sp_late Hbad eq_refl
             eq_refl).
  vm_compute. reflexivity.
Defined.

(** An array of an edit and a hole: the loop throws, and the delivery is the
    first failure of the listener [7]. *)
Lemma array_taken_dropped_or_thrown_witness :
  SaveParticipant.joined sp_holed =
    SaveParticipant.JoinedValues
      [SaveParticipant.ArrayOf
         [SaveParticipant.Edit (SaveParticipant.mkTextEdit None (str "x") None);
          SaveParticipant.Hole]] /\
  SaveParticipant.deliverEventAsyncAndBlameBadListeners sp_fromRange sp_fromEol
    sp_message SaveParticipant.defaultThresholds ∅ 7%nat 1 sp_holed =
    ({[7%nat := 1]}, false).
Proof.
  split; [reflexivity|].
  assert (Hhole :
    SaveParticipant.Hole ∈
      [SaveParticipant.Edit (SaveParticipant.mkTextEdit (None : option unit)
                               (str "x") (None : option unit));
       SaveParticipant.Hole])
    by (right; left).
  assert (Hother :
    SaveParticipant.Other ∉
      [SaveParticipant.Edit (SaveParticipant.mkTextEdit (None : option unit)
                               (str "x") (None : option unit));
       SaveParticipant.Hole]).
  { intros Hin. apply elem_of_cons in Hin as [Heq|Hin]; [discriminate|].
    apply elem_of_cons in Hin as [Heq|Hin]; [discriminate|].
    by apply elem_of_nil in Hin. }
  assert (Hbad : SaveParticipant.exceeds ((∅ : gmap nat Z) !! 7%nat)
                   SaveParticipant.defaultThresholds = false)
    by (vm_compute; reflexivity).
  assert (Hmessage : sp_message <> str "concurrent_edits") by discriminate.
  destruct (array_taken_dropped_or_thrown unit unit unit unit sp_fromRange
              sp_fromEol sp_message [] []
              [SaveParticipant.Edit
                 (SaveParticipant.mkTextEdit None (str "x") None);
               SaveParticipant.Hole]) as (_ & _ & _ & Hthrown).
  destruct (Hthrown Hhole Hother [] eq_refl) as (_ & Hdelivery).
  destruct (Hdelivery SaveParticipant.defaultThresholds ∅ 7%nat 1 sp_holed
              eq_refl eq_refl) as (_ & Hcounted).
  rewrite (Hcounted Hbad Hmessage). vm_compute. reflexivity.
Defined.
